(** * Cross-chain swap solver: evaluator, in-flight cache and executor

    A shallow embedding of the solver loop of [not-only-swaps]:
    [util.ts] ([normalizeChainId], [toRequestId]), [model.ts],
    [solver.ts] (the simple evaluator), [solver-v2.ts] (the scored
    evaluator with its risk manager, profit optimizer and gas price
    estimator) and [executor.ts].

    JavaScript values are modelled as the code has them:
    - [bigint] is [Z]; [&] is [Z.land]; bigint [/] is [Z.quot];
    - a [number] holding a chain id is the integer value of an IEEE-754
      double, obtained from a bigint by the rounding of [Number(..)];
    - a [number] holding a score or a risk is a binary64 [float];
    - [string] is [string]; [toLowerCase] acts on the ASCII letters (request
      ids and addresses are hexadecimal text);
    - [Map<number, ChainState>] is [gmap Z ChainState];
    - the [tokenBalances] map of a chain state is a mutable object: a chain
      state holds a reference into a heap of maps, so that a copy of the
      [states] table shares the balances with the original. *)

From Stdlib Require Import ZArith Lia Ascii String.
From Stdlib Require Import Floats.PrimFloat Floats.SpecFloat Floats.FloatOps.
From stdpp Require Import gmap strings list.

Set Warnings "-inexact-float,-notation-for-abbreviation".
#[local] Open Scope Z_scope.

(* ===================================================================== *)
(** ** util.ts *)
(* ===================================================================== *)

Module Util.

(** [Number(b)] for a bigint [b]: the nearest binary64 value, ties to even,
    as sign, mantissa and exponent. *)
Definition NumberSF (b : Z) : spec_float := binary_normalize 53 1024 b 0 false.

(** [Number(b)] as a double. *)
Definition Number (b : Z) : float := SF2Prim (NumberSF b).

(** The integer denoted by a double that holds an integer (used for the
    doubles that serve as chain ids and map keys). *)
Definition integerValue (f : spec_float) : Z :=
  match f with
  | S754_finite s m e =>
      let v := if (0 <=? e) then Z.pos m * 2 ^ e else Z.pos m / 2 ^ (- e) in
      if s then - v else v
  | _ => 0
  end.

(** [0xFFFFFFFFFFFFFFFF]. *)
Definition mask64 : Z := 18446744073709551615.

(** [normalizeChainId(chainId) = Number(chainId & BigInt('0xFFFFFFFFFFFFFFFF'))]. *)
Definition normalizeChainId (chainId : Z) : Z :=
  integerValue (NumberSF (Z.land chainId mask64)).

Definition lowerAscii (c : ascii) : ascii :=
  let n := nat_of_ascii c in
  if ((65 <=? n)%nat && (n <=? 90)%nat)%bool then ascii_of_nat (n + 32) else c.

(** [s.toLowerCase()]. *)
Fixpoint toLowerCase (s : string) : string :=
  match s with
  | EmptyString => EmptyString
  | String c s' => String (lowerAscii c) (toLowerCase s')
  end.

Fixpoint repeatChar (c : ascii) (n : nat) : string :=
  match n with
  | O => EmptyString
  | S n' => String c (repeatChar c n')
  end.

(** [s.padStart(n, '0')]. *)
Definition padStart0 (n : nat) (s : string) : string :=
  (repeatChar "0"%char (n - String.length s) ++ s)%string.

(** [toRequestId(hex)] on a string argument: drop a leading [0x], left-pad
    with zeros to 64 characters, keep the first 64, lower-case, and put
    [0x] in front. *)
Definition toRequestId (hex : string) : string :=
  let hexString :=
    if String.prefix "0x" hex
    then String.substring 2 (String.length hex - 2) hex
    else hex in
  let padded := String.substring 0 64 (padStart0 64 hexString) in
  ("0x" ++ toLowerCase padded)%string.

End Util.
Export Util.

(* ===================================================================== *)
(** ** model.ts *)
(* ===================================================================== *)

(** A reference to a [Map<string, bigint>] object. *)
Definition loc := positive.

(** The heap of [tokenBalances] maps. *)
Notation Heap := (gmap loc (gmap string Z)).

(** The object a reference points to (an empty map for a reference that was
    never allocated; the code only holds references it allocated). *)
Definition deref (h : Heap) (l : loc) : gmap string Z := default ∅ (h !! l).

(** [map.get(key)] on the map object at [l]. *)
Definition mapGet (h : Heap) (l : loc) (key : string) : option Z :=
  deref h l !! key.

(** [map.set(key, v)] on the map object at [l]: an update in place. *)
Definition mapSet (h : Heap) (l : loc) (key : string) (v : Z) : Heap :=
  <[l := <[key := v]> (deref h l)]> h.

Inductive ConditionType := CondPrice | CondTime | CondBalance | CondCustom.
Inductive ConditionOperator := OpGt | OpLt | OpEq | OpGte | OpLte | OpBetween.

(** A condition of a conditional transfer; its [params] bag is untyped in
    the source and is read only by the condition evaluator. *)
Record Condition := {
  ctype : ConditionType;
  operator : ConditionOperator;
}.

Record SwapRequestParameters := {
  srcChainId : Z;
  dstChainId : Z;
  sender : string;
  recipient : string;
  tokenIn : string;
  tokenOut : string;
  amountOut : Z;
  verificationFee : Z;
  solverFee : Z;
  nonce : Z;
  executed : bool;
  requestedAt : Z;
}.

Record Transfer := {
  requestId : string;
  params : SwapRequestParameters;
  conditions : list Condition;
}.

Record ChainState := {
  nativeBalance : Z;
  tokenBalances : loc;
  transfers : list Transfer;
  alreadyFulfilled : list string;
}.

Module Trade.
Record t := {
  requestId : string;
  nonce : Z;
  tokenInAddr : string;
  tokenOutAddr : string;
  srcChainId : Z;
  destChainId : Z;
  senderAddr : string;
  recipientAddr : string;
  swapAmount : Z;
}.
End Trade.
Notation Trade := Trade.t.

(** The table [Map<number, ChainState>]. *)
Notation States := (gmap Z ChainState).

(** Exceptions become error results. *)
Inductive Result (A : Type) :=
| Ok (a : A)
| Err (msg : string).
Arguments Ok {A} a.
Arguments Err {A} msg.

(* ===================================================================== *)
(** ** The in-flight cache *)
(* ===================================================================== *)

Module InFlight.

(** Modelled from the spec: the in-flight cache is an instance of the
    [node-cache] package, which is not part of the repository; [App.start]
    builds it with [stdTTL: 30] and [maxKeys: 1000]. It is a TTL map from
    request id to "present": each stored key carries the instant (in
    milliseconds) at which it expires, expiry is checked on read, and keys
    are compared as the exact strings they are. An expired key stays
    stored until [has] comes across it, which deletes it. At the cap the
    model follows the package, whose [set] throws, where the spec speaks
    of an eviction. (The package also clears the expired keys on a timer
    of its own, every 600 seconds: that changes no later answer of [has]
    and can only lower the number of stored keys; it is not modelled.) *)
Notation t := (gmap string Z).

(** [maxKeys: 1000]. *)
Definition maxKeys : nat := 1000.

(** What [inFlight.has(key)] answers at time [now]: a key is expired once
    the clock has passed its instant. *)
Definition has (c : t) (now : Z) (key : string) : bool :=
  match c !! key with
  | Some expiry => now <=? expiry
  | None => false
  end.

(** What [inFlight.has(key)] leaves of the cache at time [now]: a key it
    finds expired is deleted. *)
Definition checked (c : t) (now : Z) (key : string) : t :=
  match c !! key with
  | Some expiry => if now <=? expiry then c else delete key c
  | None => c
  end.

(** What a run of [has] over [keys], all at time [now], leaves of the
    cache. *)
Definition checkedAll (c : t) (now : Z) (keys : list string) : t :=
  foldl (λ c key, checked c now key) c keys.

(** [inFlight.set(key, true, ttl)] at time [now]; [ttl] is in seconds. On a
    cache that stores [maxKeys] keys the package throws [ECACHEFULL],
    whether or not [key] is one of them. *)
Definition set (c : t) (now : Z) (key : string) (ttl : Z) : Result t :=
  if (maxKeys <=? size c)%nat then Err "ECACHEFULL"
  else Ok (<[key := now + ttl * 1000]> c).

(** [inFlight.del(key)]. *)
Definition del (c : t) (key : string) : t := delete key c.

End InFlight.

(* ===================================================================== *)
(** ** solver.ts: the simple evaluator *)
(* ===================================================================== *)

(** [destState.alreadyFulfilled.some(id => id.toLowerCase() === normalizedRequestId)]. *)
Definition isFulfilled (destState : ChainState) (rid : string) : bool :=
  existsb (fun id => bool_decide (toLowerCase id = toLowerCase rid))
          (alreadyFulfilled destState).

(** The callback of [transfers.filter(..)] in [calculateTrades]. *)
Definition keepUnfulfilled (states : States) (transfer : Transfer) : bool :=
  match states !! normalizeChainId (dstChainId (params transfer)) with
  | None => true
  | Some destState => negb (isFulfilled destState (requestId transfer))
  end.

(** The trade record built at the end of [solve]. *)
Definition toTrade (transfer : Transfer) : Trade :=
  let p := params transfer in
  {| Trade.requestId := requestId transfer;
     Trade.nonce := nonce p;
     Trade.tokenInAddr := toLowerCase (tokenIn p);
     Trade.tokenOutAddr := toLowerCase (tokenOut p);
     Trade.srcChainId := srcChainId p;
     Trade.destChainId := dstChainId p;
     Trade.senderAddr := toLowerCase (sender p);
     Trade.recipientAddr := toLowerCase (recipient p);
     Trade.swapAmount := amountOut p |}.

(** The answer of a chain client's [fetchState()]: the balances it read, as
    the content of the fresh [tokenBalances] map it builds. *)
Record Snapshot := {
  snapNativeBalance : Z;
  snapTokenBalances : gmap string Z;
  snapTransfers : list Transfer;
  snapAlreadyFulfilled : list string;
}.

(** The table [Map<number, ChainStateProvider>]: per configured chain, what
    its client answers to [fetchState()] on this tick ([None] when the call
    throws). *)
Notation Chains := (gmap Z (option Snapshot)).

(** The chain state object a client returns: its [tokenBalances] map is a
    newly allocated object. *)
Definition newChainState (snap : Snapshot) (h : Heap) : ChainState * Heap :=
  let l := fresh (dom h) in
  ({| nativeBalance := snapNativeBalance snap;
      tokenBalances := l;
      transfers := snapTransfers snap;
      alreadyFulfilled := snapAlreadyFulfilled snap |},
   <[l := snapTokenBalances snap]> h).

(** The solver object: the result of a method, the table [this.states]
    after the call, and the heap after the call. *)
Definition Outcome : Type := Result (list Trade) * States * Heap.

Module Solver.

(** [Solver.solve(transfer, states)]: the trade, if any, and the heap
    after the inventory commit. *)
Definition solve (transfer : Transfer) (states : States) (h : Heap)
  : option Trade * Heap :=
  let p := params transfer in
  let destChainId := normalizeChainId (dstChainId p) in
  match states !! destChainId with
  | None => (None, h)
  | Some destState =>
      if executed p then (None, h)
      else if isFulfilled destState (requestId transfer) then (None, h)
      else if nativeBalance destState =? 0 then (None, h)
      else
        let tokenAddress := toLowerCase (tokenOut p) in
        match mapGet h (tokenBalances destState) tokenAddress with
        | None => (None, h)
        | Some tokenBalance =>
            if (tokenBalance =? 0) || (tokenBalance <? amountOut p) then (None, h)
            else if solverFee p <? 1 then (None, h)
            else (Some (toTrade transfer),
                  mapSet h (tokenBalances destState) tokenAddress
                         (tokenBalance - amountOut p))
        end
  end.

(** The [for (const transfer of unfulfilledTransfers)] loop of
    [calculateTrades], over the table [states] it was given. *)
Fixpoint evaluate (states : States) (inFlight : InFlight.t) (now : Z)
    (unfulfilledTransfers : list Transfer) (h : Heap) : list Trade * Heap :=
  match unfulfilledTransfers with
  | [] => ([], h)
  | transfer :: rest =>
      if InFlight.has inFlight now (requestId transfer)
      then evaluate states inFlight now rest h
      else
        match solve transfer states h with
        | (Some trade, h') =>
            let '(trades, h'') := evaluate states inFlight now rest h' in
            (trade :: trades, h'')
        | (None, h') => evaluate states inFlight now rest h'
        end
  end.

(** [Solver.calculateTrades(chainId, inFlight)]. [this_states] is the
    persistent table [this.states]; [new Map(this.states)] copies the
    table, not the chain states it holds nor their [tokenBalances] maps,
    so the copy has the same entries and the heap is shared. *)
Definition calculateTrades (this_states : States) (chainId : Z)
    (inFlight : InFlight.t) (now : Z) (h : Heap) : Result (list Trade) * Heap :=
  let states := this_states in
  match states !! chainId with
  | None => (Err "State for chain not found", h)
  | Some chainState =>
      let unfulfilledTransfers :=
        List.filter (keepUnfulfilled states) (transfers chainState) in
      let '(trades, h') := evaluate states inFlight now unfulfilledTransfers h in
      (Ok trades, h')
  end.

(** [Solver.fetchState(chainId, inFlight)]. *)
Definition fetchState (chains : Chains) (this_states : States) (chainId : Z)
    (inFlight : InFlight.t) (now : Z) (h : Heap) : Outcome :=
  match chains !! chainId with
  | None => (Err "Chain not found", this_states, h)
  | Some chain =>
      match chain with
      | None => (Err "fetchState failed", this_states, h)
      | Some snap =>
          let '(updatedState, h1) := newChainState snap h in
          let this_states' := <[chainId := updatedState]> this_states in
          let '(r, h2) :=
            calculateTrades this_states' chainId inFlight now h1 in
          (r, this_states', h2)
      end
  end.

End Solver.

(* ===================================================================== *)
(** ** solver-v2.ts: risk manager, profit optimizer, gas price estimator *)
(* ===================================================================== *)

Module RiskManager.

Definition maxRisk : float := 0.3%float.
Definition minSolverFee : Z := 1000000000000000.

Definition assessLiquidityRisk (trade : Trade) (states : States) (h : Heap) : float :=
  match states !! normalizeChainId (Trade.destChainId trade) with
  | None => 1.0%float
  | Some destState =>
      (* [destState.tokenBalances.get(trade.tokenOutAddr) || BigInt(0)] *)
      let tokenBalance :=
        default 0 (mapGet h (tokenBalances destState) (Trade.tokenOutAddr trade)) in
      let requiredAmount := Trade.swapAmount trade in
      if tokenBalance =? 0 then 1.0%float
      else if tokenBalance <? requiredAmount then 0.8%float
      else
        let liquidityRatio := PrimFloat.div (Number tokenBalance) (Number requiredAmount) in
        if PrimFloat.ltb liquidityRatio 1.1%float then 0.5%float else 0.1%float
  end.

Definition assessFeeRisk (transfer : Transfer) : float :=
  if solverFee (params transfer) <? minSolverFee then 0.9%float else 0.1%float.

Definition assessExecutionRisk (trade : Trade) (states : States) : float :=
  match states !! normalizeChainId (Trade.destChainId trade) with
  | None => 0.8%float
  | Some destState =>
      if nativeBalance destState =? 0 then 1.0%float
      else
        let minGas := 100000000000000000 in
        if nativeBalance destState <? minGas then 0.6%float else 0.2%float
  end.

Definition zeroAddress : string := "0x0000000000000000000000000000000000000000".

Definition assessCounterpartyRisk (transfer : Transfer) : float :=
  if bool_decide (toLowerCase (sender (params transfer)) = zeroAddress)
     || bool_decide (toLowerCase (recipient (params transfer)) = zeroAddress)
  then 0.5%float else 0.1%float.

(** [risks.reduce((sum, risk) => sum + risk, 0) / risks.length]. *)
Definition assessRisk (trade : Trade) (transfer : Transfer) (states : States)
    (h : Heap) : float :=
  let risks := [ assessLiquidityRisk trade states h;
                 assessFeeRisk transfer;
                 assessExecutionRisk trade states;
                 assessCounterpartyRisk transfer ] in
  PrimFloat.div (fold_left PrimFloat.add risks 0%float)
                (Number (Z.of_nat (length risks))).

End RiskManager.

Module GasPriceEstimator.

(** [Map<number, { gasPrice, timestamp }>]. *)
Notation Cache := (gmap Z (Z * Z)).

Definition cacheTTL : Z := 30000.

(** The table [defaultGasPrices], in wei. *)
Definition defaultGasPrices (chainId : Z) : option Z :=
  if chainId =? 1 then Some 20000000000
  else if chainId =? 137 then Some 30000000000
  else if chainId =? 42161 then Some 100000000
  else if chainId =? 10 then Some 1000000
  else None.

(** [getGasPrice(chainId)] at time [now] (milliseconds): the price and the
    cache after the call. *)
Definition getGasPrice (cache : Cache) (now : Z) (chainId : Z) : Z * Cache :=
  match cache !! chainId with
  | Some (cachedGasPrice, timestamp) =>
      if now - timestamp <? cacheTTL then (cachedGasPrice, cache)
      else
        let gasPrice := default 20000000000 (defaultGasPrices chainId) in
        (gasPrice, <[chainId := (gasPrice, now)]> cache)
  | None =>
      let gasPrice := default 20000000000 (defaultGasPrices chainId) in
      (gasPrice, <[chainId := (gasPrice, now)]> cache)
  end.

End GasPriceEstimator.

Module ProfitOptimizer.

Definition estimateGasCost (cache : GasPriceEstimator.Cache) (now : Z) (trade : Trade)
  : Z * GasPriceEstimator.Cache :=
  let destChainId := normalizeChainId (Trade.destChainId trade) in
  let estimatedGasUnits := 150000 in
  let '(gasPrice, cache') := GasPriceEstimator.getGasPrice cache now destChainId in
  (estimatedGasUnits * gasPrice, cache').

Definition estimateOpportunityCost (trade : Trade) : Z :=
  let lockedAmount := Trade.swapAmount trade in
  let lockTime := 60 in
  let hourlyRate := 1000 in
  Z.quot (lockedAmount * hourlyRate * lockTime) 3600000.

Definition estimateProfit (cache : GasPriceEstimator.Cache) (now : Z)
    (trade : Trade) (transfer : Transfer) : Z * GasPriceEstimator.Cache :=
  let solverFee := solverFee (params transfer) in
  let '(gasCost, cache') := estimateGasCost cache now trade in
  let opportunityCost := estimateOpportunityCost trade in
  let profit := solverFee - gasCost - opportunityCost in
  (if 0 <? profit then profit else 0, cache').

Definition calculateProfitScore (cache : GasPriceEstimator.Cache) (now : Z)
    (trade : Trade) (transfer : Transfer) : float * GasPriceEstimator.Cache :=
  let '(profit, cache') := estimateProfit cache now trade transfer in
  let solverFee := solverFee (params transfer) in
  if solverFee =? 0 then (0%float, cache')
  else (PrimFloat.div (Number profit) (Number solverFee), cache').

End ProfitOptimizer.

(* ===================================================================== *)
(** ** solver-v2.ts: the scored evaluator *)
(* ===================================================================== *)

Module SolverV2.

(** An entry of [potentialTrades]. *)
Record Candidate := {
  trade : Trade;
  transfer : Transfer;
  score : float;
  risk : float;
}.

(** [SolverV2.solve(transfer, states)]: the checks of the simple evaluator
    with the configurable minimum fee, and no inventory commit. *)
Definition solve (transfer : Transfer) (states : States) (h : Heap) : option Trade :=
  let p := params transfer in
  let destChainId := normalizeChainId (dstChainId p) in
  match states !! destChainId with
  | None => None
  | Some destState =>
      if executed p then None
      else if isFulfilled destState (requestId transfer) then None
      else if nativeBalance destState =? 0 then None
      else
        let tokenAddress := toLowerCase (tokenOut p) in
        match mapGet h (tokenBalances destState) tokenAddress with
        | None => None
        | Some tokenBalance =>
            if (tokenBalance =? 0) || (tokenBalance <? amountOut p) then None
            else if solverFee p <? RiskManager.minSolverFee then None
            else Some (toTrade transfer)
        end
  end.

(** One step of [Array.prototype.sort] with the comparator
    [(a, b) => b.score - a.score]: [x] goes in front of the first entry
    the comparator orders after it. *)
Fixpoint insertByScore (x : Candidate) (sorted : list Candidate) : list Candidate :=
  match sorted with
  | [] => [x]
  | y :: rest =>
      if PrimFloat.ltb 0%float (PrimFloat.sub (score x) (score y))
      then x :: y :: rest
      else y :: insertByScore x rest
  end.

(** [potentialTrades.sort((a, b) => b.score - a.score)]: a stable sort,
    highest score first. *)
Definition sortByScore (l : list Candidate) : list Candidate :=
  fold_left (fun acc x => insertByScore x acc) l [].

(** The commit pass: [for (const { trade, .. } of acceptableTrades)]. *)
Fixpoint commit (states : States) (acceptableTrades : list Candidate) (h : Heap)
  : list Trade * Heap :=
  match acceptableTrades with
  | [] => ([], h)
  | c :: rest =>
      let trade := trade c in
      match states !! normalizeChainId (Trade.destChainId trade) with
      | None => commit states rest h
      | Some destState =>
          (* [destState.tokenBalances.get(trade.tokenOutAddr) || BigInt(0)] *)
          let tokenBalance :=
            default 0 (mapGet h (tokenBalances destState) (Trade.tokenOutAddr trade)) in
          if Trade.swapAmount trade <=? tokenBalance then
            let '(finalTrades, h') :=
              commit states rest
                (mapSet h (tokenBalances destState) (Trade.tokenOutAddr trade)
                        (tokenBalance - Trade.swapAmount trade)) in
            (trade :: finalTrades, h')
          else commit states rest h
      end
  end.

Section Evaluator.

(** [ConditionEvaluator.evaluateConditions(conditions, transfer, states)]:
    its answer depends on the wall clock, the price oracle and the
    closures of custom conditions; it reads the states and does not
    write them. *)
Variable evaluateConditions :
  list Condition -> Transfer -> States -> Heap -> bool.

(** The loop that collects [potentialTrades]; the gas price cache is
    threaded through the profit scores. *)
Fixpoint collect (states : States) (inFlight : InFlight.t) (now : Z)
    (unfulfilledTransfers : list Transfer) (h : Heap)
    (gas : GasPriceEstimator.Cache) : list Candidate * GasPriceEstimator.Cache :=
  match unfulfilledTransfers with
  | [] => ([], gas)
  | transfer :: rest =>
      if InFlight.has inFlight now (requestId transfer)
      then collect states inFlight now rest h gas
      else if negb (bool_decide (conditions transfer = []))
              && negb (evaluateConditions (conditions transfer) transfer states h)
      then collect states inFlight now rest h gas
      else
        match solve transfer states h with
        | None => collect states inFlight now rest h gas
        | Some trade =>
            let risk := RiskManager.assessRisk trade transfer states h in
            let '(profitScore, gas') :=
              ProfitOptimizer.calculateProfitScore gas now trade transfer in
            if PrimFloat.ltb risk RiskManager.maxRisk then
              let score := PrimFloat.sub profitScore (PrimFloat.mul risk 10%float) in
              let '(potentialTrades, gas'') :=
                collect states inFlight now rest h gas' in
              ({| trade := trade; transfer := transfer;
                  score := score; risk := risk |} :: potentialTrades, gas'')
            else collect states inFlight now rest h gas'
        end
  end.

(** [SolverV2.calculateTrades(chainId, inFlight)], one tick run on its
    own. As in the simple evaluator, [new Map(this.states)] copies the
    table only. *)
Definition calculateTrades (this_states : States) (chainId : Z)
    (inFlight : InFlight.t) (now : Z) (h : Heap) (gas : GasPriceEstimator.Cache)
  : Result (list Trade) * Heap * GasPriceEstimator.Cache :=
  let states := this_states in
  match states !! chainId with
  | None => (Err "State for chain not found", h, gas)
  | Some chainState =>
      let unfulfilledTransfers :=
        List.filter (keepUnfulfilled states) (transfers chainState) in
      let '(potentialTrades, gas') :=
        collect states inFlight now unfulfilledTransfers h gas in
      let acceptableTrades := sortByScore potentialTrades in
      let '(finalTrades, h') := commit states acceptableTrades h in
      (Ok finalTrades, h', gas')
  end.

End Evaluator.

End SolverV2.

(* ===================================================================== *)
(** ** executor.ts *)
(* ===================================================================== *)

Module RelayTokens.
(** The arguments of [router.relayTokens(..)], in call order. *)
Record Args := {
  solver : string;
  requestId : string;
  sender : string;
  recipient : string;
  tokenIn : string;
  tokenOut : string;
  amountOut : Z;
  srcChainId : Z;
  nonce : Z;
}.
End RelayTokens.

Module TradeExecutor.

(** The executor object: [ownAddress], and per chain the address
    ([target]) of the router contract and of each token contract. *)
Record Config := {
  ownAddress : string;
  routers : gmap Z string;
  tokens : gmap Z (list string);
}.

(** How a submitted transaction ends: the call rejects, no receipt comes
    back, the receipt has status 0, or the receipt reports success. *)
Inductive TxOutcome := TxThrows | TxNoReceipt | TxReverted | TxSuccess.

(** What the outside world answers while one trade is processed: the
    clock when its loop iteration starts (milliseconds), the record the
    destination router returns for the request id ([None] when the query
    or its decoding throws), how the approval and the relay transaction
    end, whether the 10 s timer fires before the two are done and, when it
    does, whether it fires before [executeTradeInternal] has got to its
    relay call. *)
Record Env := {
  now : Z;
  getSwapRequestParameters : option SwapRequestParameters;
  approve : TxOutcome;
  relayTokens : TxOutcome;
  deadlineExceeded : bool;
  deadlineBeforeRelay : bool;
}.

(** What the executor does to the cache and asks of the network, in order. *)
Inductive Event :=
| CacheSet (key : string) (ttl : Z)
| CacheDel (key : string)
| CallGetSwapRequestParameters (chain : Z) (requestId : string)
| CallApprove (chain : Z) (token : string) (spender : string) (amount : Z)
| CallRelayTokens (chain : Z) (args : RelayTokens.Args).

(** The local variables [actualTokenIn .. actualNonce] of [executeTrade]. *)
Record Actual := {
  actualTokenIn : string;
  actualTokenOut : string;
  actualSender : string;
  actualRecipient : string;
  actualAmountOut : Z;
  actualSrcChainId : Z;
  actualNonce : Z;
}.

Definition zeroAddress : string := "0x0000000000000000000000000000000000000000".

(** The parameter reconciliation of [executeTrade]: the trade-carried
    values, replaced by the stored ones when the router returned a
    verified record. *)
Definition reconcile (stored : option SwapRequestParameters) (trade : Trade) : Actual :=
  let fromTrade :=
    {| actualTokenIn := toLowerCase (Trade.tokenInAddr trade);
       actualTokenOut := toLowerCase (Trade.tokenOutAddr trade);
       actualSender := toLowerCase (Trade.senderAddr trade);
       actualRecipient := toLowerCase (Trade.recipientAddr trade);
       actualAmountOut := Trade.swapAmount trade;
       actualSrcChainId := Trade.srcChainId trade;
       actualNonce := Trade.nonce trade |} in
  match stored with
  | None => fromTrade
  | Some p =>
      let storedSrcChainId := srcChainId p in
      let storedSender := toLowerCase (sender p) in
      if negb (storedSrcChainId =? 0) && negb (bool_decide (storedSender = zeroAddress))
      then {| actualTokenIn := toLowerCase (tokenIn p);
              actualTokenOut := toLowerCase (tokenOut p);
              actualSender := storedSender;
              actualRecipient := toLowerCase (recipient p);
              actualAmountOut := amountOut p;
              actualSrcChainId := storedSrcChainId;
              actualNonce := nonce p |}
      else fromTrade
  end.

(** [executeTradeInternal]: approve, then relay. *)
Definition executeTradeInternal (cfg : Config) (env : Env) (chain : Z)
    (router token paddedRequestId : string) (a : Actual) : list Event * Result unit :=
  let normalizedSolver := toLowerCase (ownAddress cfg) in
  let normalizedSender := toLowerCase (actualSender a) in
  let normalizedRecipient := toLowerCase (actualRecipient a) in
  let normalizedTokenIn := toLowerCase (actualTokenIn a) in
  let normalizedTokenOut := toLowerCase (actualTokenOut a) in
  let approval := CallApprove chain token router (actualAmountOut a) in
  match approve env with
  | TxThrows | TxNoReceipt | TxReverted => ([approval], Err "Error approving funds")
  | TxSuccess =>
      let relay :=
        CallRelayTokens chain
          {| RelayTokens.solver := normalizedSolver;
             RelayTokens.requestId := paddedRequestId;
             RelayTokens.sender := normalizedSender;
             RelayTokens.recipient := normalizedRecipient;
             RelayTokens.tokenIn := normalizedTokenIn;
             RelayTokens.tokenOut := normalizedTokenOut;
             RelayTokens.amountOut := actualAmountOut a;
             RelayTokens.srcChainId := actualSrcChainId a;
             RelayTokens.nonce := actualNonce a |} in
      match relayTokens env with
      | TxThrows | TxNoReceipt | TxReverted => ([approval; relay], Err "Error submitting swap")
      | TxSuccess => ([approval; relay], Ok tt)
      end
  end.

(** [executeTrade(trade)]: the network calls it makes and how it ends.
    When the timer of [Promise.race] fires first the method rejects; the
    calls of [executeTradeInternal] are listed all the same. *)
Definition executeTrade (cfg : Config) (env : Env) (trade : Trade)
  : list Event * Result unit :=
  let destChainId := normalizeChainId (Trade.destChainId trade) in
  match routers cfg !! destChainId with
  | None => ([], Err "Router not found")
  | Some router =>
      let paddedRequestId := toRequestId (Trade.requestId trade) in
      let query := CallGetSwapRequestParameters destChainId paddedRequestId in
      let a := reconcile (getSwapRequestParameters env) trade in
      match tokens cfg !! destChainId with
      | None => ([query], Err "Tokens not found")
      | Some tokenContracts =>
          match List.find (fun target =>
                   bool_decide (toLowerCase target = toLowerCase (actualTokenOut a)))
                 tokenContracts with
          | None => ([query], Err "Token contract not found")
          | Some token =>
              let '(calls, r) :=
                executeTradeInternal cfg env destChainId router token paddedRequestId a in
              (query :: calls,
               if deadlineExceeded env then Err "Trade execution timeout" else r)
          end
      end
  end.

Definition isRelay (e : Event) : bool :=
  match e with
  | CallRelayTokens _ _ => true
  | _ => false
  end.

(** The calls of a failed [executeTrade] that are made by the time its
    rejection reaches the [catch] of [execute], and those made after it.
    Only a timeout leaves calls for later: [Promise.race] rejects at the
    deadline and [executeTradeInternal] runs on. Its approval was submitted
    when it started; its relay call is still to come when the timer fired
    before it. *)
Definition callsInTime (env : Env) (calls : list Event) : list Event :=
  if deadlineExceeded env && deadlineBeforeRelay env
  then List.filter (fun e => negb (isRelay e)) calls
  else calls.

Definition callsLate (env : Env) (calls : list Event) : list Event :=
  if deadlineExceeded env && deadlineBeforeRelay env
  then List.filter isRelay calls
  else [].

(** What a call of [execute] leaves: the cache operations and the network
    calls made while its loop runs, in order; the calls that executions
    abandoned at their deadline make after the deletion of their key, at
    moments the model does not place among the others; the cache; and how
    the method ends. *)
Record Run := {
  trace : list Event;
  late : list Event;
  cache : InFlight.t;
  outcome : Result unit;
}.

(** [execute(trades, inFlight)]: the [i]-th loop iteration runs in the
    environment [world i]. [inFlight.set] stands before the [try]: when it
    throws, [execute] throws and the rest of the list is not looked at. No
    tick of another block stream is interleaved at the awaits. *)
Fixpoint execute (cfg : Config) (world : nat -> Env) (i : nat)
    (trades : list Trade) (inFlight : InFlight.t) : Run :=
  match trades with
  | [] => {| trace := []; late := []; cache := inFlight; outcome := Ok tt |}
  | trade :: rest =>
      let env := world i in
      let key := Trade.requestId trade in
      if InFlight.has inFlight (now env) key
      then execute cfg world (S i) rest inFlight
      else
        let inFlight0 := InFlight.checked inFlight (now env) key in
        match InFlight.set inFlight0 (now env) key 30 with
        | Err msg =>
            {| trace := []; late := []; cache := inFlight0; outcome := Err msg |}
        | Ok inFlight1 =>
            match executeTrade cfg env trade with
            | (calls, Ok _) =>
                let run := execute cfg world (S i) rest inFlight1 in
                {| trace := CacheSet key 30 :: calls ++ trace run;
                   late := late run;
                   cache := cache run;
                   outcome := outcome run |}
            | (calls, Err _) =>
                let inFlight2 := InFlight.del inFlight1 key in
                let run := execute cfg world (S i) rest inFlight2 in
                {| trace := CacheSet key 30
                              :: callsInTime env calls ++ CacheDel key :: trace run;
                   late := callsLate env calls ++ late run;
                   cache := cache run;
                   outcome := outcome run |}
            end
        end
  end.

End TradeExecutor.

(* ===================================================================== *)
(** ** Vocabulary of the properties *)
(* ===================================================================== *)

(** A trade is for chain [D] and token [t] when its destination chain id
    normalizes to [D] and its [tokenOutAddr] is [t]. *)
Definition tradeFor (D : Z) (t : string) (tr : Trade) : bool :=
  bool_decide (normalizeChainId (Trade.destChainId tr) = D)
  && bool_decide (Trade.tokenOutAddr tr = t).

(** The sum of [swapAmount] over the trades for chain [D] and token [t]. *)
Fixpoint committed (D : Z) (t : string) (trades : list Trade) : Z :=
  match trades with
  | [] => 0
  | tr :: rest =>
      (if tradeFor D t tr then Trade.swapAmount tr else 0) + committed D t rest
  end.

(** The balance of token [t] that the table [states] shows for chain [D]. *)
Definition balanceOf (states : States) (h : Heap) (D : Z) (t : string) : option Z :=
  st ← states !! D; mapGet h (tokenBalances st) t.

(** Amounts read from the chain are unsigned. *)
Definition unsignedAmounts (ts : list Transfer) : Prop :=
  Forall (fun tf => 0 <= amountOut (params tf)) ts.

(** What [solve] has checked when it emits a trade. *)
Record Emits (transfer : Transfer) (states : States) (h : Heap)
    (destState : ChainState) (tokenBalance : Z) : Prop := {
  emits_dest : states !! normalizeChainId (dstChainId (params transfer)) = Some destState;
  emits_open : executed (params transfer) = false;
  emits_unfulfilled : isFulfilled destState (requestId transfer) = false;
  emits_native : nativeBalance destState ≠ 0;
  emits_balance :
    mapGet h (tokenBalances destState) (toLowerCase (tokenOut (params transfer)))
    = Some tokenBalance;
  emits_nonzero : tokenBalance ≠ 0;
  emits_covered : amountOut (params transfer) <= tokenBalance;
  emits_fee : 1 <= solverFee (params transfer);
}.

(** The gas price table as the specification words it, in wei:
    20 gwei on Ethereum (1), 30 gwei on Polygon (137), 0.1 gwei on Arbitrum
    (42161), 0.001 gwei on Optimism (10), 20 gwei on any other chain. *)
Definition gwei : Z := 1000000000.
Definition gasPrice (chainId : Z) : Z :=
  if chainId =? 1 then 20 * gwei
  else if chainId =? 137 then 30 * gwei
  else if chainId =? 42161 then gwei / 10
  else if chainId =? 10 then gwei / 1000
  else 20 * gwei.

(** A gas price cache as the estimator builds it: it starts empty and is
    written by [getGasPrice] only, so every entry holds the default price
    of its chain. *)
Definition fromDefaults (cache : GasPriceEstimator.Cache) : Prop :=
  ∀ chainId cachedGasPrice timestamp,
    cache !! chainId = Some (cachedGasPrice, timestamp) →
    cachedGasPrice = default 20000000000 (GasPriceEstimator.defaultGasPrices chainId).

(** The arguments [relayTokens] is called with when the executor works from
    the seven values [a]: every address in lower case. *)
Definition relayArgsOf (cfg : TradeExecutor.Config) (rid : string)
    (tokenIn tokenOut sender recipient : string) (amountOut srcChainId nonce : Z)
  : RelayTokens.Args :=
  {| RelayTokens.solver := toLowerCase (TradeExecutor.ownAddress cfg);
     RelayTokens.requestId := toRequestId rid;
     RelayTokens.sender := toLowerCase sender;
     RelayTokens.recipient := toLowerCase recipient;
     RelayTokens.tokenIn := toLowerCase tokenIn;
     RelayTokens.tokenOut := toLowerCase tokenOut;
     RelayTokens.amountOut := amountOut;
     RelayTokens.srcChainId := srcChainId;
     RelayTokens.nonce := nonce |}.

(** The five address arguments of a relay call are in lower case. *)
Definition addressesLowerCased (args : RelayTokens.Args) : Prop :=
  toLowerCase (RelayTokens.solver args) = RelayTokens.solver args
  ∧ toLowerCase (RelayTokens.sender args) = RelayTokens.sender args
  ∧ toLowerCase (RelayTokens.recipient args) = RelayTokens.recipient args
  ∧ toLowerCase (RelayTokens.tokenIn args) = RelayTokens.tokenIn args
  ∧ toLowerCase (RelayTokens.tokenOut args) = RelayTokens.tokenOut args.

(** The relay calls of a trace, in order: the chain and the arguments. *)
Definition relayCalls (trace : list TradeExecutor.Event) : list (Z * RelayTokens.Args) :=
  omap (fun e => match e with
                 | TradeExecutor.CallRelayTokens chain args => Some (chain, args)
                 | _ => None
                 end) trace.


(* ===================================================================== *)
(** ** A two-chain scenario *)
(* ===================================================================== *)

(** Chain 31337 lists swap requests whose destination is chain 31338; the
    solver holds 5e18 of the token on 31338. *)
Module Scenario.

Definition token : string := "0x5fbdb2315678afecb367f032d93f642f64180aa3".
Definition tokenAsListed : string := "0x5FbDB2315678afecb367f032d93F642f64180aa3".
Definition user : string := "0xf39Fd6e51aad88F6F4ce6aB8827279cffFb92266".
Definition router : string := "0xe7f1725E7734CE288F8367e1Bb143E90bb3F0512".
Definition own : string := "0x70997970C51812dc3A010C7d01b50e0d17dc79C8".

Definition requestA : string := Eval vm_compute in toRequestId "0xab01".
Definition requestB : string := Eval vm_compute in toRequestId "0xab02".

Definition request (rid : string) (amount fee : Z) : Transfer :=
  {| requestId := rid;
     params := {| srcChainId := 31337; dstChainId := 31338;
                  sender := user; recipient := user;
                  tokenIn := tokenAsListed; tokenOut := tokenAsListed;
                  amountOut := amount; verificationFee := 0; solverFee := fee;
                  nonce := 1; executed := false; requestedAt := 1700000000 |};
     conditions := [] |}.

Definition fee : Z := 10000000000000000.
Definition e18 : Z := 1000000000000000000.

Definition chainStateOf (l : loc) (ts : list Transfer) : ChainState :=
  {| nativeBalance := e18; tokenBalances := l;
     transfers := ts; alreadyFulfilled := [] |}.

(** The state of chain 31338: it lists no transfer. *)
Definition destination : ChainState := chainStateOf 2%positive [].

(** The table [this.states] with the transfers [ts] on chain 31337. *)
Definition statesWith (ts : list Transfer) : States :=
  {[ 31337 := chainStateOf 1%positive ts; 31338 := destination ]}.

(** The balances: nothing on 31337, [balance] of the token on 31338. *)
Definition heapWith (balance : Z) : Heap :=
  {[ 1%positive := {[ token := 0 ]}; 2%positive := {[ token := balance ]} ]}.

(** Two requests, of 4e18 and 3e18, against a balance of 5e18. *)
Definition twoRequests : list Transfer :=
  [ request requestA (4 * e18) fee; request requestB (3 * e18) fee ].
Definition states : States := statesWith twoRequests.
Definition heap : Heap := heapWith (5 * e18).
Definition tradeA : Trade := toTrade (request requestA (4 * e18) fee).

(** A request for the whole balance, followed by one more. *)
Definition wholeBalance : Transfer := request requestA (5 * e18) fee.
Definition oneMore : list Transfer := [request requestB e18 fee].
Definition statesWhole : States := statesWith (wholeBalance :: oneMore).

(** One request of 1e18. *)
Definition single : Transfer := request requestA e18 fee.

(** A request for an amount of 0. *)
Definition zeroAmount : Transfer := request requestA 0 fee.
Definition statesZero : States := statesWith [zeroAmount].

(** What the client of chain 31337 answers on every tick. *)
Definition chains : Chains :=
  {[ 31337 := Some {| snapNativeBalance := e18;
                      snapTokenBalances := {[ token := 0 ]};
                      snapTransfers := twoRequests;
                      snapAlreadyFulfilled := [] |} ]}.

(** No transfer of the scenario has conditions. *)
Definition noConditions : list Condition -> Transfer -> States -> Heap -> bool :=
  fun _ _ _ _ => true.

Definition executor : TradeExecutor.Config :=
  {| TradeExecutor.ownAddress := own;
     TradeExecutor.routers := {[ 31338 := router ]};
     TradeExecutor.tokens := {[ 31338 := [tokenAsListed] ]} |}.

(** The router of 31338 holds the verified record of the request. *)
Definition storedRecord : SwapRequestParameters :=
  {| srcChainId := 31337; dstChainId := 31338;
     sender := user; recipient := user;
     tokenIn := tokenAsListed; tokenOut := tokenAsListed;
     amountOut := 4 * e18; verificationFee := 0; solverFee := fee;
     nonce := 1; executed := false; requestedAt := 1700000000 |}.

(** An iteration in which the query, the approval and the relay succeed. *)
Definition calm : TradeExecutor.Env :=
  {| TradeExecutor.now := 1000;
     TradeExecutor.getSwapRequestParameters := Some storedRecord;
     TradeExecutor.approve := TradeExecutor.TxSuccess;
     TradeExecutor.relayTokens := TradeExecutor.TxSuccess;
     TradeExecutor.deadlineExceeded := false;
     TradeExecutor.deadlineBeforeRelay := false |}.

(** An iteration in which the router has no record and the relay reverts. *)
Definition reverting : TradeExecutor.Env :=
  {| TradeExecutor.now := 1000;
     TradeExecutor.getSwapRequestParameters := None;
     TradeExecutor.approve := TradeExecutor.TxSuccess;
     TradeExecutor.relayTokens := TradeExecutor.TxReverted;
     TradeExecutor.deadlineExceeded := false;
     TradeExecutor.deadlineBeforeRelay := false |}.

(** An iteration in which the approval takes more than the 10 s of the
    timer and succeeds in the end. *)
Definition slow : TradeExecutor.Env :=
  {| TradeExecutor.now := 1000;
     TradeExecutor.getSwapRequestParameters := Some storedRecord;
     TradeExecutor.approve := TradeExecutor.TxSuccess;
     TradeExecutor.relayTokens := TradeExecutor.TxSuccess;
     TradeExecutor.deadlineExceeded := true;
     TradeExecutor.deadlineBeforeRelay := true |}.

Definition calmWorld : nat -> TradeExecutor.Env := fun _ => calm.
Definition revertingWorld : nat -> TradeExecutor.Env := fun _ => reverting.
Definition slowWorld : nat -> TradeExecutor.Env := fun _ => slow.

(** The second request of the scenario as a trade. *)
Definition tradeB : Trade := toTrade (request requestB (3 * e18) fee).

(** The ids of a thousand other requests, and a cache that stores them all,
    none of them expired before the instant 30000. *)
Definition digitChar (n : nat) : ascii := ascii_of_nat (48 + n mod 10).
Definition otherRequest (n : nat) : string :=
  toRequestId (String (digitChar (n / 100))
                 (String (digitChar (n / 10)) (String (digitChar n) EmptyString))).
Definition fullCache : InFlight.t :=
  foldr (fun n c => <[otherRequest n := 30000]> c) ∅ (seq 0 1000).



End Scenario.

(* ===================================================================== *)
(** ** More of the solver loop *)
(* ===================================================================== *)

(** [Solver.from(chains)]: the loop over the entries of the [chains] table,
    in the order the table lists them, filling [solver.states]; a client
    that throws makes [from] throw. *)
Fixpoint solverFromLoop (entries : list (Z * option Snapshot))
    (states : States) (h : Heap) : Result (States * Heap) :=
  match entries with
  | [] => Ok (states, h)
  | (chainId, chain) :: rest =>
      match chain with
      | None => Err "fetchState failed"
      | Some snap =>
          let '(state, h1) := newChainState snap h in
          solverFromLoop rest (<[chainId := state]> states) h1
      end
  end.

(** [Solver.from(chains)] starts from [new Map()]. *)
Definition solverFrom (entries : list (Z * option Snapshot)) (h : Heap)
  : Result (States * Heap) :=
  solverFromLoop entries ∅ h.

Module Network.

(** The callback [blockHandler(blockNumber)] of [subscribeBlocks], on the
    variable [lastBlockNumber]: the block numbers it pushes on the queue, in
    order, and the new value of the variable. The generator yields the
    queue first in, first out. *)
Definition blockHandler (lastBlockNumber : option Z) (blockNumber : Z)
  : list Z * option Z :=
  let last :=
    match lastBlockNumber with
    | None => blockNumber - 1
    | Some l => l
    end in
  (* [for (let i = lastBlockNumber + 1; i <= blockNumber; i++) push(i)] *)
  (seqZ (last + 1) (blockNumber - last), Some blockNumber).

(** The handler called for each delivered block number in turn, from the
    push subscription or from the poll. *)
Fixpoint deliver (lastBlockNumber : option Z) (deliveries : list Z)
  : list Z * option Z :=
  match deliveries with
  | [] => ([], lastBlockNumber)
  | blockNumber :: rest =>
      let '(pushed, last') := blockHandler lastBlockNumber blockNumber in
      let '(later, final) := deliver last' rest in
      (pushed ++ later, final)
  end.

(** The deliveries never go back: each block number is at least the one
    delivered before it, the first at least [last]. *)
Fixpoint inOrder (last : Z) (deliveries : list Z) : Prop :=
  match deliveries with
  | [] => True
  | blockNumber :: rest => last <= blockNumber ∧ inOrder blockNumber rest
  end.

End Network.

Module App.

(** What the [inFlight.has] calls of [Solver.calculateTrades] leave of the
    cache: there is one for each unfulfilled transfer of the chain. *)
Definition checkedByEvaluator (states : States) (chainId : Z)
    (inFlight : InFlight.t) (now : Z) : InFlight.t :=
  match states !! chainId with
  | None => inFlight
  | Some chainState =>
      InFlight.checkedAll inFlight now
        (requestId <$> List.filter (keepUnfulfilled states) (transfers chainState))
  end.

(** The body of the loop of [App.mergeAndProcessBlocks] for one block
    event: fetch and evaluate, execute when there are trades; an error of
    [fetchState] or of [execute] is caught and logged. It answers the table
    [solver.states], the in-flight cache and the heap after the tick, and
    the cache operations and network calls of the executor: those of its
    loop, followed by those that abandoned executions make later. The
    streams of the chains run concurrently; this is the tick of one block
    event with no tick of another stream interleaved at the awaits of the
    executor. *)
Definition processBlock (chains : Chains) (cfg : TradeExecutor.Config)
    (world : nat -> TradeExecutor.Env) (this_states : States)
    (inFlight : InFlight.t) (h : Heap) (chainId : Z) (now : Z)
  : States * InFlight.t * Heap * list TradeExecutor.Event :=
  match Solver.fetchState chains this_states chainId inFlight now h with
  | (Ok trades, states', h') =>
      let inFlight0 := checkedByEvaluator states' chainId inFlight now in
      if (0 <? length trades)%nat then
        let run := TradeExecutor.execute cfg world 0 trades inFlight0 in
        (states', TradeExecutor.cache run, h',
         TradeExecutor.trace run ++ TradeExecutor.late run)
      else (states', inFlight0, h', [])
  | (Err _, states', h') => (states', inFlight, h', [])
  end.

End App.

(** The strings on which [toLowerCase] of the model is that of JavaScript:
    every character is an ASCII character. *)
Fixpoint asciiOnly (s : string) : bool :=
  match s with
  | EmptyString => true
  | String c s' => (nat_of_ascii c <? 128)%nat && asciiOnly s'
  end.

(** A trade draws on the balance of token [k] in the map [l] when the state
    of its destination chain holds [l] and its [tokenOutAddr] is [k]. *)
Definition drawsOn (states : States) (l : loc) (k : string) (tr : Trade) : bool :=
  match states !! normalizeChainId (Trade.destChainId tr) with
  | Some destState =>
      bool_decide (tokenBalances destState = l) && bool_decide (Trade.tokenOutAddr tr = k)
  | None => false
  end.

(** What the trades take from the balance of token [k] in the map [l]. *)
Fixpoint debited (states : States) (l : loc) (k : string) (trades : list Trade) : Z :=
  match trades with
  | [] => 0
  | tr :: rest =>
      (if drawsOn states l k tr then Trade.swapAmount tr else 0) + debited states l k rest
  end.

(** The state store is well formed: every chain state holds an allocated
    map, and no two chains hold the same map. *)
Definition wfStore (states : States) (h : Heap) : Prop :=
  (∀ c st, states !! c = Some st → tokenBalances st ∈ dom h)
  ∧ (∀ c1 c2 st1 st2,
       states !! c1 = Some st1 → states !! c2 = Some st2 →
       tokenBalances st1 = tokenBalances st2 → c1 = c2).

(** What [solve] of the simple evaluator has checked of a transfer, heap
    apart. *)
Definition passesChecks (states : States) (inFlight : InFlight.t) (now : Z)
    (minFee : Z) (transfer : Transfer) : Prop :=
  InFlight.has inFlight now (requestId transfer) = false
  ∧ executed (params transfer) = false
  ∧ minFee <= solverFee (params transfer)
  ∧ ∃ destState,
      states !! normalizeChainId (dstChainId (params transfer)) = Some destState
      ∧ isFulfilled destState (requestId transfer) = false
      ∧ nativeBalance destState ≠ 0.

(** At least two of three warning signs. *)
Definition atLeastTwo (a b c : bool) : bool := (a && b) || (a && c) || (b && c).

(** The three warning signs the risk manager weighs for a candidate: a
    liquidity ratio below 1.1, where the ratio is the quotient of the token
    balance and the amount after both are converted to doubles
    ([Number(tokenBalance) / Number(requiredAmount) < 1.1]: the test of
    the code, not the exact comparison of the balance with 1.1 times the
    amount); a native balance under 0.1 ETH; a zero address as sender or
    recipient. *)
Definition thinLiquidity (tokenBalance requiredAmount : Z) : bool :=
  PrimFloat.ltb (PrimFloat.div (Number tokenBalance) (Number requiredAmount)) 1.1%float.
Definition lowGas (destState : ChainState) : bool :=
  nativeBalance destState <? 100000000000000000.
Definition zeroParty (transfer : Transfer) : bool :=
  bool_decide (toLowerCase (sender (params transfer)) = RiskManager.zeroAddress)
  || bool_decide (toLowerCase (recipient (params transfer)) = RiskManager.zeroAddress).

(* ===================================================================== *)
(** ** More of the two-chain scenario *)
(* ===================================================================== *)

Module Example.

(** What the client of chain 31337 answers in [Scenario.chains]. *)
Definition answer : Snapshot :=
  {| snapNativeBalance := Scenario.e18;
     snapTokenBalances := {[ Scenario.token := 0 ]};
     snapTransfers := Scenario.twoRequests;
     snapAlreadyFulfilled := [] |}.

(** What the client of chain 31338 answers at start-up. *)
Definition answer38 : Snapshot :=
  {| snapNativeBalance := Scenario.e18;
     snapTokenBalances := {[ Scenario.token := 5 * Scenario.e18 ]};
     snapTransfers := [];
     snapAlreadyFulfilled := [] |}.

(** The entries of the table [chains] at start-up. *)
Definition entries : list (Z * option Snapshot) :=
  [ (31337, Some answer); (31338, Some answer38) ].

(** The two requests of the scenario and the trade of the second. *)
Definition requestOfA : Transfer :=
  Scenario.request Scenario.requestA (4 * Scenario.e18) Scenario.fee.
Definition requestOfB : Transfer :=
  Scenario.request Scenario.requestB (3 * Scenario.e18) Scenario.fee.
Definition tradeB : Trade := toTrade requestOfB.

(** The arguments of the relay call for the first request. *)
Definition relayed : RelayTokens.Args :=
  relayArgsOf Scenario.executor Scenario.requestA
    Scenario.tokenAsListed Scenario.tokenAsListed Scenario.user Scenario.user
    (4 * Scenario.e18) 31337 1.

(** Chain 31338 with a native balance of 0.01 ETH, and a token balance one
    unit short of 1.1 times the amount of the request [Scenario.single]. *)
Definition lowGasStates : States :=
  {[ 31337 := Scenario.chainStateOf 1%positive [Scenario.single];
     31338 := {| nativeBalance := 10000000000000000; tokenBalances := 2%positive;
                 transfers := []; alreadyFulfilled := [] |} ]}.
Definition shortHeap : Heap := Scenario.heapWith (1100000000000000000 - 1).

(** Chain 31337 delivers block 11 twice, then block 14, after block 10. *)
Definition deliveries : list Z := [11; 11; 14].

End Example.

(* ===================================================================== *)
(** ** Strings and the heap *)
(* ===================================================================== *)

Lemma lowerAscii_idemp c : lowerAscii (lowerAscii c) = lowerAscii c.
Proof. destruct c as [[] [] [] [] [] [] [] []]; reflexivity. Qed.

Lemma toLowerCase_idemp s : toLowerCase (toLowerCase s) = toLowerCase s.
Proof.
  induction s as [|c s IH]; simpl; [reflexivity|].
  by rewrite lowerAscii_idemp, IH.
Qed.

Lemma pair_eta {A B} (x : A * B) (a : A) : x.1 = a → x = (a, x.2).
Proof. destruct x. simpl. congruence. Qed.

Lemma triple_eta {A B C} (x : A * B * C) (a : A) : x.1.1 = a → x = (a, x.1.2, x.2).
Proof. destruct x as [[? ?] ?]. simpl. congruence. Qed.

Lemma mapGet_mapSet h l k v l' k' :
  mapGet (mapSet h l k v) l' k' =
  if decide (l = l' ∧ k = k') then Some v else mapGet h l' k'.
Proof.
  unfold mapGet, mapSet, deref.
  destruct (decide (l = l')) as [->|Hl].
  - rewrite lookup_insert_eq. simpl.
    destruct (decide (k = k')) as [->|Hk].
    + rewrite lookup_insert_eq. by rewrite decide_True.
    + rewrite lookup_insert_ne by done. rewrite decide_False by (intros [? ?]; congruence). done.
  - rewrite lookup_insert_ne by done. rewrite decide_False by (intros [? ?]; congruence). done.
Qed.

Lemma mapGet_mapSet_eq h l k v : mapGet (mapSet h l k v) l k = Some v.
Proof. rewrite mapGet_mapSet. by rewrite decide_True. Qed.

Lemma mapGet_mapSet_ne h l k v l' k' :
  ¬ (l = l' ∧ k = k') → mapGet (mapSet h l k v) l' k' = mapGet h l' k'.
Proof. intros. rewrite mapGet_mapSet. by rewrite decide_False. Qed.

(* ===================================================================== *)
(** ** The simple evaluator, step by step *)
(* ===================================================================== *)

Lemma solve_Some transfer states h trade h' :
  Solver.solve transfer states h = (Some trade, h') →
  ∃ destState tokenBalance,
    Emits transfer states h destState tokenBalance
    ∧ trade = toTrade transfer
    ∧ h' = mapSet h (tokenBalances destState)
                  (toLowerCase (tokenOut (params transfer)))
                  (tokenBalance - amountOut (params transfer)).
Proof.
  unfold Solver.solve.
  destruct (states !! _) as [destState|] eqn:Hd; [|discriminate].
  destruct (executed _) eqn:He; [discriminate|].
  destruct (isFulfilled _ _) eqn:Hf; [discriminate|].
  destruct (nativeBalance destState =? 0) eqn:Hn; [discriminate|].
  destruct (mapGet _ _ _) as [tokenBalance|] eqn:Hb; [|discriminate].
  destruct (_ || _) eqn:Hlow; [discriminate|].
  destruct (solverFee _ <? 1) eqn:Hfee; [discriminate|].
  intros [= <- <-]. apply orb_false_iff in Hlow as [H0 Hlt].
  exists destState, tokenBalance. split; [|done].
  split; try done; lia.
Qed.

Lemma solve_Emits transfer states h destState tokenBalance :
  Emits transfer states h destState tokenBalance →
  Solver.solve transfer states h =
    (Some (toTrade transfer),
     mapSet h (tokenBalances destState) (toLowerCase (tokenOut (params transfer)))
            (tokenBalance - amountOut (params transfer))).
Proof.
  intros [Hd He Hf Hn Hb H0 Hc Hfee]. unfold Solver.solve.
  rewrite Hd, He, Hf, Hb.
  replace (nativeBalance destState =? 0) with false by (symmetry; lia).
  replace (tokenBalance =? 0) with false by (symmetry; lia).
  replace (tokenBalance <? _) with false by (symmetry; lia).
  replace (solverFee _ <? 1) with false by (symmetry; lia).
  done.
Qed.

Lemma solve_None transfer states h h' :
  Solver.solve transfer states h = (None, h') → h' = h.
Proof.
  unfold Solver.solve. repeat case_match; by intros [= <-].
Qed.

Lemma tradeFor_toTrade D t transfer :
  tradeFor D t (toTrade transfer) = true →
  normalizeChainId (dstChainId (params transfer)) = D
  ∧ toLowerCase (tokenOut (params transfer)) = t.
Proof.
  unfold tradeFor. simpl. intros [H1 H2]%andb_true_iff.
  by apply bool_decide_eq_true in H1, H2.
Qed.

(** The loop invariant of the inventory commit: what the trades emitted for
    one token of one chain take, plus what is left of the balance, never
    exceeds the balance the loop started from; the balance stays unsigned. *)
Lemma evaluate_committed states inFlight now D st t ts :
  states !! D = Some st →
  unsignedAmounts ts →
  ∀ h trades h' b,
    Solver.evaluate states inFlight now ts h = (trades, h') →
    mapGet h (tokenBalances st) t = Some b → 0 <= b →
    ∃ b', mapGet h' (tokenBalances st) t = Some b'
          ∧ 0 <= b' ∧ committed D t trades + b' <= b.
Proof.
  intros HD. induction 1 as [|transfer ts Hamt Hts IH]; intros h trades h' b; simpl.
  - intros [= <- <-] Hb Hpos. exists b. simpl. repeat split; [done|lia..].
  - destruct (InFlight.has _ _ _); [by apply IH|].
    destruct (Solver.solve transfer states h) as [[trade|] h1] eqn:Hs.
    + destruct (Solver.evaluate states inFlight now ts h1) as [trades1 h2] eqn:Hev.
      intros [= <- <-] Hb Hpos.
      apply solve_Some in Hs as (destState & tokenBalance & Hem & -> & ->).
      destruct Hem as [Hd _ _ _ Hbal _ Hcov _].
      set (key := toLowerCase (tokenOut (params transfer))) in *.
      destruct (decide (tokenBalances destState = tokenBalances st ∧ key = t))
        as [[Hl Hk]|Hne].
      * (* the debit hits the balance we follow *)
        rewrite Hl, Hk in Hbal. rewrite Hbal in Hb. injection Hb as ->.
        destruct (IH _ _ _ (b - amountOut (params transfer)) Hev) as (b' & Hb' & Hpos' & Hle).
        { rewrite Hl, Hk. apply mapGet_mapSet_eq. }
        { lia. }
        exists b'. repeat split; [done..|]. simpl.
        destruct (tradeFor D t (toTrade transfer)); simpl in *; lia.
      * (* the debit is elsewhere, and so is the trade *)
        destruct (IH _ _ _ b Hev) as (b' & Hb' & Hpos' & Hle).
        { rewrite mapGet_mapSet_ne by done. done. }
        { done. }
        exists b'. repeat split; [done..|]. simpl.
        destruct (tradeFor D t (toTrade transfer)) eqn:Hfor; [|lia].
        apply tradeFor_toTrade in Hfor as [HD' Ht'].
        rewrite HD' in Hd. rewrite HD in Hd. injection Hd as <-.
        exfalso. apply Hne. done.
    + apply solve_None in Hs as ->. by apply IH.
Qed.

(* ===================================================================== *)
(** ** Emitted trades come from the transfers *)
(* ===================================================================== *)

Lemma submseteq_NoDup {A} (l k : list A) : l ⊆+ k → NoDup k → NoDup l.
Proof.
  intros [k' Hk]%submseteq_Permutation Hnd.
  rewrite Hk in Hnd. by apply NoDup_app in Hnd as [? _].
Qed.

Lemma submseteq_Forall {A} (P : A → Prop) (l k : list A) :
  l ⊆+ k → Forall P k → Forall P l.
Proof.
  intros [k' Hk]%submseteq_Permutation HP.
  rewrite Hk in HP. by apply Forall_app in HP as [? _].
Qed.

Lemma filter_submseteq {A} (f : A → bool) (l : list A) : List.filter f l ⊆+ l.
Proof.
  induction l as [|x l IH]; simpl; [done|].
  destruct (f x); [by apply submseteq_skip | by apply submseteq_cons].
Qed.

Lemma evaluate_submseteq states inFlight now ts :
  ∀ h, (Solver.evaluate states inFlight now ts h).1 ⊆+ toTrade <$> ts.
Proof.
  induction ts as [|transfer ts IH]; intros h; simpl; [done|].
  destruct (InFlight.has _ _ _); [by apply submseteq_cons|].
  destruct (Solver.solve transfer states h) as [[trade|] h1] eqn:Hs.
  - apply solve_Some in Hs as (? & ? & _ & -> & _).
    specialize (IH h1). destruct (Solver.evaluate _ _ _ ts h1). simpl in *.
    by apply submseteq_skip.
  - by apply submseteq_cons.
Qed.

Lemma solveV2_Some transfer states h trade :
  SolverV2.solve transfer states h = Some trade → trade = toTrade transfer.
Proof. unfold SolverV2.solve. repeat case_match; congruence. Qed.

Lemma insertByScore_Permutation x l : SolverV2.insertByScore x l ≡ₚ x :: l.
Proof.
  induction l as [|y l IH]; simpl; [done|].
  destruct (PrimFloat.ltb _ _); [done|].
  rewrite IH. apply Permutation_swap.
Qed.

Lemma sortByScore_Permutation l : SolverV2.sortByScore l ≡ₚ l.
Proof.
  unfold SolverV2.sortByScore.
  enough (∀ acc, fold_left (λ acc x, SolverV2.insertByScore x acc) l acc ≡ₚ acc ++ l) as H
    by apply (H []).
  induction l as [|x l IH]; intros acc; simpl.
  - by rewrite app_nil_r.
  - rewrite IH, insertByScore_Permutation. simpl. apply Permutation_middle.
Qed.

Lemma commit_submseteq states cands :
  ∀ h, (SolverV2.commit states cands h).1 ⊆+ SolverV2.trade <$> cands.
Proof.
  induction cands as [|c cands IH]; intros h; simpl; [done|].
  destruct (states !! _) as [destState|]; [|by apply submseteq_cons].
  destruct (_ <=? _); [|by apply submseteq_cons].
  match goal with |- context [SolverV2.commit states cands ?h1] => specialize (IH h1);
    destruct (SolverV2.commit states cands h1) end.
  simpl in *. by apply submseteq_skip.
Qed.

Section CollectFacts.
Variable evaluateConditions : list Condition -> Transfer -> States -> Heap -> bool.

Lemma collect_submseteq states inFlight now ts h :
  ∀ gas, SolverV2.trade <$> (SolverV2.collect evaluateConditions states inFlight now ts h gas).1
         ⊆+ toTrade <$> ts.
Proof.
  induction ts as [|transfer ts IH]; intros gas; simpl; [done|].
  destruct (InFlight.has _ _ _); [by apply submseteq_cons|].
  destruct (_ && _); [by apply submseteq_cons|].
  destruct (SolverV2.solve transfer states h) as [trade|] eqn:Hs;
    [|by apply submseteq_cons].
  apply solveV2_Some in Hs as ->.
  destruct (ProfitOptimizer.calculateProfitScore _ _ _ _) as [profitScore gas1].
  destruct (PrimFloat.ltb _ _); [|by apply submseteq_cons].
  specialize (IH gas1). destruct (SolverV2.collect _ _ _ _ ts h gas1). simpl in *.
  by apply submseteq_skip.
Qed.

(** The trades of a scored tick are, up to order, among the trades of the
    chain's transfers. *)
Lemma calculateTradesV2_submseteq this_states chainId inFlight now h gas
    chainState trades h' gas' :
  this_states !! chainId = Some chainState →
  SolverV2.calculateTrades evaluateConditions this_states chainId inFlight now h gas
    = (Ok trades, h', gas') →
  trades ⊆+ toTrade <$> transfers chainState.
Proof.
  intros Hc. unfold SolverV2.calculateTrades. rewrite Hc.
  pose proof (collect_submseteq this_states inFlight now
                (List.filter (keepUnfulfilled this_states) (transfers chainState)) h gas) as Hcol.
  destruct (SolverV2.collect _ _ _ _ _ _ _) as [potentialTrades gas1]. simpl in Hcol.
  pose proof (commit_submseteq this_states (SolverV2.sortByScore potentialTrades) h) as Hcom.
  destruct (SolverV2.commit _ _ _) as [finalTrades h1]. simpl in Hcom.
  intros [= <- <- <-].
  etrans; [exact Hcom|].
  etrans; [apply fmap_submseteq, Permutation_submseteq, sortByScore_Permutation|].
  etrans; [exact Hcol|].
  apply fmap_submseteq, filter_submseteq.
Qed.
End CollectFacts.

Lemma calculateTrades_submseteq this_states chainId inFlight now h chainState trades h' :
  this_states !! chainId = Some chainState →
  Solver.calculateTrades this_states chainId inFlight now h = (Ok trades, h') →
  trades ⊆+ toTrade <$> transfers chainState.
Proof.
  intros Hc. unfold Solver.calculateTrades. rewrite Hc.
  pose proof (evaluate_submseteq this_states inFlight now
                (List.filter (keepUnfulfilled this_states) (transfers chainState)) h) as Hev.
  destruct (Solver.evaluate _ _ _ _ _) as [trades1 h1]. simpl in Hev.
  intros [= <- <-]. etrans; [exact Hev|]. apply fmap_submseteq, filter_submseteq.
Qed.

(** The same invariant for the commit pass of the scored evaluator. *)
Lemma commit_committed states D st t cands :
  states !! D = Some st →
  Forall (λ c, 0 <= Trade.swapAmount (SolverV2.trade c)) cands →
  ∀ h trades h' b,
    SolverV2.commit states cands h = (trades, h') →
    mapGet h (tokenBalances st) t = Some b → 0 <= b →
    ∃ b', mapGet h' (tokenBalances st) t = Some b'
          ∧ 0 <= b' ∧ committed D t trades + b' <= b.
Proof.
  intros HD. induction 1 as [|c cands Hamt Hcs IH]; intros h trades h' b; simpl.
  - intros [= <- <-] Hb Hpos. exists b. simpl. repeat split; [done|lia..].
  - destruct (states !! normalizeChainId _) as [destState|] eqn:Hd; [|by apply IH].
    set (key := Trade.tokenOutAddr (SolverV2.trade c)) in *.
    set (amount := Trade.swapAmount (SolverV2.trade c)) in *.
    destruct (amount <=? _) eqn:Hcov; [|by apply IH].
    apply Z.leb_le in Hcov.
    match goal with |- context [SolverV2.commit states cands ?h1] =>
      destruct (SolverV2.commit states cands h1) as [trades1 h2] eqn:Hev end.
    intros [= <- <-] Hb Hpos.
    destruct (decide (tokenBalances destState = tokenBalances st ∧ key = t))
      as [[Hl Hk]|Hne].
    + rewrite Hl, Hk, Hb in Hcov, Hev. simpl in Hcov, Hev.
      destruct (IH _ _ _ (b - amount) Hev) as (b' & Hb' & Hpos' & Hle).
      { apply mapGet_mapSet_eq. }
      { lia. }
      exists b'. repeat split; [done..|]. simpl. fold amount.
      destruct (tradeFor D t (SolverV2.trade c)); lia.
    + destruct (IH _ _ _ b Hev) as (b' & Hb' & Hpos' & Hle).
      { rewrite mapGet_mapSet_ne by done. done. }
      { done. }
      exists b'. repeat split; [done..|]. simpl.
      destruct (tradeFor D t (SolverV2.trade c)) eqn:Hfor; [|lia].
      unfold tradeFor in Hfor. apply andb_true_iff in Hfor as [HD' Ht'].
      apply bool_decide_eq_true in HD', Ht'.
      rewrite HD', HD in Hd. injection Hd as <-.
      exfalso. apply Hne. done.
Qed.

(* ===================================================================== *)
(** ** Inventory commit *)
(* ===================================================================== *)

(** C2. Within one tick, for every destination chain [D] and token [t], the
    sum of [swapAmount] over the emitted trades for [D] and [t] is at most
    the balance of [t] that the state of [D] showed when the tick started.
    This holds for the simple evaluator and for the scored evaluator, whose
    commit pass is its only debit. Amounts and balances are unsigned, as
    read from the chain. *)
Theorem committed_within_balance :
  (∀ this_states chainId inFlight now h chainState trades h' D t b,
     this_states !! chainId = Some chainState →
     unsignedAmounts (transfers chainState) →
     Solver.calculateTrades this_states chainId inFlight now h = (Ok trades, h') →
     balanceOf this_states h D t = Some b → 0 <= b →
     committed D t trades <= b)
  ∧
  (∀ evaluateConditions this_states chainId inFlight now h gas chainState
     trades h' gas' D t b,
     this_states !! chainId = Some chainState →
     unsignedAmounts (transfers chainState) →
     SolverV2.calculateTrades evaluateConditions this_states chainId inFlight now h gas
       = (Ok trades, h', gas') →
     balanceOf this_states h D t = Some b → 0 <= b →
     committed D t trades <= b).
Proof.
  split.
  - intros this_states chainId inFlight now h chainState trades h' D t b Hc Hu Hrun Hb Hpos.
    unfold balanceOf in Hb. destruct (this_states !! D) as [st|] eqn:HD; [|done].
    simpl in Hb. unfold Solver.calculateTrades in Hrun. rewrite Hc in Hrun.
    destruct (Solver.evaluate _ _ _ _ _) as [trades1 h1] eqn:Hev.
    injection Hrun as <- <-.
    destruct (evaluate_committed this_states inFlight now D st t _ HD
                (submseteq_Forall _ _ _ (filter_submseteq _ _) Hu) _ _ _ _ Hev Hb Hpos)
      as (b' & _ & Hb' & Hle).
    lia.
  - intros ev this_states chainId inFlight now h gas chainState trades h' gas' D t b
      Hc Hu Hrun Hb Hpos.
    unfold balanceOf in Hb. destruct (this_states !! D) as [st|] eqn:HD; [|done].
    simpl in Hb. unfold SolverV2.calculateTrades in Hrun. rewrite Hc in Hrun.
    pose proof (collect_submseteq ev this_states inFlight now
                  (List.filter (keepUnfulfilled this_states) (transfers chainState)) h gas) as Hcol.
    destruct (SolverV2.collect _ _ _ _ _ _ _) as [potentialTrades gas1]. simpl in Hcol.
    destruct (SolverV2.commit _ _ _) as [finalTrades h1] eqn:Hcom.
    injection Hrun as <- <- <-.
    (* every candidate carries the amount of a transfer of the chain *)
    assert (Forall (λ tr, 0 <= Trade.swapAmount tr) (SolverV2.trade <$> potentialTrades)) as Hall.
    { eapply submseteq_Forall; [exact Hcol|].
      apply (proj2 (Forall_fmap _ _ _)).
      eapply submseteq_Forall; [apply filter_submseteq|]. exact Hu. }
    apply (proj1 (Forall_fmap _ _ _)) in Hall.
    assert (Forall (λ c, 0 <= Trade.swapAmount (SolverV2.trade c))
                   (SolverV2.sortByScore potentialTrades)) as Hsorted.
    { eapply submseteq_Forall; [|exact Hall].
      apply Permutation_submseteq, sortByScore_Permutation. }
    destruct (commit_committed this_states D st t _ HD Hsorted _ _ _ _ Hcom Hb Hpos)
      as (b' & _ & Hb' & Hle).
    lia.
Qed.

(* ===================================================================== *)
(** ** The commit and the state store *)
(* ===================================================================== *)

(** C1. The claim is that the debit of an emitted trade stays in a copy of
    the states made for the tick, so that the balances of [this.states] are
    after the tick what they were before it. [new Map(this.states)] copies
    the table only: in the two-chain scenario the balance that
    [this.states] shows for the token on chain 31338 is 5e18 before the
    trade calculation and 1e18 after it, for the simple and for the scored
    evaluator; and a second tick on chain 31337, with nothing in flight and
    the same answer from the chain, no longer emits the trade. *)
Theorem commit_reaches_state_store :
  let tradeA := Scenario.tradeA in
  let v1 := Solver.calculateTrades Scenario.states 31337 ∅ 0 Scenario.heap in
  let v2 := SolverV2.calculateTrades Scenario.noConditions Scenario.states 31337 ∅ 0
              Scenario.heap ∅ in
  let tick1 := Solver.fetchState Scenario.chains Scenario.states 31337 ∅ 0 Scenario.heap in
  let tick2 := Solver.fetchState Scenario.chains tick1.1.2 31337 ∅ 2000 tick1.2 in
  balanceOf Scenario.states Scenario.heap 31338 Scenario.token = Some (5 * Scenario.e18)
  ∧ v1.1 = Ok [tradeA]
  ∧ balanceOf Scenario.states v1.2 31338 Scenario.token = Some Scenario.e18
  ∧ v2.1.1 = Ok [tradeA]
  ∧ balanceOf Scenario.states v2.1.2 31338 Scenario.token = Some Scenario.e18
  ∧ tick1.1.1 = Ok [tradeA]
  ∧ balanceOf tick1.1.2 tick1.2 31338 Scenario.token = Some Scenario.e18
  ∧ tick2.1.1 = Ok [].
Proof. vm_compute. repeat split; reflexivity. Qed.

(* ===================================================================== *)
(** ** Chain ids *)
(* ===================================================================== *)

(** C4. The claim is that [normalizeChainId x] is [x mod 2^64] for every
    256-bit [x], and that normalizing twice is normalizing once. The
    function returns a [number]: [Number(..)] rounds the low 64 bits to a
    double, so at [x = 2^53 + 1] the result is [2^53], not [x mod 2^64], and
    at [x = 2^64 - 1] the result is [2^64], which normalizes to [0]. *)
Theorem normalizeChainId_rounds :
  normalizeChainId 9007199254740993 = 9007199254740992
  ∧ 9007199254740993 mod 2 ^ 64 = 9007199254740993
  ∧ normalizeChainId (2 ^ 64 - 1) = 2 ^ 64
  ∧ (2 ^ 64 - 1) mod 2 ^ 64 = 2 ^ 64 - 1
  ∧ normalizeChainId (normalizeChainId (2 ^ 64 - 1)) = 0.
Proof. vm_compute. repeat split; reflexivity. Qed.

(** Below [2^53] the conversion to a double is exact. *)
Lemma digits2_pos_size m : digits2_pos m = Pos.size m.
Proof. induction m; simpl; congruence. Qed.

Lemma iter_xO_digits m k : digits2_pos (Pos.iter xO m k) = (digits2_pos m + k)%positive.
Proof.
  revert m. induction k using Pos.peano_ind; intros m.
  - simpl. lia.
  - rewrite Pos.iter_succ. simpl. rewrite IHk. lia.
Qed.

Lemma iter_xO_value m k : Z.pos (Pos.iter xO m k) = Z.pos m * 2 ^ Z.pos k.
Proof.
  revert m. induction k using Pos.peano_ind; intros m.
  - simpl. lia.
  - rewrite Pos.iter_succ.
    rewrite Pos2Z.inj_xO, IHk, Pos2Z.inj_succ, Z.pow_succ_r by lia. lia.
Qed.

Lemma digits_below_2_53 m : Z.pos m < 2 ^ 53 → Z.pos (digits2_pos m) <= 53.
Proof.
  intros H. rewrite digits2_pos_size.
  destruct (Z_le_gt_dec (Z.pos (Pos.size m)) 53) as [|Hgt]; [done|].
  pose proof (Pos.size_le m) as Hle.
  assert (2 ^ 54 <= Z.pos (2 ^ Pos.size m)).
  { rewrite Pos2Z.inj_pow. apply Z.pow_le_mono_r; lia. }
  assert (Z.pos (2 ^ Pos.size m) <= Z.pos m~0) by lia.
  rewrite Pos2Z.inj_xO in *. lia.
Qed.

Lemma shr_fexp_exact mz ez :
  Z.pos (digits2_pos mz) = 53 → -1074 <= ez →
  shr_fexp 53 1024 (Z.pos mz) ez loc_Exact
  = ({| shr_m := Z.pos mz; shr_r := false; shr_s := false |}, ez).
Proof.
  intros Hd He. unfold shr_fexp. cbn [Zdigits2 shr_record_of_loc]. rewrite Hd.
  replace (fexp 53 1024 (53 + ez) - ez) with 0 by (unfold fexp, emin; lia).
  reflexivity.
Qed.

Lemma binary_round_aux_exact mz ez :
  Z.pos (digits2_pos mz) = 53 → -1074 <= ez <= 971 →
  binary_round_aux 53 1024 false (Z.pos mz) ez loc_Exact = S754_finite false mz ez.
Proof.
  intros Hd [He1 He2]. unfold binary_round_aux.
  rewrite (shr_fexp_exact mz ez Hd He1).
  cbn [shr_m loc_of_shr_record round_nearest_even].
  rewrite (shr_fexp_exact mz ez Hd He1). cbn [shr_m].
  replace (ez <=? 1024 - 53) with true by (symmetry; apply Z.leb_le; lia).
  reflexivity.
Qed.

Lemma integerValue_NumberSF z : 0 <= z < 2 ^ 53 → integerValue (NumberSF z) = z.
Proof.
  intros [H0 Hlt]. destruct z as [|m|m]; [reflexivity| |lia].
  pose proof (digits_below_2_53 m Hlt) as Hd.
  unfold NumberSF, binary_normalize, binary_round.
  set (d := digits2_pos m) in *.
  replace (fexp 53 1024 (Z.pos d + 0)) with (Z.pos d - 53) by (unfold fexp, emin; lia).
  unfold shl_align.
  destruct (Z.pos d - 53 - 0) as [|k|k] eqn:Hk; [|lia|].
  - assert (Z.pos d = 53) as Hd53 by lia.
    replace (Z.pos d - 53) with 0 by lia.
    rewrite binary_round_aux_exact by (fold d; lia).
    simpl. lia.
  - assert (Z.pos k = 53 - Z.pos d) as Hkd by lia.
    rewrite binary_round_aux_exact.
    + unfold integerValue.
      replace (0 <=? Z.pos d - 53) with false by (symmetry; apply Z.leb_gt; lia).
      rewrite iter_xO_value. replace (- (Z.pos d - 53)) with (Z.pos k) by lia.
      apply Z.div_mul. lia.
    + rewrite iter_xO_digits. fold d. lia.
    + lia.
Qed.

(** Where the low 64 bits of a chain id are below [2^53], as for every chain
    id in use, [normalizeChainId] is the reduction modulo [2^64] and
    normalizing again changes nothing. *)
Lemma normalizeChainId_below_2_53 x :
  x mod 2 ^ 64 < 2 ^ 53 →
  normalizeChainId x = x mod 2 ^ 64
  ∧ normalizeChainId (normalizeChainId x) = normalizeChainId x.
Proof.
  intros Hsmall.
  assert (∀ y, y mod 2 ^ 64 < 2 ^ 53 → normalizeChainId y = y mod 2 ^ 64) as Hmod.
  { intros y Hy. unfold normalizeChainId.
    change mask64 with (Z.ones 64). rewrite Z.land_ones by lia.
    apply integerValue_NumberSF. pose proof (Z.mod_pos_bound y (2 ^ 64)). lia. }
  split; [by apply Hmod|].
  rewrite (Hmod x Hsmall).
  pose proof (Z.mod_pos_bound x (2 ^ 64)).
  rewrite Hmod; rewrite Z.mod_mod by lia; [done|lia].
Qed.

(** Chain ids in use, far below [2^53], are left as they are. *)
Lemma normalizeChainId_scenario :
  normalizeChainId 31337 = 31337 ∧ normalizeChainId 31338 = 31338
  ∧ normalizeChainId (2 ^ 64 + 31338) = 31338.
Proof. vm_compute. repeat split; reflexivity. Qed.

(* ===================================================================== *)
(** ** Request ids of the emitted trades *)
(* ===================================================================== *)

Lemma requestId_toTrade (ts : list Transfer) :
  Trade.requestId <$> (toTrade <$> ts) = requestId <$> ts.
Proof. rewrite <- list_fmap_compose. done. Qed.

(** C3, as claimed: for an arbitrary list of transfers no two trades of a
    tick have the same request id. A request listed twice by the source
    chain is emitted twice. *)
Lemma duplicate_request_emitted_twice :
  ¬ (∀ this_states chainId inFlight now h trades h',
       Solver.calculateTrades this_states chainId inFlight now h = (Ok trades, h') →
       NoDup (Trade.requestId <$> trades)).
Proof.
  intros Hclaim.
  pose (r := Scenario.request Scenario.requestA Scenario.e18 Scenario.fee).
  specialize (Hclaim (Scenario.statesWith [r; r]) 31337 ∅ 0 Scenario.heap
                [toTrade r; toTrade r]
                (Solver.calculateTrades (Scenario.statesWith [r; r]) 31337 ∅ 0
                   Scenario.heap).2).
  assert (NoDup (Trade.requestId <$> [toTrade r; toTrade r])) as Hnd.
  { apply Hclaim. apply pair_eta. vm_compute. reflexivity. }
  simpl in Hnd. apply NoDup_cons in Hnd as [Hin _]. apply Hin. left.
Qed.

(** C3, amended: when the request ids of the chain's transfers are pairwise
    distinct, so are the request ids of the trades a tick returns, for the
    simple and for the scored evaluator. *)
Theorem distinct_requests_distinct_trades :
  (∀ this_states chainId inFlight now h chainState trades h',
     this_states !! chainId = Some chainState →
     NoDup (requestId <$> transfers chainState) →
     Solver.calculateTrades this_states chainId inFlight now h = (Ok trades, h') →
     NoDup (Trade.requestId <$> trades))
  ∧
  (∀ evaluateConditions this_states chainId inFlight now h gas chainState trades h' gas',
     this_states !! chainId = Some chainState →
     NoDup (requestId <$> transfers chainState) →
     SolverV2.calculateTrades evaluateConditions this_states chainId inFlight now h gas
       = (Ok trades, h', gas') →
     NoDup (Trade.requestId <$> trades)).
Proof.
  split.
  - intros this_states chainId inFlight now h chainState trades h' Hc Hnd Hrun.
    eapply submseteq_NoDup; [|exact Hnd].
    rewrite <- requestId_toTrade. apply fmap_submseteq.
    by eapply calculateTrades_submseteq.
  - intros ev this_states chainId inFlight now h gas chainState trades h' gas' Hc Hnd Hrun.
    eapply submseteq_NoDup; [|exact Hnd].
    rewrite <- requestId_toTrade. apply fmap_submseteq.
    by eapply calculateTradesV2_submseteq.
Qed.

Lemma distinct_requests_distinct_trades_witness :
  NoDup (Trade.requestId <$> [Scenario.tradeA])
  ∧ NoDup (Trade.requestId <$> [Scenario.tradeA]).
Proof.
  split.
  - apply (proj1 distinct_requests_distinct_trades Scenario.states 31337 ∅ 0 Scenario.heap
             (Scenario.chainStateOf 1%positive Scenario.twoRequests) _
             (Solver.calculateTrades Scenario.states 31337 ∅ 0 Scenario.heap).2).
    + vm_compute. reflexivity.
    + apply (bool_decide_unpack _). vm_compute. exact I.
    + apply (pair_eta _ (Ok [Scenario.tradeA])). vm_compute. reflexivity.
  - apply (proj2 distinct_requests_distinct_trades Scenario.noConditions Scenario.states
             31337 ∅ 0 Scenario.heap ∅
             (Scenario.chainStateOf 1%positive Scenario.twoRequests) _
             (SolverV2.calculateTrades Scenario.noConditions Scenario.states 31337 ∅ 0
                Scenario.heap ∅).1.2
             (SolverV2.calculateTrades Scenario.noConditions Scenario.states 31337 ∅ 0
                Scenario.heap ∅).2).
    + vm_compute. reflexivity.
    + apply (bool_decide_unpack _). vm_compute. exact I.
    + apply (triple_eta _ (Ok [Scenario.tradeA])). vm_compute. reflexivity.
Defined.

Lemma committed_within_balance_witness :
  committed 31338 Scenario.token [Scenario.tradeA] <= 5 * Scenario.e18
  ∧ committed 31338 Scenario.token [Scenario.tradeA] <= 5 * Scenario.e18.
Proof.
  split.
  - apply (proj1 committed_within_balance Scenario.states 31337 ∅ 0 Scenario.heap
             (Scenario.chainStateOf 1%positive Scenario.twoRequests) _
             (Solver.calculateTrades Scenario.states 31337 ∅ 0 Scenario.heap).2
             31338 Scenario.token (5 * Scenario.e18)).
    + vm_compute. reflexivity.
    + repeat constructor; vm_compute; discriminate.
    + apply (pair_eta _ (Ok [Scenario.tradeA])). vm_compute. reflexivity.
    + vm_compute. reflexivity.
    + vm_compute. discriminate.
  - apply (proj2 committed_within_balance Scenario.noConditions Scenario.states 31337 ∅ 0
             Scenario.heap ∅ (Scenario.chainStateOf 1%positive Scenario.twoRequests) _
             (SolverV2.calculateTrades Scenario.noConditions Scenario.states 31337 ∅ 0
                Scenario.heap ∅).1.2
             (SolverV2.calculateTrades Scenario.noConditions Scenario.states 31337 ∅ 0
                Scenario.heap ∅).2
             31338 Scenario.token (5 * Scenario.e18)).
    + vm_compute. reflexivity.
    + repeat constructor; vm_compute; discriminate.
    + apply (triple_eta _ (Ok [Scenario.tradeA])). vm_compute. reflexivity.
    + vm_compute. reflexivity.
    + vm_compute. discriminate.
Defined.

(* ===================================================================== *)
(** ** Request ids that differ in letter case *)
(* ===================================================================== *)


(* ===================================================================== *)
(** ** A balance that exactly covers the amount *)
(* ===================================================================== *)

(** Once a balance is at 0 it stays there for the rest of the loop, and the
    loop emits no trade that draws on it. *)
Lemma evaluate_exhausted states inFlight now l key ts :
  ∀ h trades h',
    Solver.evaluate states inFlight now ts h = (trades, h') →
    mapGet h l key = Some 0 →
    mapGet h' l key = Some 0
    ∧ ∀ tr destState,
        tr ∈ trades →
        states !! normalizeChainId (Trade.destChainId tr) = Some destState →
        tokenBalances destState = l →
        Trade.tokenOutAddr tr ≠ key.
Proof.
  induction ts as [|transfer ts IH]; intros h trades h'; simpl.
  - intros [= <- <-] H0. split; [done|]. intros tr ? Hin. by apply elem_of_nil in Hin.
  - destruct (InFlight.has _ _ _); [by apply IH|].
    destruct (Solver.solve transfer states h) as [[trade|] h1] eqn:Hs.
    + destruct (Solver.evaluate states inFlight now ts h1) as [trades1 h2] eqn:Hev.
      intros [= <- <-] H0.
      apply solve_Some in Hs as (destState & tokenBalance & Hem & -> & ->).
      destruct Hem as [Hd _ _ _ Hbal Hnz _ _].
      assert (¬ (tokenBalances destState = l
                 ∧ toLowerCase (tokenOut (params transfer)) = key)) as Hne.
      { intros [Hl Hk]. rewrite Hl, Hk, H0 in Hbal. congruence. }
      destruct (IH _ _ _ Hev) as [Hleft Hnone].
      { by rewrite mapGet_mapSet_ne. }
      split; [done|]. intros tr st' [->|Hin]%elem_of_cons Hst' Hl.
      * simpl in *. rewrite Hd in Hst'. injection Hst' as <-.
        intros Hk. apply Hne. by split.
      * by eapply Hnone.
    + apply solve_None in Hs as ->. by apply IH.
Qed.

(** C6, as claimed: a transfer that passes the other checks and whose
    destination token balance equals its [amountOut] is emitted. With a
    balance of 0 and an [amountOut] of 0 the other checks pass and the two
    are equal, and the transfer is skipped by the zero-balance guard. *)
Lemma zero_balance_zero_amount_skipped :
  InFlight.has ∅ 0 (requestId Scenario.zeroAmount) = false
  ∧ executed (params Scenario.zeroAmount) = false
  ∧ keepUnfulfilled Scenario.statesZero Scenario.zeroAmount = true
  ∧ Scenario.statesZero !! normalizeChainId (dstChainId (params Scenario.zeroAmount))
    = Some Scenario.destination
  ∧ isFulfilled Scenario.destination (requestId Scenario.zeroAmount) = false
  ∧ nativeBalance Scenario.destination ≠ 0
  ∧ mapGet (Scenario.heapWith 0) (tokenBalances Scenario.destination)
           (toLowerCase (tokenOut (params Scenario.zeroAmount)))
    = Some (amountOut (params Scenario.zeroAmount))
  ∧ 1 <= solverFee (params Scenario.zeroAmount)
  ∧ (Solver.solve Scenario.zeroAmount Scenario.statesZero (Scenario.heapWith 0)).1 = None
  ∧ (Solver.calculateTrades Scenario.statesZero 31337 ∅ 0 (Scenario.heapWith 0)).1 = Ok [].
Proof.
  split; [vm_compute; reflexivity|].
  split; [vm_compute; reflexivity|].
  split; [vm_compute; reflexivity|].
  split; [vm_compute; reflexivity|].
  split; [vm_compute; reflexivity|].
  split; [vm_compute; discriminate|].
  split; [vm_compute; reflexivity|].
  split; [vm_compute; discriminate|].
  split; vm_compute; reflexivity.
Qed.

(** C6, amended: a transfer at the head of the evaluator's loop that is not
    in flight, not executed, not already fulfilled, whose destination chain
    state is known with a non-zero native balance, whose [solverFee] is at
    least 1, and whose destination token balance is non-zero and exactly
    equal to [amountOut], is emitted; the debit leaves that balance at 0;
    and the rest of the loop emits no trade for that token of that
    destination state, whatever the amount. *)
Theorem exact_balance_emitted_then_exhausted :
  ∀ states inFlight now tf rest h destState,
    InFlight.has inFlight now (requestId tf) = false →
    executed (params tf) = false →
    states !! normalizeChainId (dstChainId (params tf)) = Some destState →
    isFulfilled destState (requestId tf) = false →
    nativeBalance destState ≠ 0 →
    mapGet h (tokenBalances destState) (toLowerCase (tokenOut (params tf)))
      = Some (amountOut (params tf)) →
    amountOut (params tf) ≠ 0 →
    1 <= solverFee (params tf) →
    ∃ h1 later h2,
      Solver.solve tf states h = (Some (toTrade tf), h1)
      ∧ mapGet h1 (tokenBalances destState) (toLowerCase (tokenOut (params tf))) = Some 0
      ∧ Solver.evaluate states inFlight now rest h1 = (later, h2)
      ∧ Solver.evaluate states inFlight now (tf :: rest) h = (toTrade tf :: later, h2)
      ∧ mapGet h2 (tokenBalances destState) (toLowerCase (tokenOut (params tf))) = Some 0
      ∧ ∀ tr destState',
          tr ∈ later →
          states !! normalizeChainId (Trade.destChainId tr) = Some destState' →
          tokenBalances destState' = tokenBalances destState →
          Trade.tokenOutAddr tr ≠ toLowerCase (tokenOut (params tf)).
Proof.
  intros states inFlight now tf rest h destState Hfl He Hd Hf Hn Hb Hnz Hfee.
  set (key := toLowerCase (tokenOut (params tf))) in *.
  assert (Emits tf states h destState (amountOut (params tf))) as Hem.
  { split; try done; lia. }
  pose proof (solve_Emits _ _ _ _ _ Hem) as Hs. fold key in Hs.
  rewrite Z.sub_diag in Hs.
  set (h1 := mapSet h (tokenBalances destState) key 0) in *.
  destruct (Solver.evaluate states inFlight now rest h1) as [later h2] eqn:Hev.
  assert (mapGet h1 (tokenBalances destState) key = Some 0) as H0
    by apply mapGet_mapSet_eq.
  destruct (evaluate_exhausted _ _ _ _ _ _ _ _ _ Hev H0) as [Hleft Hnone].
  exists h1, later, h2. repeat split; try done.
  simpl. by rewrite Hfl, Hs, Hev.
Qed.

Lemma exact_balance_emitted_then_exhausted_witness :
  ∃ h1 later h2,
    Solver.solve Scenario.wholeBalance Scenario.statesWhole Scenario.heap
      = (Some (toTrade Scenario.wholeBalance), h1)
    ∧ mapGet h1 (tokenBalances Scenario.destination)
             (toLowerCase (tokenOut (params Scenario.wholeBalance))) = Some 0
    ∧ Solver.evaluate Scenario.statesWhole ∅ 0 Scenario.oneMore h1 = (later, h2)
    ∧ Solver.evaluate Scenario.statesWhole ∅ 0
        (Scenario.wholeBalance :: Scenario.oneMore) Scenario.heap
      = (toTrade Scenario.wholeBalance :: later, h2)
    ∧ mapGet h2 (tokenBalances Scenario.destination)
             (toLowerCase (tokenOut (params Scenario.wholeBalance))) = Some 0
    ∧ ∀ tr destState',
        tr ∈ later →
        Scenario.statesWhole !! normalizeChainId (Trade.destChainId tr) = Some destState' →
        tokenBalances destState' = tokenBalances Scenario.destination →
        Trade.tokenOutAddr tr ≠ toLowerCase (tokenOut (params Scenario.wholeBalance)).
Proof.
  apply (exact_balance_emitted_then_exhausted Scenario.statesWhole ∅ 0
           Scenario.wholeBalance Scenario.oneMore Scenario.heap Scenario.destination).
  - vm_compute. reflexivity.
  - vm_compute. reflexivity.
  - vm_compute. reflexivity.
  - vm_compute. reflexivity.
  - vm_compute. discriminate.
  - vm_compute. reflexivity.
  - vm_compute. discriminate.
  - vm_compute. discriminate.
Defined.

(* ===================================================================== *)
(** ** The executor: parameter reconciliation *)
(* ===================================================================== *)

Lemma reconcile_verified p trade :
  srcChainId p ≠ 0 →
  toLowerCase (sender p) ≠ TradeExecutor.zeroAddress →
  TradeExecutor.reconcile (Some p) trade =
    {| TradeExecutor.actualTokenIn := toLowerCase (tokenIn p);
       TradeExecutor.actualTokenOut := toLowerCase (tokenOut p);
       TradeExecutor.actualSender := toLowerCase (sender p);
       TradeExecutor.actualRecipient := toLowerCase (recipient p);
       TradeExecutor.actualAmountOut := amountOut p;
       TradeExecutor.actualSrcChainId := srcChainId p;
       TradeExecutor.actualNonce := nonce p |}.
Proof.
  intros Hsrc Hsender. unfold TradeExecutor.reconcile.
  replace (srcChainId p =? 0) with false by (symmetry; lia).
  by rewrite bool_decide_eq_false_2.
Qed.

Lemma reconcile_unverified stored trade :
  (stored = None
   ∨ ∃ p, stored = Some p
          ∧ (srcChainId p = 0 ∨ toLowerCase (sender p) = TradeExecutor.zeroAddress)) →
  TradeExecutor.reconcile stored trade =
    {| TradeExecutor.actualTokenIn := toLowerCase (Trade.tokenInAddr trade);
       TradeExecutor.actualTokenOut := toLowerCase (Trade.tokenOutAddr trade);
       TradeExecutor.actualSender := toLowerCase (Trade.senderAddr trade);
       TradeExecutor.actualRecipient := toLowerCase (Trade.recipientAddr trade);
       TradeExecutor.actualAmountOut := Trade.swapAmount trade;
       TradeExecutor.actualSrcChainId := Trade.srcChainId trade;
       TradeExecutor.actualNonce := Trade.nonce trade |}.
Proof.
  intros [->|(p & -> & [Hsrc|Hsender])]; unfold TradeExecutor.reconcile; [done| |].
  - rewrite Hsrc. done.
  - rewrite (bool_decide_eq_true_2 _ Hsender). by rewrite andb_false_r.
Qed.

(** The relay call of [executeTrade], when there is one, carries the
    reconciled values. *)
Lemma executeTrade_relay cfg env trade chain args :
  TradeExecutor.CallRelayTokens chain args ∈ (TradeExecutor.executeTrade cfg env trade).1 →
  let a := TradeExecutor.reconcile (TradeExecutor.getSwapRequestParameters env) trade in
  args = relayArgsOf cfg (Trade.requestId trade)
           (TradeExecutor.actualTokenIn a) (TradeExecutor.actualTokenOut a)
           (TradeExecutor.actualSender a) (TradeExecutor.actualRecipient a)
           (TradeExecutor.actualAmountOut a) (TradeExecutor.actualSrcChainId a)
           (TradeExecutor.actualNonce a).
Proof.
  unfold TradeExecutor.executeTrade.
  destruct (TradeExecutor.routers cfg !! _) as [router|];
    [|simpl; by intros ?%elem_of_nil].
  destruct (TradeExecutor.tokens cfg !! _) as [tokenContracts|];
    [|simpl; intros [?|?%elem_of_nil]%elem_of_cons; done].
  destruct (List.find _ _) as [token|];
    [|simpl; intros [?|?%elem_of_nil]%elem_of_cons; done].
  unfold TradeExecutor.executeTradeInternal, relayArgsOf.
  destruct (TradeExecutor.approve env), (TradeExecutor.relayTokens env); simpl;
    rewrite ?elem_of_cons, elem_of_nil; intros Hin;
    repeat (destruct Hin as [Hin|Hin]; try done); by injection Hin as _ <-.
Qed.

(** The token contract [executeTrade] picks is there as soon as one of
    the configured contracts matches. *)
Lemma find_token (tokenContracts : list string) (wanted token : string) :
  token ∈ tokenContracts →
  toLowerCase token = toLowerCase wanted →
  ∃ found,
    List.find (fun target => bool_decide (toLowerCase target = toLowerCase wanted))
              tokenContracts = Some found.
Proof.
  intros Hin Heq.
  destruct (List.find _ tokenContracts) as [found|] eqn:Hfind; [by exists found|].
  apply list_elem_of_In in Hin.
  pose proof (find_none _ _ Hfind token Hin) as Hno. simpl in Hno.
  by rewrite bool_decide_eq_true_2 in Hno.
Qed.

(** The relay calls of [executeTrade] once the router and a matching token
    contract are there and the approval has succeeded: there is exactly
    one, with the reconciled values. *)
Lemma executeTrade_relayCalls cfg env trade router tokenContracts token :
  let D := normalizeChainId (Trade.destChainId trade) in
  let a := TradeExecutor.reconcile (TradeExecutor.getSwapRequestParameters env) trade in
  TradeExecutor.routers cfg !! D = Some router →
  TradeExecutor.tokens cfg !! D = Some tokenContracts →
  token ∈ tokenContracts →
  toLowerCase token = toLowerCase (TradeExecutor.actualTokenOut a) →
  TradeExecutor.approve env = TradeExecutor.TxSuccess →
  relayCalls (TradeExecutor.executeTrade cfg env trade).1
  = [ (D, relayArgsOf cfg (Trade.requestId trade)
            (TradeExecutor.actualTokenIn a) (TradeExecutor.actualTokenOut a)
            (TradeExecutor.actualSender a) (TradeExecutor.actualRecipient a)
            (TradeExecutor.actualAmountOut a) (TradeExecutor.actualSrcChainId a)
            (TradeExecutor.actualNonce a)) ].
Proof.
  intros D a Hrouter Htokens Hin Heq Happrove.
  unfold TradeExecutor.executeTrade. fold D a. rewrite Hrouter, Htokens.
  destruct (find_token _ _ _ Hin Heq) as [found ->].
  unfold TradeExecutor.executeTradeInternal, relayArgsOf. rewrite Happrove.
  by destruct (TradeExecutor.relayTokens env).
Qed.

(** C7. For every trade the executor processes, on a destination chain that
    has a router and a token contract for the reconciled [tokenOut], and
    once the approval has succeeded, [relayTokens] is called exactly once,
    with: the stored [tokenIn], [tokenOut], [sender], [recipient],
    [amountOut], [srcChainId] and [nonce] when the destination router
    returned a record whose [srcChainId] and [sender] are both non-zero;
    the values the trade carries when the record is a zero record or the
    query failed. And whenever [relayTokens] is called for the trade, it is
    with those values, and with every address argument in lower case. *)
Theorem relay_uses_reconciled_parameters :
  (∀ cfg env trade p router tokenContracts token,
     let D := normalizeChainId (Trade.destChainId trade) in
     TradeExecutor.getSwapRequestParameters env = Some p →
     srcChainId p ≠ 0 →
     toLowerCase (sender p) ≠ TradeExecutor.zeroAddress →
     TradeExecutor.routers cfg !! D = Some router →
     TradeExecutor.tokens cfg !! D = Some tokenContracts →
     token ∈ tokenContracts →
     toLowerCase token = toLowerCase (tokenOut p) →
     TradeExecutor.approve env = TradeExecutor.TxSuccess →
     relayCalls (TradeExecutor.executeTrade cfg env trade).1
     = [ (D, relayArgsOf cfg (Trade.requestId trade)
               (tokenIn p) (tokenOut p) (sender p) (recipient p)
               (amountOut p) (srcChainId p) (nonce p)) ])
  ∧ (∀ cfg env trade router tokenContracts token,
       let D := normalizeChainId (Trade.destChainId trade) in
       (TradeExecutor.getSwapRequestParameters env = None
        ∨ ∃ p, TradeExecutor.getSwapRequestParameters env = Some p
               ∧ (srcChainId p = 0
                  ∨ toLowerCase (sender p) = TradeExecutor.zeroAddress)) →
       TradeExecutor.routers cfg !! D = Some router →
       TradeExecutor.tokens cfg !! D = Some tokenContracts →
       token ∈ tokenContracts →
       toLowerCase token = toLowerCase (Trade.tokenOutAddr trade) →
       TradeExecutor.approve env = TradeExecutor.TxSuccess →
       relayCalls (TradeExecutor.executeTrade cfg env trade).1
       = [ (D, relayArgsOf cfg (Trade.requestId trade)
                 (Trade.tokenInAddr trade) (Trade.tokenOutAddr trade)
                 (Trade.senderAddr trade) (Trade.recipientAddr trade)
                 (Trade.swapAmount trade) (Trade.srcChainId trade)
                 (Trade.nonce trade)) ])
  ∧ (∀ cfg env trade chain args,
       TradeExecutor.CallRelayTokens chain args
         ∈ (TradeExecutor.executeTrade cfg env trade).1 →
       (∀ p, TradeExecutor.getSwapRequestParameters env = Some p →
             srcChainId p ≠ 0 →
             toLowerCase (sender p) ≠ TradeExecutor.zeroAddress →
             args = relayArgsOf cfg (Trade.requestId trade)
                      (tokenIn p) (tokenOut p) (sender p) (recipient p)
                      (amountOut p) (srcChainId p) (nonce p))
       ∧ ((TradeExecutor.getSwapRequestParameters env = None
           ∨ ∃ p, TradeExecutor.getSwapRequestParameters env = Some p
                  ∧ (srcChainId p = 0
                     ∨ toLowerCase (sender p) = TradeExecutor.zeroAddress)) →
          args = relayArgsOf cfg (Trade.requestId trade)
                   (Trade.tokenInAddr trade) (Trade.tokenOutAddr trade)
                   (Trade.senderAddr trade) (Trade.recipientAddr trade)
                   (Trade.swapAmount trade) (Trade.srcChainId trade)
                   (Trade.nonce trade))
       ∧ addressesLowerCased args).
Proof.
  split; [|split].
  - intros cfg env trade p router tokenContracts token D Hp Hsrc Hsender
      Hrouter Htokens Hin Heq Happrove.
    rewrite (executeTrade_relayCalls cfg env trade router tokenContracts token
               Hrouter Htokens Hin); [| |done].
    + rewrite Hp, (reconcile_verified _ _ Hsrc Hsender). simpl.
      unfold relayArgsOf. by rewrite !toLowerCase_idemp.
    + rewrite Hp, (reconcile_verified _ _ Hsrc Hsender). simpl.
      by rewrite toLowerCase_idemp.
  - intros cfg env trade router tokenContracts token D Hun
      Hrouter Htokens Hin Heq Happrove.
    rewrite (executeTrade_relayCalls cfg env trade router tokenContracts token
               Hrouter Htokens Hin); [| |done].
    + rewrite (reconcile_unverified _ _ Hun). simpl.
      unfold relayArgsOf. by rewrite !toLowerCase_idemp.
    + rewrite (reconcile_unverified _ _ Hun). simpl.
      by rewrite toLowerCase_idemp.
  - intros cfg env trade chain args Hin.
    apply executeTrade_relay in Hin. simpl in Hin. split; [|split].
    + intros p Hp Hsrc Hsender. rewrite Hp, (reconcile_verified _ _ Hsrc Hsender) in Hin.
      simpl in Hin. rewrite Hin. unfold relayArgsOf. by rewrite !toLowerCase_idemp.
    + intros Hun. rewrite (reconcile_unverified _ _ Hun) in Hin.
      simpl in Hin. rewrite Hin. unfold relayArgsOf. by rewrite !toLowerCase_idemp.
    + rewrite Hin. unfold addressesLowerCased, relayArgsOf. simpl.
      by rewrite !toLowerCase_idemp.
Qed.

Lemma relay_uses_reconciled_parameters_witness :
  relayCalls (TradeExecutor.executeTrade Scenario.executor Scenario.calm Scenario.tradeB).1
  = [ (31338, relayArgsOf Scenario.executor Scenario.requestB
                Scenario.tokenAsListed Scenario.tokenAsListed Scenario.user Scenario.user
                (4 * Scenario.e18) 31337 1) ]
  ∧ relayCalls
      (TradeExecutor.executeTrade Scenario.executor Scenario.reverting Scenario.tradeB).1
    = [ (31338, relayArgsOf Scenario.executor Scenario.requestB
                  Scenario.token Scenario.token
                  (toLowerCase Scenario.user) (toLowerCase Scenario.user)
                  (3 * Scenario.e18) 31337 1) ]
  ∧ addressesLowerCased
      (relayArgsOf Scenario.executor Scenario.requestB
         Scenario.token Scenario.token
         (toLowerCase Scenario.user) (toLowerCase Scenario.user)
         (3 * Scenario.e18) 31337 1).
Proof.
  split; [|split].
  - apply (proj1 relay_uses_reconciled_parameters Scenario.executor Scenario.calm
             Scenario.tradeB Scenario.storedRecord Scenario.router
             [Scenario.tokenAsListed] Scenario.tokenAsListed).
    + reflexivity.
    + vm_compute. discriminate.
    + vm_compute. discriminate.
    + vm_compute. reflexivity.
    + vm_compute. reflexivity.
    + apply list_elem_of_here.
    + reflexivity.
    + reflexivity.
  - apply (proj1 (proj2 relay_uses_reconciled_parameters) Scenario.executor
             Scenario.reverting Scenario.tradeB Scenario.router
             [Scenario.tokenAsListed] Scenario.tokenAsListed).
    + left. reflexivity.
    + vm_compute. reflexivity.
    + vm_compute. reflexivity.
    + apply list_elem_of_here.
    + vm_compute. reflexivity.
    + reflexivity.
  - apply (proj2 (proj2 relay_uses_reconciled_parameters) Scenario.executor
             Scenario.reverting Scenario.tradeB 31338).
    vm_compute. do 2 apply list_elem_of_further. apply list_elem_of_here.
Defined.

(* ===================================================================== *)
(** ** The executor: the in-flight discipline *)
(* ===================================================================== *)

Lemma execute_cons cfg world i trade rest inFlight :
  TradeExecutor.execute cfg world i (trade :: rest) inFlight =
    let env := world i in
    let key := Trade.requestId trade in
    if InFlight.has inFlight (TradeExecutor.now env) key
    then TradeExecutor.execute cfg world (S i) rest inFlight
    else
      let inFlight0 := InFlight.checked inFlight (TradeExecutor.now env) key in
      match InFlight.set inFlight0 (TradeExecutor.now env) key 30 with
      | Err msg =>
          {| TradeExecutor.trace := []; TradeExecutor.late := [];
             TradeExecutor.cache := inFlight0; TradeExecutor.outcome := Err msg |}
      | Ok inFlight1 =>
          match TradeExecutor.executeTrade cfg env trade with
          | (calls, Ok _) =>
              let run := TradeExecutor.execute cfg world (S i) rest inFlight1 in
              {| TradeExecutor.trace :=
                   TradeExecutor.CacheSet key 30 :: calls ++ TradeExecutor.trace run;
                 TradeExecutor.late := TradeExecutor.late run;
                 TradeExecutor.cache := TradeExecutor.cache run;
                 TradeExecutor.outcome := TradeExecutor.outcome run |}
          | (calls, Err _) =>
              let inFlight2 := InFlight.del inFlight1 key in
              let run := TradeExecutor.execute cfg world (S i) rest inFlight2 in
              {| TradeExecutor.trace :=
                   TradeExecutor.CacheSet key 30
                     :: TradeExecutor.callsInTime env calls
                     ++ TradeExecutor.CacheDel key :: TradeExecutor.trace run;
                 TradeExecutor.late :=
                   TradeExecutor.callsLate env calls ++ TradeExecutor.late run;
                 TradeExecutor.cache := TradeExecutor.cache run;
                 TradeExecutor.outcome := TradeExecutor.outcome run |}
          end
      end.
Proof. reflexivity. Qed.

(** C8. The claim is that every trade of the list that is not in flight has
    its id set in the cache and is executed, and that no failure aborts the
    list. [inFlight.set] stands before the [try] of the loop, and the cache
    is built with [maxKeys: 1000]: on a cache that stores 1000 keys the
    call throws, nothing in [execute] catches it, and the method ends
    there. With 1000 other requests in flight and a calm network, neither
    of two trades that are not in flight is set in the cache or executed,
    where the same call on an empty cache carries out both. *)
Theorem full_cache_aborts_the_list :
  let trades := [Scenario.tradeA; Scenario.tradeB] in
  let run :=
    TradeExecutor.execute Scenario.executor Scenario.calmWorld 0 trades
      Scenario.fullCache in
  let free := TradeExecutor.execute Scenario.executor Scenario.calmWorld 0 trades ∅ in
  size Scenario.fullCache = 1000%nat
  ∧ forallb (fun n => InFlight.has Scenario.fullCache 1000 (Scenario.otherRequest n))
            (seq 0 1000) = true
  ∧ InFlight.has Scenario.fullCache 1000 Scenario.requestA = false
  ∧ InFlight.has Scenario.fullCache 1000 Scenario.requestB = false
  ∧ TradeExecutor.outcome run = Err "ECACHEFULL"
  ∧ TradeExecutor.trace run = []
  ∧ TradeExecutor.late run = []
  ∧ TradeExecutor.cache run !! Scenario.requestA = None
  ∧ TradeExecutor.cache run !! Scenario.requestB = None
  ∧ TradeExecutor.outcome free = Ok tt
  ∧ length (relayCalls (TradeExecutor.trace free)) = 2%nat
  ∧ InFlight.has (TradeExecutor.cache free) 1000 Scenario.requestA = true
  ∧ InFlight.has (TradeExecutor.cache free) 1000 Scenario.requestB = true.
Proof. vm_compute. repeat split; reflexivity. Qed.

(* ===================================================================== *)
(** ** The profit estimate *)
(* ===================================================================== *)

Lemma defaultGasPrices_gasPrice chainId :
  default 20000000000 (GasPriceEstimator.defaultGasPrices chainId) = gasPrice chainId.
Proof.
  unfold GasPriceEstimator.defaultGasPrices, gasPrice.
  repeat case_match; reflexivity.
Qed.

Lemma fromDefaults_empty : fromDefaults ∅.
Proof. intros chainId g t H. by rewrite lookup_empty in H. Qed.

(** [getGasPrice] answers the default price of the chain, whatever the age
    of the cache entry, and keeps the cache as it builds it. *)
Lemma getGasPrice_default cache now chainId :
  fromDefaults cache →
  (GasPriceEstimator.getGasPrice cache now chainId).1 = gasPrice chainId
  ∧ fromDefaults (GasPriceEstimator.getGasPrice cache now chainId).2.
Proof.
  intros Hc. unfold GasPriceEstimator.getGasPrice.
  assert (fromDefaults
            (<[chainId := (default 20000000000 (GasPriceEstimator.defaultGasPrices chainId),
                           now)]> cache)) as Hins.
  { intros k g t. destruct (decide (chainId = k)) as [->|Hk].
    - rewrite lookup_insert_eq. by intros [= <- _].
    - rewrite lookup_insert_ne by done. apply Hc. }
  destruct (cache !! chainId) as [[cachedGasPrice timestamp]|] eqn:Hl.
  - destruct (now - timestamp <? GasPriceEstimator.cacheTTL); simpl.
    + split; [|done]. rewrite (Hc _ _ _ Hl). apply defaultGasPrices_gasPrice.
    + split; [apply defaultGasPrices_gasPrice|done].
  - simpl. split; [apply defaultGasPrices_gasPrice|done].
Qed.

Lemma calculateProfitScore_fromDefaults cache now trade transfer :
  fromDefaults cache →
  fromDefaults (ProfitOptimizer.calculateProfitScore cache now trade transfer).2.
Proof.
  intros Hc. unfold ProfitOptimizer.calculateProfitScore, ProfitOptimizer.estimateProfit,
    ProfitOptimizer.estimateGasCost.
  pose proof (getGasPrice_default cache now
                (normalizeChainId (Trade.destChainId trade)) Hc) as [_ Hcache].
  destruct (GasPriceEstimator.getGasPrice _ _ _) as [price cache1].
  simpl in *. by case_match.
Qed.

(** The scored evaluator, which starts from an empty cache, keeps it so. *)
Lemma collect_fromDefaults evaluateConditions states inFlight now ts h :
  ∀ gas, fromDefaults gas →
         fromDefaults (SolverV2.collect evaluateConditions states inFlight now ts h gas).2.
Proof.
  induction ts as [|transfer ts IH]; intros gas Hgas; simpl; [done|].
  destruct (InFlight.has _ _ _); [by apply IH|].
  destruct (_ && _); [by apply IH|].
  destruct (SolverV2.solve transfer states h) as [trade|]; [|by apply IH].
  pose proof (calculateProfitScore_fromDefaults gas now trade transfer Hgas) as Hgas1.
  destruct (ProfitOptimizer.calculateProfitScore _ _ _ _) as [profitScore gas1].
  simpl in Hgas1. specialize (IH gas1 Hgas1).
  destruct (PrimFloat.ltb _ _); [|done].
  destruct (SolverV2.collect _ _ _ _ ts h gas1). done.
Qed.

(** C9. For a candidate of the scored evaluator (a transfer and the trade
    [solve] builds from it) with [solverFee > 0], the estimated net profit
    is [max 0 (solverFee - 150000 * gasPrice destChainId
    - amountOut * 1000 * 60 / 3600000)] in integer arithmetic (the division
    is that of bigints, which truncates), where [destChainId] is the
    normalized destination chain and [gasPrice] is the table of the
    specification; and the profit score is the quotient, as doubles, of the
    profit by the solver fee. *)
Theorem profit_estimate :
  ∀ cache now transfer,
    fromDefaults cache →
    0 < solverFee (params transfer) →
    let trade := toTrade transfer in
    let destChainId := normalizeChainId (Trade.destChainId trade) in
    let profit :=
      Z.max 0 (solverFee (params transfer)
               - 150000 * gasPrice destChainId
               - (amountOut (params transfer) * 1000 * 60) ÷ 3600000) in
    (ProfitOptimizer.estimateProfit cache now trade transfer).1 = profit
    ∧ (ProfitOptimizer.calculateProfitScore cache now trade transfer).1
      = PrimFloat.div (Number profit) (Number (solverFee (params transfer)))
    ∧ fromDefaults (ProfitOptimizer.calculateProfitScore cache now trade transfer).2.
Proof.
  intros cache now transfer Hc Hfee. cbv zeta.
  destruct (getGasPrice_default cache now
              (normalizeChainId (Trade.destChainId (toTrade transfer))) Hc)
    as [Hprice Hcache].
  assert ((ProfitOptimizer.estimateProfit cache now (toTrade transfer) transfer).1
          = Z.max 0 (solverFee (params transfer)
                     - 150000 * gasPrice (normalizeChainId (Trade.destChainId (toTrade transfer)))
                     - (amountOut (params transfer) * 1000 * 60) ÷ 3600000)
          ∧ fromDefaults (ProfitOptimizer.estimateProfit cache now (toTrade transfer) transfer).2)
    as [Hprofit Hcache'].
  { unfold ProfitOptimizer.estimateProfit, ProfitOptimizer.estimateGasCost,
      ProfitOptimizer.estimateOpportunityCost.
    destruct (GasPriceEstimator.getGasPrice _ _ _) as [price cache'].
    simpl in Hprice, Hcache |- *. subst price. split; [|done].
    case_match; lia. }
  split; [done|].
  unfold ProfitOptimizer.calculateProfitScore.
  destruct (ProfitOptimizer.estimateProfit _ _ _ _) as [profit cache'].
  simpl in Hprofit, Hcache'. subst profit.
  replace (solverFee (params transfer) =? 0) with false by (symmetry; lia).
  done.
Qed.

Lemma profit_estimate_witness :
  (ProfitOptimizer.estimateProfit ∅ 0 Scenario.tradeA
     (Scenario.request Scenario.requestA (4 * Scenario.e18) Scenario.fee)).1
  = Z.max 0 (Scenario.fee - 150000 * gasPrice 31338
             - (4 * Scenario.e18 * 1000 * 60) ÷ 3600000).
Proof.
  pose proof (profit_estimate ∅ 0
                (Scenario.request Scenario.requestA (4 * Scenario.e18) Scenario.fee)
                fromDefaults_empty eq_refl) as H.
  cbv zeta in H. destruct H as [Hprofit _]. exact Hprofit.
Defined.

(* ===================================================================== *)
(** ** A chain that is not configured *)
(* ===================================================================== *)

(** C10. [fetchState] called with a chain id that is not in the solver's
    table of chains ends with an error, not with a list of trades, and
    leaves the state store, table and balances, as it was. *)
Theorem fetchState_unknown_chain :
  ∀ chains this_states chainId inFlight now h,
    chains !! chainId = None →
    ∃ msg, Solver.fetchState chains this_states chainId inFlight now h
           = (Err msg, this_states, h).
Proof.
  intros chains this_states chainId inFlight now h Hnone.
  unfold Solver.fetchState. rewrite Hnone. by eexists.
Qed.

Lemma fetchState_unknown_chain_witness :
  ∃ msg, Solver.fetchState Scenario.chains Scenario.states 1 ∅ 0 Scenario.heap
         = (Err msg, Scenario.states, Scenario.heap).
Proof.
  apply (fetchState_unknown_chain Scenario.chains Scenario.states 1 ∅ 0 Scenario.heap).
  vm_compute. reflexivity.
Defined.

(* ===================================================================== *)
(** ** Request ids in canonical form *)
(* ===================================================================== *)

Lemma length_toLowerCase s : String.length (toLowerCase s) = String.length s.
Proof. induction s as [|c s IH]; simpl; congruence. Qed.

Lemma string_app_cons c (s1 s2 : string) :
  (String c s1 ++ s2)%string = String c (s1 ++ s2)%string.
Proof. reflexivity. Qed.

Lemma string_app_nil (s : string) : (EmptyString ++ s)%string = s.
Proof. reflexivity. Qed.

Lemma length_string_app (s1 s2 : string) :
  String.length (s1 ++ s2)%string = (String.length s1 + String.length s2)%nat.
Proof.
  induction s1 as [|c s1 IH]; [done|].
  rewrite string_app_cons. simpl. congruence.
Qed.

Lemma length_repeatChar c n : String.length (repeatChar c n) = n.
Proof. induction n as [|n IH]; simpl; congruence. Qed.

Lemma length_substring0 m s :
  String.length (String.substring 0 m s) = Nat.min m (String.length s).
Proof.
  revert s. induction m as [|m IH]; intros [|c s]; simpl; try reflexivity.
  by rewrite IH.
Qed.

Lemma substring0_all s : String.substring 0 (String.length s) s = s.
Proof. induction s as [|c s IH]; simpl; congruence. Qed.

Lemma toLowerCase_app (s1 s2 : string) :
  toLowerCase (s1 ++ s2)%string = (toLowerCase s1 ++ toLowerCase s2)%string.
Proof.
  induction s1 as [|c s1 IH]; [done|].
  rewrite string_app_cons. simpl. rewrite string_app_cons. congruence.
Qed.

Lemma toLowerCase_substring n m s :
  toLowerCase (String.substring n m s) = String.substring n m (toLowerCase s).
Proof.
  revert n m. induction s as [|c s IH]; intros [|n] [|m]; simpl; try reflexivity.
  - by rewrite IH.
  - by rewrite IH.
  - by rewrite IH.
Qed.

Lemma toLowerCase_repeat_zero n :
  toLowerCase (repeatChar "0"%char n) = repeatChar "0"%char n.
Proof. induction n as [|n IH]; simpl; [done|]. by rewrite IH. Qed.

Lemma toLowerCase_padStart0 n s :
  toLowerCase (padStart0 n s) = padStart0 n (toLowerCase s).
Proof.
  unfold padStart0. by rewrite toLowerCase_app, toLowerCase_repeat_zero, length_toLowerCase.
Qed.

Lemma length_padStart0 n s :
  String.length (padStart0 n s) = Nat.max n (String.length s).
Proof. unfold padStart0. rewrite length_string_app, length_repeatChar. lia. Qed.

(** The 64 characters [toRequestId] keeps. *)
Lemma toRequestId_digits hex :
  ∃ digits, toRequestId hex = String "0" (String "x" digits)
            ∧ String.length digits = 64%nat
            ∧ toLowerCase digits = digits.
Proof.
  unfold toRequestId. eexists. split; [reflexivity|]. split.
  - rewrite length_toLowerCase, length_substring0, length_padStart0. lia.
  - apply toLowerCase_idemp.
Qed.

Lemma asciiOnly_lowerAscii c :
  (nat_of_ascii c <? 128)%nat = true → (nat_of_ascii (lowerAscii c) <? 128)%nat = true.
Proof. destruct c as [[] [] [] [] [] [] [] []]; vm_compute; congruence. Qed.

Lemma asciiOnly_toLowerCase s : asciiOnly s = true → asciiOnly (toLowerCase s) = true.
Proof.
  induction s as [|c s IH]; simpl; [done|].
  intros [Hc Hs]%andb_true_iff. by rewrite asciiOnly_lowerAscii, IH.
Qed.

Lemma asciiOnly_app (s1 s2 : string) :
  asciiOnly s1 = true → asciiOnly s2 = true → asciiOnly (s1 ++ s2)%string = true.
Proof.
  intros H1 H2. induction s1 as [|c s1 IH]; [done|].
  rewrite string_app_cons. simpl in *. apply andb_true_iff in H1 as [Hc H1].
  by rewrite Hc, IH.
Qed.

Lemma asciiOnly_repeat_zero n : asciiOnly (repeatChar "0"%char n) = true.
Proof. induction n as [|n IH]; simpl; [done|]. exact IH. Qed.

Lemma asciiOnly_substring n m s :
  asciiOnly s = true → asciiOnly (String.substring n m s) = true.
Proof.
  revert n m. induction s as [|c s IH]; intros [|n] [|m]; simpl; try done.
  - intros [Hc Hs]%andb_true_iff. by rewrite Hc, IH.
  - intros [Hc Hs]%andb_true_iff. by apply IH.
  - intros [Hc Hs]%andb_true_iff. by apply IH.
Qed.

(** X1. Whatever ASCII string it is given, [toRequestId] answers an ASCII
    string of 66 characters that starts with [0x] and has no upper-case
    letter. *)
Theorem toRequestId_canonical :
  ∀ hex,
    asciiOnly hex = true →
    String.length (toRequestId hex) = 66%nat
    ∧ String.prefix "0x" (toRequestId hex) = true
    ∧ toLowerCase (toRequestId hex) = toRequestId hex
    ∧ asciiOnly (toRequestId hex) = true.
Proof.
  intros hex Hascii. split; [|split; [|split]].
  - destruct (toRequestId_digits hex) as (digits & -> & Hlen & Hlow).
    cbn [String.length]. by rewrite Hlen.
  - destruct (toRequestId_digits hex) as (digits & -> & Hlen & Hlow).
    by destruct digits.
  - destruct (toRequestId_digits hex) as (digits & -> & Hlen & Hlow).
    cbn [toLowerCase]. by rewrite Hlow.
  - unfold toRequestId. apply (asciiOnly_app "0x"); [done|].
    apply asciiOnly_toLowerCase, asciiOnly_substring.
    unfold padStart0. apply asciiOnly_app; [apply asciiOnly_repeat_zero|].
    destruct (String.prefix "0x" hex); [by apply asciiOnly_substring|done].
Qed.

Lemma toRequestId_canonical_witness :
  String.length (toRequestId "0xAB01") = 66%nat
  ∧ String.prefix "0x" (toRequestId "0xAB01") = true
  ∧ toLowerCase (toRequestId "0xAB01") = toRequestId "0xAB01"
  ∧ asciiOnly (toRequestId "0xAB01") = true.
Proof. apply (toRequestId_canonical "0xAB01"). reflexivity. Defined.

Lemma toRequestId_fixed digits :
  String.length digits = 64%nat →
  toLowerCase digits = digits →
  toRequestId (String "0" (String "x" digits)) = String "0" (String "x" digits).
Proof.
  intros Hlen Hlow. unfold toRequestId.
  change (String.prefix "0x" (String "0" (String "x" digits))) with (String.prefix "" digits).
  replace (String.prefix "" digits) with true by (by destruct digits).
  change (String.length (String "0" (String "x" digits)) - 2)%nat
    with (String.length digits - 0)%nat.
  change (String.substring 2 (String.length digits - 0) (String "0" (String "x" digits)))
    with (String.substring 0 (String.length digits - 0) digits).
  rewrite Nat.sub_0_r, substring0_all.
  unfold padStart0. rewrite Hlen. change (repeatChar "0" (64 - 64)) with EmptyString.
  rewrite string_app_nil. rewrite <- Hlen at 1. rewrite substring0_all, Hlow.
  reflexivity.
Qed.

(** X2. [toRequestId] is idempotent on ASCII strings: an id it produced is
    left as it is. *)
Theorem toRequestId_idempotent :
  ∀ hex, asciiOnly hex = true → toRequestId (toRequestId hex) = toRequestId hex.
Proof.
  intros hex _. destruct (toRequestId_digits hex) as (digits & -> & Hlen & Hlow).
  by apply toRequestId_fixed.
Qed.

Lemma toRequestId_idempotent_witness :
  toRequestId (toRequestId "AB01") = toRequestId "AB01".
Proof. apply (toRequestId_idempotent "AB01"). reflexivity. Defined.

(** X3. Two ASCII spellings of an id that differ only in the case of their
    letters, and that both carry the [0x] prefix or both lack it, get the
    same canonical id. *)
Theorem toRequestId_case_insensitive :
  ∀ hex hex',
    asciiOnly hex = true → asciiOnly hex' = true →
    String.prefix "0x" hex = String.prefix "0x" hex' →
    toLowerCase hex = toLowerCase hex' →
    toRequestId hex = toRequestId hex'.
Proof.
  intros hex hex' _ _ Hpre Hlow. unfold toRequestId. rewrite <- Hpre.
  assert (String.length hex = String.length hex') as Hlen.
  { by rewrite <- (length_toLowerCase hex), Hlow, length_toLowerCase. }
  f_equal. rewrite !toLowerCase_substring, !toLowerCase_padStart0.
  destruct (String.prefix "0x" hex).
  - by rewrite !toLowerCase_substring, Hlow, Hlen.
  - by rewrite Hlow.
Qed.

Lemma toRequestId_case_insensitive_witness :
  toRequestId "0xAB01" = toRequestId "0xab01".
Proof.
  apply (toRequestId_case_insensitive "0xAB01" "0xab01"); vm_compute; reflexivity.
Defined.

(* ===================================================================== *)
(** ** The simple evaluator: what it emits, in what order, at what cost *)
(* ===================================================================== *)

Lemma filter_In_sublist {A} (f : A → bool) (l : list A) : List.filter f l `sublist_of` l.
Proof.
  induction l as [|x l IH]; simpl; [done|].
  destruct (f x); [by apply sublist_skip | by apply sublist_cons].
Qed.

Lemma filter_elem_of {A} (f : A → bool) (l : list A) x :
  x ∈ List.filter f l → x ∈ l ∧ f x = true.
Proof.
  rewrite !list_elem_of_In. apply filter_In.
Qed.

Lemma evaluate_sublist states inFlight now ts :
  ∀ h, (Solver.evaluate states inFlight now ts h).1 `sublist_of` toTrade <$> ts.
Proof.
  induction ts as [|transfer ts IH]; intros h; simpl; [done|].
  destruct (InFlight.has _ _ _); [by apply sublist_cons|].
  destruct (Solver.solve transfer states h) as [[trade|] h1] eqn:Hs.
  - apply solve_Some in Hs as (? & ? & _ & -> & _).
    specialize (IH h1). destruct (Solver.evaluate _ _ _ ts h1). simpl in *.
    by apply sublist_skip.
  - by apply sublist_cons.
Qed.

(** X4. The trades of a tick of the simple evaluator come out in the order
    in which the source chain listed their transfers. *)
Theorem trades_in_source_order :
  ∀ this_states chainId inFlight now h chainState trades h',
    this_states !! chainId = Some chainState →
    Solver.calculateTrades this_states chainId inFlight now h = (Ok trades, h') →
    Trade.requestId <$> trades `sublist_of` requestId <$> transfers chainState.
Proof.
  intros this_states chainId inFlight now h chainState trades h' Hc.
  unfold Solver.calculateTrades. rewrite Hc.
  pose proof (evaluate_sublist this_states inFlight now
                (List.filter (keepUnfulfilled this_states) (transfers chainState)) h) as Hev.
  destruct (Solver.evaluate _ _ _ _ _) as [trades1 h1]. simpl in Hev.
  intros [= <- <-]. rewrite <- requestId_toTrade. apply fmap_sublist.
  etrans; [exact Hev|]. apply fmap_sublist, filter_In_sublist.
Qed.

Lemma trades_in_source_order_witness :
  Trade.requestId <$> [Scenario.tradeA]
    `sublist_of` requestId <$> Scenario.twoRequests.
Proof.
  apply (trades_in_source_order Scenario.states 31337 ∅ 0 Scenario.heap
           (Scenario.chainStateOf 1%positive Scenario.twoRequests) [Scenario.tradeA]
           (Solver.calculateTrades Scenario.states 31337 ∅ 0 Scenario.heap).2).
  - vm_compute. reflexivity.
  - apply (pair_eta _ (Ok [Scenario.tradeA])). vm_compute. reflexivity.
Defined.

Lemma evaluate_sound states inFlight now ts :
  ∀ h trades h',
    Solver.evaluate states inFlight now ts h = (trades, h') →
    ∀ trade, trade ∈ trades →
      ∃ transfer, transfer ∈ ts ∧ trade = toTrade transfer
                  ∧ passesChecks states inFlight now 1 transfer.
Proof.
  induction ts as [|transfer ts IH]; intros h trades h'; simpl.
  - intros [= <- <-] trade Hin. by apply elem_of_nil in Hin.
  - destruct (InFlight.has _ _ _) eqn:Hfl.
    { intros Hev trade Hin. destruct (IH _ _ _ Hev trade Hin) as (tf & ? & ? & ?).
      exists tf. split; [by apply list_elem_of_further|done]. }
    destruct (Solver.solve transfer states h) as [[trade0|] h1] eqn:Hs.
    + destruct (Solver.evaluate states inFlight now ts h1) as [trades1 h2] eqn:Hev.
      intros [= <- <-] trade [->|Hin]%elem_of_cons.
      * apply solve_Some in Hs as (destState & tokenBalance & Hem & -> & _).
        destruct Hem as [Hd He Hf Hn _ _ _ Hfee].
        exists transfer. split; [apply list_elem_of_here|]. split; [done|].
        repeat split; try done. by exists destState.
      * destruct (IH _ _ _ Hev trade Hin) as (tf & ? & ? & ?).
        exists tf. split; [by apply list_elem_of_further|done].
    + intros Hev trade Hin. destruct (IH _ _ _ Hev trade Hin) as (tf & ? & ? & ?).
      exists tf. split; [by apply list_elem_of_further|done].
Qed.

Lemma calculateTrades_sound :
  ∀ this_states chainId inFlight now h chainState trades h' trade,
    this_states !! chainId = Some chainState →
    Solver.calculateTrades this_states chainId inFlight now h = (Ok trades, h') →
    trade ∈ trades →
    ∃ transfer,
      transfer ∈ transfers chainState
      ∧ trade = toTrade transfer
      ∧ passesChecks this_states inFlight now 1 transfer.
Proof.
  intros this_states chainId inFlight now h chainState trades h' trade Hc.
  unfold Solver.calculateTrades. rewrite Hc.
  destruct (Solver.evaluate _ _ _ _ _) as [trades1 h1] eqn:Hev.
  intros [= <- <-] Hin.
  destruct (evaluate_sound _ _ _ _ _ _ _ Hev trade Hin) as (tf & Htf & ? & ?).
  exists tf. split; [|done]. by apply filter_elem_of in Htf as [? _].
Qed.

(** X5. Every trade a tick of the simple evaluator returns is the trade of a
    transfer the chain lists, whose request id is not in flight, which is
    not executed, whose fee is at least 1, and whose destination chain has a
    known state with a non-zero native balance and no fulfilled id equal to
    it up to letter case. *)
Theorem emitted_trades_pass_checks :
  ∀ this_states chainId inFlight now h chainState trades h' trade,
    this_states !! chainId = Some chainState →
    Solver.calculateTrades this_states chainId inFlight now h = (Ok trades, h') →
    trade ∈ trades →
    ∃ transfer,
      transfer ∈ transfers chainState
      ∧ trade = toTrade transfer
      ∧ passesChecks this_states inFlight now 1 transfer.
Proof. exact calculateTrades_sound. Qed.

Lemma emitted_trades_pass_checks_witness :
  ∃ transfer,
    transfer ∈ Scenario.twoRequests
    ∧ Scenario.tradeA = toTrade transfer
    ∧ passesChecks Scenario.states ∅ 0 1 transfer.
Proof.
  apply (emitted_trades_pass_checks Scenario.states 31337 ∅ 0 Scenario.heap
           (Scenario.chainStateOf 1%positive Scenario.twoRequests) [Scenario.tradeA]
           (Solver.calculateTrades Scenario.states 31337 ∅ 0 Scenario.heap).2
           Scenario.tradeA).
  - vm_compute. reflexivity.
  - apply (pair_eta _ (Ok [Scenario.tradeA])). vm_compute. reflexivity.
  - apply list_elem_of_here.
Defined.

Lemma drawsOn_toTrade states transfer destState l k :
  states !! normalizeChainId (dstChainId (params transfer)) = Some destState →
  drawsOn states l k (toTrade transfer)
  = bool_decide (tokenBalances destState = l)
    && bool_decide (toLowerCase (tokenOut (params transfer)) = k).
Proof. intros Hd. unfold drawsOn. simpl. by rewrite Hd. Qed.

(** The accounting of the inventory commit: every balance ends as it began
    less what the emitted trades draw on it; no key appears or disappears. *)
Lemma evaluate_accounting states inFlight now ts :
  ∀ h trades h',
    Solver.evaluate states inFlight now ts h = (trades, h') →
    ∀ l k, mapGet h' l k = (λ b, b - debited states l k trades) <$> mapGet h l k.
Proof.
  induction ts as [|transfer ts IH]; intros h trades h'; simpl.
  - intros [= <- <-] l k. simpl. destruct (mapGet h l k); simpl; f_equal; lia.
  - destruct (InFlight.has _ _ _); [by apply IH|].
    destruct (Solver.solve transfer states h) as [[trade|] h1] eqn:Hs.
    + destruct (Solver.evaluate states inFlight now ts h1) as [trades1 h2] eqn:Hev.
      intros [= <- <-] l k.
      apply solve_Some in Hs as (destState & tokenBalance & Hem & -> & ->).
      destruct Hem as [Hd _ _ _ Hbal _ _ _].
      rewrite (IH _ _ _ Hev l k). simpl.
      rewrite (drawsOn_toTrade _ _ _ _ _ Hd), mapGet_mapSet.
      destruct (decide (tokenBalances destState = l
                        ∧ toLowerCase (tokenOut (params transfer)) = k)) as [[<- <-]|Hne].
      * rewrite !bool_decide_eq_true_2 by done. rewrite Hbal. simpl. f_equal. lia.
      * replace (bool_decide (tokenBalances destState = l)
                 && bool_decide (toLowerCase (tokenOut (params transfer)) = k))
          with false.
        { destruct (mapGet h l k); simpl; f_equal; lia. }
        symmetry. apply andb_false_iff.
        destruct (decide (tokenBalances destState = l)) as [Hl|Hl].
        -- right. apply bool_decide_eq_false_2. intros Hk. by apply Hne.
        -- left. by apply bool_decide_eq_false_2.
    + apply solve_None in Hs as ->. by apply IH.
Qed.

Lemma evaluate_nil_heap states inFlight now ts :
  ∀ h h', Solver.evaluate states inFlight now ts h = ([], h') → h' = h.
Proof.
  induction ts as [|transfer ts IH]; intros h h'; simpl.
  - by intros [= <-].
  - destruct (InFlight.has _ _ _); [by apply IH|].
    destruct (Solver.solve transfer states h) as [[trade|] h1] eqn:Hs.
    + destruct (Solver.evaluate states inFlight now ts h1). discriminate.
    + apply solve_None in Hs as ->. by apply IH.
Qed.

Lemma commit_accounting_lemma this_states chainId inFlight now h trades h' :
  Solver.calculateTrades this_states chainId inFlight now h = (Ok trades, h') →
  ∀ l k, mapGet h' l k = (λ b, b - debited this_states l k trades) <$> mapGet h l k.
Proof.
  unfold Solver.calculateTrades.
  destruct (this_states !! chainId) as [chainState|]; [|discriminate].
  destruct (Solver.evaluate _ _ _ _ _) as [trades1 h1] eqn:Hev.
  intros [= <- <-]. by eapply evaluate_accounting.
Qed.

(** X6. The accounting of a tick of the simple evaluator is exact: each
    token balance of each map ends as it began less the amounts of the
    emitted trades that draw on it, a token without a balance stays without
    one, and a tick that emits no trade leaves the heap as it was. *)
Theorem commit_accounting :
  ∀ this_states chainId inFlight now h trades h',
    Solver.calculateTrades this_states chainId inFlight now h = (Ok trades, h') →
    (∀ l k, mapGet h' l k = (λ b, b - debited this_states l k trades) <$> mapGet h l k)
    ∧ (trades = [] → h' = h).
Proof.
  intros this_states chainId inFlight now h trades h'.
  unfold Solver.calculateTrades.
  destruct (this_states !! chainId) as [chainState|]; [|discriminate].
  destruct (Solver.evaluate _ _ _ _ _) as [trades1 h1] eqn:Hev.
  intros [= <- <-]. split.
  - by eapply evaluate_accounting.
  - intros ->. by eapply evaluate_nil_heap.
Qed.

Lemma commit_accounting_witness :
  mapGet (Solver.calculateTrades Scenario.states 31337 ∅ 0 Scenario.heap).2
         2%positive Scenario.token
  = (λ b, b - debited Scenario.states 2%positive Scenario.token [Scenario.tradeA])
    <$> mapGet Scenario.heap 2%positive Scenario.token.
Proof.
  destruct (commit_accounting Scenario.states 31337 ∅ 0 Scenario.heap
              [Scenario.tradeA]
              (Solver.calculateTrades Scenario.states 31337 ∅ 0 Scenario.heap).2)
    as [Hbalance _].
  - apply (pair_eta _ (Ok [Scenario.tradeA])). vm_compute. reflexivity.
  - apply Hbalance.
Defined.

(* ===================================================================== *)
(** ** The state store across ticks *)
(* ===================================================================== *)

Lemma newChainState_fresh snap h : tokenBalances (newChainState snap h).1 ∉ dom h.
Proof. unfold newChainState. simpl. apply is_fresh. Qed.

Lemma wfStore_newChainState states h chainId snap :
  wfStore states h →
  wfStore (<[chainId := (newChainState snap h).1]> states) (newChainState snap h).2.
Proof.
  intros [Halloc Hinj]. pose proof (newChainState_fresh snap h) as Hfresh.
  unfold newChainState in *. simpl in *. split.
  - intros c st. rewrite dom_insert_L. destruct (decide (chainId = c)) as [<-|Hc].
    + rewrite lookup_insert_eq. intros [= <-]. simpl.
      apply elem_of_union. left. by apply elem_of_singleton.
    + rewrite lookup_insert_ne by done. intros Hst. apply Halloc in Hst.
      apply elem_of_union. by right.
  - intros c1 c2 st1 st2.
    destruct (decide (chainId = c1)) as [<-|Hc1], (decide (chainId = c2)) as [<-|Hc2];
      rewrite ?lookup_insert_eq, ?lookup_insert_ne by done; try done.
    + intros [= <-] Hst2 Heq. simpl in Heq. apply Halloc in Hst2.
      rewrite <- Heq in Hst2. done.
    + intros Hst1 [= <-] Heq. simpl in Heq. apply Halloc in Hst1.
      rewrite Heq in Hst1. done.
    + apply Hinj.
Qed.

Lemma dom_mapSet h l k v : dom (mapSet h l k v) = {[l]} ∪ dom h.
Proof. unfold mapSet. apply dom_insert_L. Qed.

Lemma evaluate_dom states inFlight now ts :
  ∀ h trades h',
    Solver.evaluate states inFlight now ts h = (trades, h') → dom h ⊆ dom h'.
Proof.
  induction ts as [|transfer ts IH]; intros h trades h'; simpl.
  - by intros [= <- <-].
  - destruct (InFlight.has _ _ _); [by apply IH|].
    destruct (Solver.solve transfer states h) as [[trade|] h1] eqn:Hs.
    + destruct (Solver.evaluate states inFlight now ts h1) as [trades1 h2] eqn:Hev.
      intros [= <- <-].
      apply solve_Some in Hs as (destState & tokenBalance & _ & _ & ->).
      apply IH in Hev. rewrite dom_mapSet in Hev.
      intros x Hx. apply Hev, elem_of_union. by right.
    + apply solve_None in Hs as ->. by apply IH.
Qed.

Lemma wfStore_heap_grows states h h' : wfStore states h → dom h ⊆ dom h' → wfStore states h'.
Proof.
  intros [Halloc Hinj] Hsub. split; [|done].
  intros c st Hst. apply Halloc in Hst. by apply Hsub.
Qed.

Lemma calculateTrades_dom this_states chainId inFlight now h r h' :
  Solver.calculateTrades this_states chainId inFlight now h = (r, h') → dom h ⊆ dom h'.
Proof.
  unfold Solver.calculateTrades.
  destruct (this_states !! chainId) as [chainState|]; [|by intros [= <- <-]].
  destruct (Solver.evaluate _ _ _ _ _) as [trades1 h1] eqn:Hev.
  intros [= <- <-]. by eapply evaluate_dom.
Qed.

(** X7. A tick keeps the state store well formed: after [fetchState],
    whether it ends with trades or with an error, every chain state still
    holds an allocated balance map and no two chains share one. *)
Theorem fetchState_keeps_store_well_formed :
  ∀ chains this_states chainId inFlight now h,
    wfStore this_states h →
    wfStore (Solver.fetchState chains this_states chainId inFlight now h).1.2
            (Solver.fetchState chains this_states chainId inFlight now h).2.
Proof.
  intros chains this_states chainId inFlight now h Hwf. unfold Solver.fetchState.
  destruct (chains !! chainId) as [[snap|]|]; [|done..].
  pose proof (wfStore_newChainState _ _ chainId snap Hwf) as Hwf1.
  destruct (newChainState snap h) as [updatedState h1]. simpl in Hwf1.
  destruct (Solver.calculateTrades _ _ _ _ _) as [r h2] eqn:Hrun. simpl.
  eapply wfStore_heap_grows; [exact Hwf1|]. by eapply calculateTrades_dom.
Qed.

Lemma fetchState_keeps_store_well_formed_witness :
  wfStore (Solver.fetchState Scenario.chains Scenario.states 31337 ∅ 0 Scenario.heap).1.2
          (Solver.fetchState Scenario.chains Scenario.states 31337 ∅ 0 Scenario.heap).2.
Proof.
  apply (fetchState_keeps_store_well_formed Scenario.chains Scenario.states 31337 ∅ 0
           Scenario.heap).
  assert (Hlookup : ∀ c st, Scenario.states !! c = Some st →
            (c = 31337 ∧ tokenBalances st = 1%positive)
            ∨ (c = 31338 ∧ tokenBalances st = 2%positive)).
  { intros c st H. unfold Scenario.states, Scenario.statesWith in H.
    apply lookup_insert_Some in H as [[<- <-]|[_ H]]; [left; split; reflexivity|].
    apply lookup_singleton_Some in H as [<- <-]. right; split; reflexivity. }
  split.
  - intros c st H. apply elem_of_dom.
    destruct (Hlookup c st H) as [[_ ->]|[_ ->]]; eexists; reflexivity.
  - intros c1 c2 st1 st2 H1 H2 Heq.
    destruct (Hlookup c1 st1 H1) as [[-> E1]|[-> E1]];
      destruct (Hlookup c2 st2 H2) as [[-> E2]|[-> E2]];
      try reflexivity; rewrite E1, E2 in Heq; discriminate.
Defined.

Lemma fetchState_refresh :
  ∀ chains this_states chainId inFlight now h snap,
    chains !! chainId = Some (Some snap) →
    ∃ trades state,
      (Solver.fetchState chains this_states chainId inFlight now h).1.1 = Ok trades
      ∧ (Solver.fetchState chains this_states chainId inFlight now h).1.2
        = <[chainId := state]> this_states
      ∧ nativeBalance state = snapNativeBalance snap
      ∧ transfers state = snapTransfers snap
      ∧ alreadyFulfilled state = snapAlreadyFulfilled snap
      ∧ (tokenBalances state ∉ dom h)
      ∧ (∀ k, mapGet (Solver.fetchState chains this_states chainId inFlight now h).2
                     (tokenBalances state) k
              = (λ b, b - debited (<[chainId := state]> this_states)
                                  (tokenBalances state) k trades)
                <$> snapTokenBalances snap !! k)
      ∧ (∀ l k, l ∈ dom h →
                mapGet (Solver.fetchState chains this_states chainId inFlight now h).2 l k
                = (λ b, b - debited (<[chainId := state]> this_states) l k trades)
                  <$> mapGet h l k).
Proof.
  intros chains this_states chainId inFlight now h snap Hchain.
  unfold Solver.fetchState. rewrite Hchain.
  pose proof (newChainState_fresh snap h) as Hfresh.
  unfold newChainState in *. simpl in Hfresh.
  set (l := fresh (dom h)) in *.
  set (state := {| nativeBalance := snapNativeBalance snap; tokenBalances := l;
                   transfers := snapTransfers snap;
                   alreadyFulfilled := snapAlreadyFulfilled snap |}).
  set (h1 := <[l := snapTokenBalances snap]> h).
  cbv zeta.
  destruct (Solver.calculateTrades (<[chainId := state]> this_states) chainId inFlight now h1)
    as [r h2] eqn:Hrun.
  assert (∃ trades, r = Ok trades) as [trades ->].
  { revert Hrun. unfold Solver.calculateTrades. rewrite lookup_insert_eq.
    destruct (Solver.evaluate _ _ _ _ _) as [trades1 h3]. intros [= <- _]. by eexists. }
  pose proof (commit_accounting_lemma _ _ _ _ _ _ _ Hrun) as Hacc. clear Hrun.
  exists trades, state. simpl. repeat split; try done.
  - intros k. rewrite Hacc. unfold mapGet, deref, h1. by rewrite lookup_insert_eq.
  - intros l' k Hl'. rewrite Hacc.
    assert (l ≠ l') as Hne by (intros ->; done).
    unfold mapGet, deref, h1. by rewrite lookup_insert_ne.
Qed.

(** X8. When the chain is configured and its client answers, [fetchState]
    ends with a list of trades (never with an error); it replaces the state
    of that chain, and of that chain only, by a state with the fetched
    native balance, transfers and fulfilled ids and a newly allocated
    balance map; and after it each balance is the fetched one (for the new
    map) or the one held before (for the maps of the other chains), less
    what the returned trades draw on it. *)
Theorem fetchState_refreshes_one_chain :
  ∀ chains this_states chainId inFlight now h snap,
    chains !! chainId = Some (Some snap) →
    ∃ trades state,
      (Solver.fetchState chains this_states chainId inFlight now h).1.1 = Ok trades
      ∧ (Solver.fetchState chains this_states chainId inFlight now h).1.2
        = <[chainId := state]> this_states
      ∧ nativeBalance state = snapNativeBalance snap
      ∧ transfers state = snapTransfers snap
      ∧ alreadyFulfilled state = snapAlreadyFulfilled snap
      ∧ (tokenBalances state ∉ dom h)
      ∧ (∀ k, mapGet (Solver.fetchState chains this_states chainId inFlight now h).2
                     (tokenBalances state) k
              = (λ b, b - debited (<[chainId := state]> this_states)
                                  (tokenBalances state) k trades)
                <$> snapTokenBalances snap !! k)
      ∧ (∀ l k, l ∈ dom h →
                mapGet (Solver.fetchState chains this_states chainId inFlight now h).2 l k
                = (λ b, b - debited (<[chainId := state]> this_states) l k trades)
                  <$> mapGet h l k).
Proof. exact fetchState_refresh. Qed.

Lemma fetchState_refreshes_one_chain_witness :
  ∃ trades state,
    (Solver.fetchState Scenario.chains Scenario.states 31337 ∅ 0 Scenario.heap).1.1
    = Ok trades
    ∧ (Solver.fetchState Scenario.chains Scenario.states 31337 ∅ 0 Scenario.heap).1.2
      = <[31337 := state]> Scenario.states
    ∧ nativeBalance state = Scenario.e18
    ∧ transfers state = Scenario.twoRequests.
Proof.
  destruct (fetchState_refreshes_one_chain Scenario.chains Scenario.states 31337 ∅ 0
              Scenario.heap Example.answer eq_refl)
    as (trades & state & Hok & Hstore & Hnative & Htransfers & _).
  exists trades, state. repeat split; assumption.
Defined.

Lemma solverFromLoop_Ok entries :
  ∀ states h states' h',
    solverFromLoop entries states h = Ok (states', h') →
    wfStore states h →
    wfStore states' h'
    ∧ (∀ l, l ∈ dom h → h' !! l = h !! l)
    ∧ (∀ c, is_Some (states' !! c) ↔ is_Some (states !! c) ∨ c ∈ entries.*1)
    ∧ (∀ c state, states' !! c = Some state →
         states !! c = Some state
         ∨ ∃ snap, (c, Some snap) ∈ entries
                   ∧ nativeBalance state = snapNativeBalance snap
                   ∧ deref h' (tokenBalances state) = snapTokenBalances snap
                   ∧ transfers state = snapTransfers snap
                   ∧ alreadyFulfilled state = snapAlreadyFulfilled snap).
Proof.
  induction entries as [|[chainId [snap|]] entries IH]; intros states h states' h'; simpl.
  - intros [= <- <-] Hwf. split; [done|]. split; [done|]. split.
    + intros c. split; [by left|]. by intros [?|?%elem_of_nil].
    + intros c state ?. by left.
  - pose proof (wfStore_newChainState states h chainId snap) as Hwf1.
    pose proof (newChainState_fresh snap h) as Hfresh.
    unfold newChainState in Hwf1, Hfresh. simpl in Hwf1, Hfresh.
    set (state0 := {| nativeBalance := snapNativeBalance snap;
                      tokenBalances := fresh (dom h);
                      transfers := snapTransfers snap;
                      alreadyFulfilled := snapAlreadyFulfilled snap |}) in *.
    set (h1 := <[fresh (dom h) := snapTokenBalances snap]> h) in *.
    intros Hloop Hwf. specialize (Hwf1 Hwf).
    destruct (IH _ _ _ _ Hloop Hwf1) as (Hwf' & Hkeep & Hdom & Hcontent).
    assert (h1 = <[tokenBalances state0 := snapTokenBalances snap]> h
            ∧ nativeBalance state0 = snapNativeBalance snap
            ∧ transfers state0 = snapTransfers snap
            ∧ alreadyFulfilled state0 = snapAlreadyFulfilled snap) as (Hh1 & Hn & Ht & Hf)
      by done.
    change (fresh (dom h)) with (tokenBalances state0) in Hfresh.
    clearbody state0 h1.
    split; [done|]. split; [|split].
    + intros l Hl. rewrite Hkeep.
      * rewrite Hh1. apply lookup_insert_ne. intros <-. done.
      * rewrite Hh1, dom_insert_L. apply elem_of_union. by right.
    + intros c. rewrite Hdom. destruct (decide (chainId = c)) as [<-|Hc].
      * rewrite lookup_insert_eq. split; [intros _|intros _; left; by eexists].
        right. apply list_elem_of_here.
      * rewrite lookup_insert_ne by done. rewrite elem_of_cons.
        intuition congruence.
    + intros c state Hstate. destruct (Hcontent c state Hstate) as [Hold|Hnewer].
      * destruct (decide (chainId = c)) as [<-|Hc].
        -- rewrite lookup_insert_eq in Hold. injection Hold as <-.
           right. exists snap. split; [apply list_elem_of_here|].
           repeat split; try done.
           unfold deref. rewrite Hkeep.
           ++ by rewrite Hh1, lookup_insert_eq.
           ++ rewrite Hh1, dom_insert_L. apply elem_of_union. left. by apply elem_of_singleton.
        -- rewrite lookup_insert_ne in Hold by done. by left.
      * destruct Hnewer as (snap' & Hin & ?). right. exists snap'.
        split; [by apply list_elem_of_further|done].
  - discriminate.
Qed.

Lemma solverFromLoop_answered entries :
  Forall (λ e : Z * option Snapshot, is_Some e.2) entries →
  ∀ states h, ∃ states' h', solverFromLoop entries states h = Ok (states', h').
Proof.
  induction 1 as [|[chainId chain] entries [snap Hsnap] _ IH]; intros states h; simpl.
  - by eexists _, _.
  - simpl in Hsnap. subst chain. destruct (newChainState snap h). apply IH.
Qed.

Lemma solverFromLoop_throws entries c :
  (c, None) ∈ entries → ∀ states h, ∃ msg, solverFromLoop entries states h = Err msg.
Proof.
  induction entries as [|[chainId [snap|]] entries IH]; intros Hin states h; simpl.
  - by apply elem_of_nil in Hin.
  - apply elem_of_cons in Hin as [[=]|Hin]. destruct (newChainState snap h). by apply IH.
  - by eexists.
Qed.

Lemma wfStore_empty h : wfStore ∅ h.
Proof. split; intros *; by rewrite lookup_empty. Qed.

(** X9. [Solver.from] succeeds exactly when every chain client answers its
    [fetchState]; the solver it builds then has a state for each configured
    chain and for no other, each state carries what its client answered
    with a balance map of its own, and the store is well formed. If one
    client throws, [from] throws. *)
Theorem solverFrom_initial_store :
  ∀ entries h,
    (Forall (λ e : Z * option Snapshot, is_Some e.2) entries →
     ∃ states' h',
       solverFrom entries h = Ok (states', h')
       ∧ wfStore states' h'
       ∧ (∀ c, is_Some (states' !! c) ↔ c ∈ entries.*1)
       ∧ (∀ c state, states' !! c = Some state →
            ∃ snap, (c, Some snap) ∈ entries
                    ∧ nativeBalance state = snapNativeBalance snap
                    ∧ deref h' (tokenBalances state) = snapTokenBalances snap
                    ∧ transfers state = snapTransfers snap
                    ∧ alreadyFulfilled state = snapAlreadyFulfilled snap))
    ∧ (∀ c, (c, None) ∈ entries → ∃ msg, solverFrom entries h = Err msg).
Proof.
  intros entries h. split.
  - intros Hall. destruct (solverFromLoop_answered entries Hall ∅ h) as (states' & h' & Hrun).
    exists states', h'. split; [done|].
    destruct (solverFromLoop_Ok _ _ _ _ _ Hrun (wfStore_empty h))
      as (Hwf & _ & Hdom & Hcontent).
    split; [done|]. split.
    + intros c. rewrite Hdom, lookup_empty. split; [intros [[? [=]]|?]; done|by right].
    + intros c state Hstate. destruct (Hcontent c state Hstate) as [Hold|?]; [|done].
      by rewrite lookup_empty in Hold.
  - intros c Hin. by eapply solverFromLoop_throws.
Qed.

Lemma solverFrom_initial_store_witness :
  ∃ states' h',
    solverFrom Example.entries ∅ = Ok (states', h')
    ∧ wfStore states' h'
    ∧ (∀ c, is_Some (states' !! c) ↔ c ∈ Example.entries.*1).
Proof.
  assert (Hall : Forall (λ e : Z * option Snapshot, is_Some e.2) Example.entries).
  { repeat constructor; eexists; reflexivity. }
  destruct (proj1 (solverFrom_initial_store Example.entries ∅) Hall)
    as (states' & h' & Hok & Hwf & Hdom & _).
  exists states', h'. split; [exact Hok|]. split; [exact Hwf|]. exact Hdom.
Defined.

(* ===================================================================== *)
(** ** The scored evaluator: candidates, risk and accounting *)
(* ===================================================================== *)

Lemma solveV2_inv transfer states h trade :
  SolverV2.solve transfer states h = Some trade →
  ∃ destState tokenBalance,
    Emits transfer states h destState tokenBalance
    ∧ RiskManager.minSolverFee <= solverFee (params transfer)
    ∧ trade = toTrade transfer.
Proof.
  unfold SolverV2.solve.
  destruct (states !! _) as [destState|] eqn:Hd; [|discriminate].
  destruct (executed _) eqn:He; [discriminate|].
  destruct (isFulfilled _ _) eqn:Hf; [discriminate|].
  destruct (nativeBalance destState =? 0) eqn:Hn; [discriminate|].
  destruct (mapGet _ _ _) as [tokenBalance|] eqn:Hb; [|discriminate].
  destruct (_ || _) eqn:Hlow; [discriminate|].
  destruct (solverFee _ <? RiskManager.minSolverFee) eqn:Hfee; [discriminate|].
  intros [= <-]. apply orb_false_iff in Hlow as [H0 Hlt].
  exists destState, tokenBalance. unfold RiskManager.minSolverFee in *.
  split; [|split; [lia|done]]. split; try done; lia.
Qed.

(** X10. A transfer the scored evaluator's [solve] accepts is accepted by
    the simple evaluator's [solve] on the same states, with the same trade:
    the scored variant only raises the minimum fee and leaves the debit to
    its commit pass. *)
Theorem scored_solve_refines_simple :
  ∀ transfer states h trade,
    SolverV2.solve transfer states h = Some trade →
    (Solver.solve transfer states h).1 = Some trade
    ∧ RiskManager.minSolverFee <= solverFee (params transfer).
Proof.
  intros transfer states h trade Hs.
  apply solveV2_inv in Hs as (destState & tokenBalance & Hem & Hfee & ->).
  by rewrite (solve_Emits _ _ _ _ _ Hem).
Qed.

Lemma scored_solve_refines_simple_witness :
  (Solver.solve Example.requestOfA Scenario.states Scenario.heap).1 = Some Scenario.tradeA
  ∧ RiskManager.minSolverFee <= Scenario.fee.
Proof.
  apply (scored_solve_refines_simple Example.requestOfA Scenario.states Scenario.heap
           Scenario.tradeA).
  vm_compute. reflexivity.
Defined.

Lemma assessRisk_of_signs (a b c : bool) :
  PrimFloat.ltb
    (PrimFloat.div
       (fold_left PrimFloat.add
          [ if a then 0.5%float else 0.1%float; 0.1%float;
            if b then 0.6%float else 0.2%float;
            if c then 0.5%float else 0.1%float ] 0%float)
       (Number (Z.of_nat 4)))
    RiskManager.maxRisk
  = negb (atLeastTwo a b c).
Proof. destruct a, b, c; vm_compute; reflexivity. Qed.

(** X11. For a candidate, that is a transfer [solve] of the scored evaluator
    accepts, the risk manager lets the trade through (risk below 0.3)
    exactly when fewer than two of three warning signs are present: the
    double quotient [Number(tokenBalance) / Number(amountOut)] is below the
    double 1.1; the destination native balance is under 0.1 ETH; the sender
    or the recipient is the zero address. *)
Theorem risk_filter_on_candidates :
  ∀ transfer states h trade,
    SolverV2.solve transfer states h = Some trade →
    ∃ destState tokenBalance,
      states !! normalizeChainId (dstChainId (params transfer)) = Some destState
      ∧ mapGet h (tokenBalances destState) (toLowerCase (tokenOut (params transfer)))
        = Some tokenBalance
      ∧ PrimFloat.ltb (RiskManager.assessRisk trade transfer states h) RiskManager.maxRisk
        = negb (atLeastTwo (thinLiquidity tokenBalance (amountOut (params transfer)))
                           (lowGas destState)
                           (zeroParty transfer)).
Proof.
  intros transfer states h trade Hs.
  apply solveV2_inv in Hs as (destState & tokenBalance & Hem & Hfee & ->).
  destruct Hem as [Hd _ _ Hn Hb Hnz Hcov _].
  exists destState, tokenBalance. split; [done|]. split; [done|].
  rewrite <- assessRisk_of_signs.
  unfold RiskManager.assessRisk. f_equal. f_equal.
  unfold RiskManager.assessLiquidityRisk, RiskManager.assessFeeRisk,
    RiskManager.assessExecutionRisk, RiskManager.assessCounterpartyRisk.
  cbn [Trade.destChainId Trade.tokenOutAddr Trade.swapAmount toTrade].
  rewrite Hd, Hb. change (default 0 (Some tokenBalance)) with tokenBalance.
  replace (tokenBalance =? 0) with false by (symmetry; lia).
  replace (tokenBalance <? amountOut (params transfer)) with false by (symmetry; lia).
  replace (solverFee (params transfer) <? RiskManager.minSolverFee) with false
    by (symmetry; lia).
  replace (nativeBalance destState =? 0) with false by (symmetry; lia).
  reflexivity.
Qed.

Lemma risk_filter_on_candidates_witness :
  (∃ destState tokenBalance,
     Scenario.states !! normalizeChainId (dstChainId (params Example.requestOfA))
     = Some destState
     ∧ mapGet Scenario.heap (tokenBalances destState)
              (toLowerCase (tokenOut (params Example.requestOfA)))
       = Some tokenBalance
     ∧ PrimFloat.ltb
         (RiskManager.assessRisk Scenario.tradeA Example.requestOfA Scenario.states
            Scenario.heap)
         RiskManager.maxRisk
       = negb (atLeastTwo
                 (thinLiquidity tokenBalance (amountOut (params Example.requestOfA)))
                 (lowGas destState)
                 (zeroParty Example.requestOfA)))
  ∧ thinLiquidity (1100000000000000000 - 1) Scenario.e18 = false
  ∧ PrimFloat.ltb
      (RiskManager.assessRisk (toTrade Scenario.single) Scenario.single
         Example.lowGasStates Example.shortHeap)
      RiskManager.maxRisk
    = true.
Proof.
  split; [|split].
  - apply (risk_filter_on_candidates Example.requestOfA Scenario.states Scenario.heap
             Scenario.tradeA).
    vm_compute. reflexivity.
  - vm_compute. reflexivity.
  - destruct (risk_filter_on_candidates Scenario.single Example.lowGasStates
                Example.shortHeap (toTrade Scenario.single))
      as (destState & tokenBalance & Hstate & Hbalance & Hrisk).
    + vm_compute. reflexivity.
    + vm_compute in Hstate. injection Hstate as <-.
      vm_compute in Hbalance. injection Hbalance as <-.
      rewrite Hrisk. vm_compute. reflexivity.
Defined.

(** What the collecting loop has established of a candidate. *)
Lemma collect_sound evaluateConditions states inFlight now ts h :
  ∀ gas c,
    c ∈ (SolverV2.collect evaluateConditions states inFlight now ts h gas).1 →
    SolverV2.transfer c ∈ ts
    ∧ InFlight.has inFlight now (requestId (SolverV2.transfer c)) = false
    ∧ (conditions (SolverV2.transfer c) = []
       ∨ evaluateConditions (conditions (SolverV2.transfer c)) (SolverV2.transfer c)
           states h = true)
    ∧ SolverV2.solve (SolverV2.transfer c) states h = Some (SolverV2.trade c)
    ∧ PrimFloat.ltb (RiskManager.assessRisk (SolverV2.trade c) (SolverV2.transfer c) states h)
                    RiskManager.maxRisk = true.
Proof.
  induction ts as [|transfer ts IH]; intros gas c; simpl.
  - by intros ?%elem_of_nil.
  - assert (∀ gas', c ∈ (SolverV2.collect evaluateConditions states inFlight now ts h gas').1 →
             SolverV2.transfer c ∈ transfer :: ts
             ∧ InFlight.has inFlight now (requestId (SolverV2.transfer c)) = false
             ∧ (conditions (SolverV2.transfer c) = []
                ∨ evaluateConditions (conditions (SolverV2.transfer c)) (SolverV2.transfer c)
                    states h = true)
             ∧ SolverV2.solve (SolverV2.transfer c) states h = Some (SolverV2.trade c)
             ∧ PrimFloat.ltb
                 (RiskManager.assessRisk (SolverV2.trade c) (SolverV2.transfer c) states h)
                 RiskManager.maxRisk = true) as Hrest.
    { intros gas' Hin. destruct (IH gas' c Hin) as (? & ?).
      split; [by apply list_elem_of_further|done]. }
    destruct (InFlight.has inFlight now (requestId transfer)) eqn:Hfl; [apply Hrest|].
    destruct (negb (bool_decide (conditions transfer = []))
              && negb (evaluateConditions (conditions transfer) transfer states h))
      eqn:Hcond; [apply Hrest|].
    destruct (SolverV2.solve transfer states h) as [trade|] eqn:Hs; [|apply Hrest].
    destruct (ProfitOptimizer.calculateProfitScore _ _ _ _) as [profitScore gas1].
    destruct (PrimFloat.ltb (RiskManager.assessRisk trade transfer states h)
                RiskManager.maxRisk) eqn:Hrisk; [|apply Hrest].
    destruct (SolverV2.collect _ _ _ _ ts h gas1) as [potentialTrades gas2] eqn:Hcol.
    simpl. intros [->|Hin]%elem_of_cons.
    + simpl. split; [apply list_elem_of_here|]. split; [done|]. split; [|done].
      apply andb_false_iff in Hcond as [Hc|Hc].
      * left. apply negb_false_iff in Hc. by apply bool_decide_eq_true in Hc.
      * right. by apply negb_false_iff in Hc.
    + apply (Hrest gas1). by rewrite Hcol.
Qed.

Lemma calculateTradesV2_sound :
  ∀ evaluateConditions this_states chainId inFlight now h gas chainState
    trades h' gas' trade,
    this_states !! chainId = Some chainState →
    SolverV2.calculateTrades evaluateConditions this_states chainId inFlight now h gas
      = (Ok trades, h', gas') →
    trade ∈ trades →
    ∃ transfer,
      transfer ∈ transfers chainState
      ∧ InFlight.has inFlight now (requestId transfer) = false
      ∧ (conditions transfer = []
         ∨ evaluateConditions (conditions transfer) transfer this_states h = true)
      ∧ SolverV2.solve transfer this_states h = Some trade
      ∧ PrimFloat.ltb (RiskManager.assessRisk trade transfer this_states h)
                      RiskManager.maxRisk = true.
Proof.
  intros ev this_states chainId inFlight now h gas chainState trades h' gas' trade Hc.
  unfold SolverV2.calculateTrades. rewrite Hc.
  pose proof (collect_sound ev this_states inFlight now
                (List.filter (keepUnfulfilled this_states) (transfers chainState)) h gas)
    as Hsound.
  destruct (SolverV2.collect _ _ _ _ _ _ _) as [potentialTrades gas1]. simpl in Hsound.
  pose proof (commit_submseteq this_states (SolverV2.sortByScore potentialTrades) h) as Hcom.
  destruct (SolverV2.commit _ _ _) as [finalTrades h1]. simpl in Hcom.
  intros [= <- <- <-] Hin.
  eapply elem_of_submseteq in Hin; [|exact Hcom].
  apply list_elem_of_fmap in Hin as (c & -> & Hc').
  rewrite sortByScore_Permutation in Hc'.
  destruct (Hsound c Hc') as (Htf & ? & ? & ? & ?).
  exists (SolverV2.transfer c). split; [|done].
  by apply filter_elem_of in Htf as [? _].
Qed.

(** X12. Every trade a tick of the scored evaluator returns is the trade of
    a transfer the chain lists, which is not in flight, whose conditions, if
    it has any, were met, which [solve] accepts on the balances the tick
    started from, and whose risk is below the threshold. *)
Theorem scored_trades_are_vetted :
  ∀ evaluateConditions this_states chainId inFlight now h gas chainState
    trades h' gas' trade,
    this_states !! chainId = Some chainState →
    SolverV2.calculateTrades evaluateConditions this_states chainId inFlight now h gas
      = (Ok trades, h', gas') →
    trade ∈ trades →
    ∃ transfer,
      transfer ∈ transfers chainState
      ∧ InFlight.has inFlight now (requestId transfer) = false
      ∧ (conditions transfer = []
         ∨ evaluateConditions (conditions transfer) transfer this_states h = true)
      ∧ SolverV2.solve transfer this_states h = Some trade
      ∧ PrimFloat.ltb (RiskManager.assessRisk trade transfer this_states h)
                      RiskManager.maxRisk = true.
Proof. exact calculateTradesV2_sound. Qed.

Lemma scored_trades_are_vetted_witness :
  ∃ transfer,
    transfer ∈ Scenario.twoRequests
    ∧ InFlight.has ∅ 0 (requestId transfer) = false
    ∧ (conditions transfer = []
       ∨ Scenario.noConditions (conditions transfer) transfer Scenario.states Scenario.heap
         = true)
    ∧ SolverV2.solve transfer Scenario.states Scenario.heap = Some Scenario.tradeA
    ∧ PrimFloat.ltb
        (RiskManager.assessRisk Scenario.tradeA transfer Scenario.states Scenario.heap)
        RiskManager.maxRisk = true.
Proof.
  apply (scored_trades_are_vetted Scenario.noConditions Scenario.states 31337 ∅ 0
           Scenario.heap ∅ (Scenario.chainStateOf 1%positive Scenario.twoRequests)
           [Scenario.tradeA]
           (SolverV2.calculateTrades Scenario.noConditions Scenario.states 31337 ∅ 0
              Scenario.heap ∅).1.2
           (SolverV2.calculateTrades Scenario.noConditions Scenario.states 31337 ∅ 0
              Scenario.heap ∅).2
           Scenario.tradeA).
  - vm_compute. reflexivity.
  - apply (triple_eta _ (Ok [Scenario.tradeA])). vm_compute. reflexivity.
  - apply list_elem_of_here.
Defined.

(** The accounting of the commit pass; a token without a balance counts
    for 0, as the pass reads it. *)
Lemma commitV2_accounting states cands :
  ∀ h trades h',
    SolverV2.commit states cands h = (trades, h') →
    ∀ l k, default 0 (mapGet h' l k)
           = default 0 (mapGet h l k) - debited states l k trades.
Proof.
  induction cands as [|c cands IH]; intros h trades h'; simpl.
  - intros [= <- <-] l k. simpl. lia.
  - destruct (states !! normalizeChainId _) as [destState|] eqn:Hd; [|by apply IH].
    destruct (_ <=? _) eqn:Hcov; [|by apply IH].
    match goal with |- context [SolverV2.commit states cands ?h1] =>
      destruct (SolverV2.commit states cands h1) as [trades1 h2] eqn:Hev end.
    intros [= <- <-] l k. rewrite (IH _ _ _ Hev l k). simpl.
    unfold drawsOn at 1. rewrite Hd. rewrite mapGet_mapSet.
    destruct (decide (tokenBalances destState = l
                      ∧ Trade.tokenOutAddr (SolverV2.trade c) = k)) as [[<- <-]|Hne].
    + rewrite !bool_decide_eq_true_2 by done. simpl. lia.
    + replace (bool_decide (tokenBalances destState = l)
               && bool_decide (Trade.tokenOutAddr (SolverV2.trade c) = k)) with false; [lia|].
      symmetry. apply andb_false_iff.
      destruct (decide (tokenBalances destState = l)) as [Hl|Hl].
      * right. apply bool_decide_eq_false_2. intros Hk. by apply Hne.
      * left. by apply bool_decide_eq_false_2.
Qed.

Lemma commitV2_nonneg states cands :
  ∀ h trades h',
    SolverV2.commit states cands h = (trades, h') →
    ∀ l k, (∀ b, mapGet h l k = Some b → 0 <= b) →
           ∀ b', mapGet h' l k = Some b' → 0 <= b'.
Proof.
  induction cands as [|c cands IH]; intros h trades h'; simpl.
  - by intros [= <- <-].
  - destruct (states !! normalizeChainId _) as [destState|] eqn:Hd; [|by apply IH].
    destruct (_ <=? _) eqn:Hcov; [|by apply IH].
    match goal with |- context [SolverV2.commit states cands ?h1] =>
      destruct (SolverV2.commit states cands h1) as [trades1 h2] eqn:Hev end.
    intros [= <- <-] l k Hpos. apply (IH _ _ _ Hev l k).
    intros b. rewrite mapGet_mapSet. case_decide as Hlk.
    + intros [= <-]. lia.
    + apply Hpos.
Qed.

(** X13. The accounting of a tick of the scored evaluator is exact and its
    only debits are those of the commit pass: each token balance, read as 0
    when the token has none, ends as it began less the amounts of the
    returned trades that draw on it; and a balance that was not negative is
    not negative afterwards. *)
Theorem scored_commit_accounting :
  ∀ evaluateConditions this_states chainId inFlight now h gas trades h' gas',
    SolverV2.calculateTrades evaluateConditions this_states chainId inFlight now h gas
      = (Ok trades, h', gas') →
    (∀ l k, default 0 (mapGet h' l k)
            = default 0 (mapGet h l k) - debited this_states l k trades)
    ∧ (∀ l k, (∀ b, mapGet h l k = Some b → 0 <= b) →
              ∀ b', mapGet h' l k = Some b' → 0 <= b').
Proof.
  intros ev this_states chainId inFlight now h gas trades h' gas'.
  unfold SolverV2.calculateTrades.
  destruct (this_states !! chainId) as [chainState|]; [|discriminate].
  destruct (SolverV2.collect _ _ _ _ _ _ _) as [potentialTrades gas1].
  destruct (SolverV2.commit _ _ _) as [finalTrades h1] eqn:Hcom.
  intros [= <- <- <-]. split.
  - by eapply commitV2_accounting.
  - by eapply commitV2_nonneg.
Qed.

Lemma scored_commit_accounting_witness :
  default 0 (mapGet (SolverV2.calculateTrades Scenario.noConditions Scenario.states 31337
                       ∅ 0 Scenario.heap ∅).1.2
                    2%positive Scenario.token)
  = default 0 (mapGet Scenario.heap 2%positive Scenario.token)
    - debited Scenario.states 2%positive Scenario.token [Scenario.tradeA].
Proof.
  destruct (scored_commit_accounting Scenario.noConditions Scenario.states 31337 ∅ 0
              Scenario.heap ∅ [Scenario.tradeA]
              (SolverV2.calculateTrades Scenario.noConditions Scenario.states 31337
                 ∅ 0 Scenario.heap ∅).1.2
              (SolverV2.calculateTrades Scenario.noConditions Scenario.states 31337
                 ∅ 0 Scenario.heap ∅).2)
    as [Hbalance _].
  - apply (triple_eta _ (Ok [Scenario.tradeA])). vm_compute. reflexivity.
  - apply Hbalance.
Defined.

(* ===================================================================== *)
(** ** Gas prices and profit *)
(* ===================================================================== *)

Lemma gasPrice_positive chainId : 1000000 <= gasPrice chainId.
Proof. unfold gasPrice, gwei. repeat case_match; try lia; vm_compute; discriminate. Qed.

(** X14. After [getGasPrice] the cache holds, for the chain asked, its
    default price with a time stamp less than 30 seconds old; the entries of
    the other chains are untouched; and the price answered is positive. *)
Theorem getGasPrice_cache :
  ∀ cache now chainId,
    fromDefaults cache →
    (∃ timestamp,
       (GasPriceEstimator.getGasPrice cache now chainId).2 !! chainId
       = Some (gasPrice chainId, timestamp)
       ∧ now - timestamp < 30000)
    ∧ (∀ other, other ≠ chainId →
         (GasPriceEstimator.getGasPrice cache now chainId).2 !! other = cache !! other)
    ∧ 0 < (GasPriceEstimator.getGasPrice cache now chainId).1.
Proof.
  intros cache now chainId Hc.
  pose proof (getGasPrice_default cache now chainId Hc) as [Hprice _].
  pose proof (gasPrice_positive chainId) as Hpos.
  split; [|split; [|lia]]; unfold GasPriceEstimator.getGasPrice in *.
  - destruct (cache !! chainId) as [[cachedGasPrice timestamp]|] eqn:Hl.
    + destruct (now - timestamp <? GasPriceEstimator.cacheTTL) eqn:Hfresh; simpl.
      * exists timestamp. rewrite Hl, (Hc _ _ _ Hl), defaultGasPrices_gasPrice.
        split; [done|]. unfold GasPriceEstimator.cacheTTL in Hfresh. lia.
      * exists now. rewrite lookup_insert_eq, defaultGasPrices_gasPrice. split; [done|lia].
    + simpl. exists now. rewrite lookup_insert_eq, defaultGasPrices_gasPrice.
      split; [done|lia].
  - intros other Hother.
    destruct (cache !! chainId) as [[cachedGasPrice timestamp]|] eqn:Hl.
    + destruct (now - timestamp <? GasPriceEstimator.cacheTTL); simpl; [done|].
      by rewrite lookup_insert_ne.
    + simpl. by rewrite lookup_insert_ne.
Qed.

Lemma getGasPrice_cache_witness :
  0 < (GasPriceEstimator.getGasPrice ∅ 0 31338).1.
Proof.
  apply (getGasPrice_cache ∅ 0 31338 fromDefaults_empty).
Defined.

(** X15. The estimated profit of a trade of unsigned amount is never
    negative, never more than the solver fee (or 0 for a negative fee), and
    is 0 as soon as the fee does not exceed the gas cost
    [150000 * gasPrice] of the destination chain. *)
Theorem estimateProfit_bounds :
  ∀ cache now trade transfer,
    fromDefaults cache →
    0 <= Trade.swapAmount trade →
    0 <= (ProfitOptimizer.estimateProfit cache now trade transfer).1
    ∧ (ProfitOptimizer.estimateProfit cache now trade transfer).1
      <= Z.max 0 (solverFee (params transfer))
    ∧ (solverFee (params transfer)
         <= 150000 * gasPrice (normalizeChainId (Trade.destChainId trade)) →
       (ProfitOptimizer.estimateProfit cache now trade transfer).1 = 0).
Proof.
  intros cache now trade transfer Hc Hamt.
  pose proof (getGasPrice_default cache now (normalizeChainId (Trade.destChainId trade)) Hc)
    as [Hprice _].
  pose proof (gasPrice_positive (normalizeChainId (Trade.destChainId trade))) as Hpos.
  unfold ProfitOptimizer.estimateProfit, ProfitOptimizer.estimateGasCost,
    ProfitOptimizer.estimateOpportunityCost.
  destruct (GasPriceEstimator.getGasPrice _ _ _) as [price cache']. simpl in *. subst price.
  assert (0 <= (Trade.swapAmount trade * 1000 * 60) ÷ 3600000) as Hopp.
  { apply Z.quot_pos; lia. }
  case_match; lia.
Qed.

Lemma estimateProfit_bounds_witness :
  0 <= (ProfitOptimizer.estimateProfit ∅ 0 Scenario.tradeA Example.requestOfA).1
  ∧ (ProfitOptimizer.estimateProfit ∅ 0 Scenario.tradeA Example.requestOfA).1
    <= Z.max 0 Scenario.fee.
Proof.
  destruct (estimateProfit_bounds ∅ 0 Scenario.tradeA Example.requestOfA
              fromDefaults_empty) as (Hlow & Hhigh & _).
  - vm_compute. discriminate.
  - split; assumption.
Defined.

(* ===================================================================== *)
(** ** The executor: outcomes, approvals and the cache *)
(* ===================================================================== *)

(** The shapes the calls of one trade can take. *)
Lemma executeTrade_shape cfg env trade :
  let D := normalizeChainId (Trade.destChainId trade) in
  let a := TradeExecutor.reconcile (TradeExecutor.getSwapRequestParameters env) trade in
  let query := TradeExecutor.CallGetSwapRequestParameters D (toRequestId (Trade.requestId trade)) in
  (TradeExecutor.routers cfg !! D = None
   ∧ TradeExecutor.executeTrade cfg env trade = ([], Err "Router not found"))
  ∨ (∃ msg, TradeExecutor.executeTrade cfg env trade = ([query], Err msg)
            ∧ ∀ tokenContracts token,
                TradeExecutor.tokens cfg !! D = Some tokenContracts →
                token ∈ tokenContracts →
                toLowerCase token ≠ toLowerCase (TradeExecutor.actualTokenOut a))
  ∨ (∃ router tokenContracts token,
       TradeExecutor.routers cfg !! D = Some router
       ∧ TradeExecutor.tokens cfg !! D = Some tokenContracts
       ∧ token ∈ tokenContracts
       ∧ toLowerCase token = toLowerCase (TradeExecutor.actualTokenOut a)
       ∧ let approval :=
           TradeExecutor.CallApprove D token router (TradeExecutor.actualAmountOut a) in
         let relay :=
           TradeExecutor.CallRelayTokens D
             (relayArgsOf cfg (Trade.requestId trade)
                (TradeExecutor.actualTokenIn a) (TradeExecutor.actualTokenOut a)
                (TradeExecutor.actualSender a) (TradeExecutor.actualRecipient a)
                (TradeExecutor.actualAmountOut a) (TradeExecutor.actualSrcChainId a)
                (TradeExecutor.actualNonce a)) in
         (TradeExecutor.approve env ≠ TradeExecutor.TxSuccess
          ∧ ∃ msg, TradeExecutor.executeTrade cfg env trade = ([query; approval], Err msg))
         ∨ (TradeExecutor.approve env = TradeExecutor.TxSuccess
            ∧ (TradeExecutor.relayTokens env ≠ TradeExecutor.TxSuccess
               ∨ TradeExecutor.deadlineExceeded env = true)
            ∧ ∃ msg, TradeExecutor.executeTrade cfg env trade
                     = ([query; approval; relay], Err msg))
         ∨ (TradeExecutor.approve env = TradeExecutor.TxSuccess
            ∧ TradeExecutor.relayTokens env = TradeExecutor.TxSuccess
            ∧ TradeExecutor.deadlineExceeded env = false
            ∧ TradeExecutor.executeTrade cfg env trade
              = ([query; approval; relay], Ok tt))).
Proof.
  cbv zeta. unfold TradeExecutor.executeTrade.
  destruct (TradeExecutor.routers cfg !! _) as [router|] eqn:Hr; [|by left].
  right.
  destruct (TradeExecutor.tokens cfg !! _) as [tokenContracts|] eqn:Ht.
  2: { left. eexists. split; [done|]. intros ? ? [=]. }
  destruct (List.find _ tokenContracts) as [token|] eqn:Hfind.
  2: { left. eexists. split; [done|]. intros tcs token [= <-] Hin Heq.
       apply list_elem_of_In in Hin.
       pose proof (find_none _ _ Hfind token Hin) as Hno. simpl in Hno.
       by rewrite bool_decide_eq_true_2 in Hno. }
  right. apply find_some in Hfind as [Hin Heq].
  apply list_elem_of_In in Hin. apply bool_decide_eq_true in Heq.
  exists router, tokenContracts, token. do 4 (split; [done|]).
  unfold TradeExecutor.executeTradeInternal, relayArgsOf.
  destruct (TradeExecutor.approve env) eqn:Ha,
           (TradeExecutor.relayTokens env) eqn:Hrel,
           (TradeExecutor.deadlineExceeded env) eqn:Hdl;
    first
      [ left; split; [done|]; eexists; reflexivity
      | right; left; split; [done|]; split;
          [first [left; done | right; done]|]; eexists; reflexivity
      | right; right; repeat split; done ].
Qed.

(** X16. [executeTrade] succeeds exactly when the destination chain has a
    router and a configured token contract whose address is the reconciled
    [tokenOut] up to letter case, the approval and the relay both come back
    with a successful receipt, and the 10-second timer does not fire first;
    it has then made three calls: the parameter query, the approval and the
    relay, in this order. *)
Theorem executeTrade_succeeds_iff :
  ∀ cfg env trade,
    let D := normalizeChainId (Trade.destChainId trade) in
    let a := TradeExecutor.reconcile (TradeExecutor.getSwapRequestParameters env) trade in
    ((TradeExecutor.executeTrade cfg env trade).2 = Ok tt
     ↔ (∃ router tokenContracts token,
          TradeExecutor.routers cfg !! D = Some router
          ∧ TradeExecutor.tokens cfg !! D = Some tokenContracts
          ∧ token ∈ tokenContracts
          ∧ toLowerCase token = toLowerCase (TradeExecutor.actualTokenOut a))
       ∧ TradeExecutor.approve env = TradeExecutor.TxSuccess
       ∧ TradeExecutor.relayTokens env = TradeExecutor.TxSuccess
       ∧ TradeExecutor.deadlineExceeded env = false)
    ∧ ((TradeExecutor.executeTrade cfg env trade).2 = Ok tt →
       ∃ token router,
         (TradeExecutor.executeTrade cfg env trade).1
         = [ TradeExecutor.CallGetSwapRequestParameters D (toRequestId (Trade.requestId trade));
             TradeExecutor.CallApprove D token router (TradeExecutor.actualAmountOut a);
             TradeExecutor.CallRelayTokens D
               (relayArgsOf cfg (Trade.requestId trade)
                  (TradeExecutor.actualTokenIn a) (TradeExecutor.actualTokenOut a)
                  (TradeExecutor.actualSender a) (TradeExecutor.actualRecipient a)
                  (TradeExecutor.actualAmountOut a) (TradeExecutor.actualSrcChainId a)
                  (TradeExecutor.actualNonce a)) ]).
Proof.
  intros cfg env trade. cbv zeta.
  destruct (executeTrade_shape cfg env trade)
    as [[Hr Hrun]|[(msg & Hrun & Hno)|(router & tcs & token & Hr & Ht & Hin & Heq & Hcases)]].
  - rewrite Hrun. simpl. split; [|done]. split; [done|].
    intros [(router & ? & ? & Hr' & _) _]. congruence.
  - rewrite Hrun. simpl. split; [|done]. split; [done|].
    intros [(router & tcs & token & _ & Ht & Hin & Heq) _].
    destruct (Hno tcs token Ht Hin Heq).
  - cbv zeta in Hcases.
    destruct Hcases as [[Ha [msg Hrun]]|[(Ha & Hbad & msg & Hrun)|(Ha & Hrel & Hdl & Hrun)]];
      rewrite Hrun; simpl.
    + split; [|done]. split; [done|]. intros (_ & ? & _). congruence.
    + split; [|done]. split; [done|]. intros (_ & _ & ? & ?).
      destruct Hbad; congruence.
    + split; [|by eexists _, _]. split; [|done]. intros _.
      split; [by exists router, tcs, token|done].
Qed.

Lemma executeTrade_succeeds_iff_witness :
  ∃ token router,
    (TradeExecutor.executeTrade Scenario.executor Scenario.calm Scenario.tradeA).1
    = [ TradeExecutor.CallGetSwapRequestParameters 31338 Scenario.requestA;
        TradeExecutor.CallApprove 31338 token router (4 * Scenario.e18);
        TradeExecutor.CallRelayTokens 31338 Example.relayed ].
Proof.
  apply (proj2 (executeTrade_succeeds_iff Scenario.executor Scenario.calm Scenario.tradeA)).
  vm_compute. reflexivity.
Defined.

(** X17. An approval the executor submits for a trade is always on a token
    contract configured for the trade's destination chain whose address is
    the reconciled [tokenOut] up to letter case, names the router of that
    chain as spender, and is for the reconciled amount. *)
Theorem approval_is_for_configured_token :
  ∀ cfg env trade chain token spender amount,
    TradeExecutor.CallApprove chain token spender amount
      ∈ (TradeExecutor.executeTrade cfg env trade).1 →
    let a := TradeExecutor.reconcile (TradeExecutor.getSwapRequestParameters env) trade in
    chain = normalizeChainId (Trade.destChainId trade)
    ∧ TradeExecutor.routers cfg !! chain = Some spender
    ∧ (∃ tokenContracts,
         TradeExecutor.tokens cfg !! chain = Some tokenContracts ∧ token ∈ tokenContracts)
    ∧ toLowerCase token = toLowerCase (TradeExecutor.actualTokenOut a)
    ∧ amount = TradeExecutor.actualAmountOut a.
Proof.
  intros cfg env trade chain token spender amount Hin. cbv zeta.
  destruct (executeTrade_shape cfg env trade)
    as [[Hr Hrun]|[(msg & Hrun & Hno)|(router & tcs & token' & Hr & Ht & Hin' & Heq & Hcases)]].
  - rewrite Hrun in Hin. by apply elem_of_nil in Hin.
  - rewrite Hrun in Hin. simpl in Hin.
    apply elem_of_cons in Hin as [[=]|Hin]. by apply elem_of_nil in Hin.
  - cbv zeta in Hcases.
    assert (TradeExecutor.CallApprove chain token spender amount
            = TradeExecutor.CallApprove (normalizeChainId (Trade.destChainId trade)) token'
                router
                (TradeExecutor.actualAmountOut
                   (TradeExecutor.reconcile (TradeExecutor.getSwapRequestParameters env)
                      trade))) as Hsame.
    { destruct Hcases as [[Ha [msg Hrun]]|[(Ha & Hbad & msg & Hrun)|(Ha & Hrel & Hdl & Hrun)]];
        rewrite Hrun in Hin; simpl in Hin;
        repeat (apply elem_of_cons in Hin as [Hin|Hin]; try done);
        by apply elem_of_nil in Hin. }
    injection Hsame as -> -> -> ->.
    split; [done|]. split; [done|]. split; [by exists tcs|done].
Qed.

Lemma approval_is_for_configured_token_witness :
  31338 = normalizeChainId (Trade.destChainId Scenario.tradeA)
  ∧ TradeExecutor.routers Scenario.executor !! 31338 = Some Scenario.router
  ∧ (∃ tokenContracts,
       TradeExecutor.tokens Scenario.executor !! 31338 = Some tokenContracts
       ∧ Scenario.tokenAsListed ∈ tokenContracts)
  ∧ toLowerCase Scenario.tokenAsListed
    = toLowerCase (TradeExecutor.actualTokenOut
                     (TradeExecutor.reconcile
                        (TradeExecutor.getSwapRequestParameters Scenario.calm)
                        Scenario.tradeA))
  ∧ 4 * Scenario.e18
    = TradeExecutor.actualAmountOut
        (TradeExecutor.reconcile (TradeExecutor.getSwapRequestParameters Scenario.calm)
           Scenario.tradeA).
Proof.
  apply (approval_is_for_configured_token Scenario.executor Scenario.calm Scenario.tradeA
           31338 Scenario.tokenAsListed Scenario.router (4 * Scenario.e18)).
  vm_compute. apply list_elem_of_further. apply list_elem_of_here.
Defined.

(** X18. The executor submits the relay of a trade only after the approval
    came back with a successful receipt: the calls made for the trade are
    then the parameter query, the approval of exactly the relayed amount to
    the router of the chain, and the relay, in this order. *)
Theorem relay_only_after_successful_approval :
  ∀ cfg env trade chain args,
    TradeExecutor.CallRelayTokens chain args
      ∈ (TradeExecutor.executeTrade cfg env trade).1 →
    TradeExecutor.approve env = TradeExecutor.TxSuccess
    ∧ ∃ token router,
        TradeExecutor.routers cfg !! chain = Some router
        ∧ (TradeExecutor.executeTrade cfg env trade).1
          = [ TradeExecutor.CallGetSwapRequestParameters chain (RelayTokens.requestId args);
              TradeExecutor.CallApprove chain token router (RelayTokens.amountOut args);
              TradeExecutor.CallRelayTokens chain args ].
Proof.
  intros cfg env trade chain args Hin.
  destruct (executeTrade_shape cfg env trade)
    as [[Hr Hrun]|[(msg & Hrun & Hno)|(router & tcs & token & Hr & Ht & Htok & Heq & Hcases)]].
  - rewrite Hrun in Hin. by apply elem_of_nil in Hin.
  - rewrite Hrun in Hin. simpl in Hin. apply list_elem_of_singleton in Hin. discriminate.
  - cbv zeta in Hcases.
    destruct Hcases as [[Ha [msg Hrun]]|[(Ha & Hbad & msg & Hrun)|(Ha & Hrel & Hdl & Hrun)]];
      rewrite Hrun in Hin |- *; simpl in Hin |- *.
    + apply elem_of_cons in Hin as [Hin|Hin]; [discriminate|].
      apply list_elem_of_singleton in Hin. discriminate.
    + split; [done|].
      apply elem_of_cons in Hin as [Hin|Hin]; [discriminate|].
      apply elem_of_cons in Hin as [Hin|Hin]; [discriminate|].
      apply list_elem_of_singleton in Hin. injection Hin as -> ->.
      by exists token, router.
    + split; [done|].
      apply elem_of_cons in Hin as [Hin|Hin]; [discriminate|].
      apply elem_of_cons in Hin as [Hin|Hin]; [discriminate|].
      apply list_elem_of_singleton in Hin. injection Hin as -> ->.
      by exists token, router.
Qed.

Lemma relay_only_after_successful_approval_witness :
  TradeExecutor.approve Scenario.calm = TradeExecutor.TxSuccess
  ∧ ∃ token router,
      TradeExecutor.routers Scenario.executor !! 31338 = Some router
      ∧ (TradeExecutor.executeTrade Scenario.executor Scenario.calm Scenario.tradeA).1
        = [ TradeExecutor.CallGetSwapRequestParameters 31338
              (RelayTokens.requestId Example.relayed);
            TradeExecutor.CallApprove 31338 token router
              (RelayTokens.amountOut Example.relayed);
            TradeExecutor.CallRelayTokens 31338 Example.relayed ].
Proof.
  apply (relay_only_after_successful_approval Scenario.executor Scenario.calm
           Scenario.tradeA 31338 Example.relayed).
  vm_compute. do 2 apply list_elem_of_further. apply list_elem_of_here.
Defined.

(** A timer that fires while the approval is under way: the key is deleted
    and the loop goes on; the abandoned execution relays afterwards. *)
Lemma timeout_leaves_relay_for_later :
  let run :=
    TradeExecutor.execute Scenario.executor Scenario.slowWorld 0 [Scenario.tradeA] ∅ in
  TradeExecutor.trace run
  = [ TradeExecutor.CacheSet Scenario.requestA 30;
      TradeExecutor.CallGetSwapRequestParameters 31338 Scenario.requestA;
      TradeExecutor.CallApprove 31338 Scenario.tokenAsListed Scenario.router
        (4 * Scenario.e18);
      TradeExecutor.CacheDel Scenario.requestA ]
  ∧ TradeExecutor.late run = [ TradeExecutor.CallRelayTokens 31338 Example.relayed ]
  ∧ TradeExecutor.cache run !! Scenario.requestA = None
  ∧ TradeExecutor.outcome run = Ok tt.
Proof. vm_compute. repeat split; reflexivity. Qed.

Lemma size_checked (c : InFlight.t) now key :
  (size (InFlight.checked c now key) <= size c)%nat.
Proof.
  unfold InFlight.checked. destruct (c !! key) as [expiry|] eqn:Hkey; [|done].
  destruct (now <=? expiry); [done|]. rewrite map_size_delete, Hkey. simpl. lia.
Qed.

Lemma checked_other (c : InFlight.t) now key key' :
  key' ≠ key → InFlight.checked c now key !! key' = c !! key'.
Proof.
  intros Hne. unfold InFlight.checked. destruct (c !! key) as [expiry|]; [|done].
  destruct (now <=? expiry); [done|]. by rewrite lookup_delete_ne.
Qed.

Lemma set_room (c : InFlight.t) now key ttl :
  (size c < InFlight.maxKeys)%nat →
  InFlight.set c now key ttl = Ok (<[key := now + ttl * 1000]> c).
Proof.
  intros Hroom. unfold InFlight.set.
  destruct (Nat.leb_spec InFlight.maxKeys (size c)); [lia|done].
Qed.

Lemma size_set_le (c : InFlight.t) key (expiry : Z) :
  (size (<[key := expiry]> c) <= S (size c))%nat.
Proof. rewrite map_size_insert. destruct (c !! key); simpl; lia. Qed.

Lemma size_del_le (c : InFlight.t) key : (size (InFlight.del c key) <= size c)%nat.
Proof. unfold InFlight.del. rewrite map_size_delete. destruct (c !! key); simpl; lia. Qed.

Lemma has_other_key (c c' : InFlight.t) now key :
  c' !! key = c !! key → InFlight.has c' now key = InFlight.has c now key.
Proof. intros H. unfold InFlight.has. by rewrite H. Qed.

(** [execute] touches no key but the ids of its trades. *)
Lemma execute_other_keys cfg world trades :
  ∀ i (inFlight : InFlight.t) key,
    key ∉ Trade.requestId <$> trades →
    TradeExecutor.cache (TradeExecutor.execute cfg world i trades inFlight) !! key
    = inFlight !! key.
Proof.
  induction trades as [|trade rest IH]; intros i inFlight key Hkey; [done|].
  rewrite fmap_cons in Hkey. apply not_elem_of_cons in Hkey as [Hne Hkey].
  rewrite execute_cons. cbv zeta.
  destruct (InFlight.has _ _ _); [by apply IH|].
  unfold InFlight.set. destruct (_ <=? _)%nat; simpl.
  { by apply checked_other. }
  destruct (TradeExecutor.executeTrade cfg (world i) trade) as [calls [[]|msg]]; simpl.
  - rewrite IH by done. rewrite lookup_insert_ne by done. by apply checked_other.
  - rewrite IH by done. unfold InFlight.del.
    rewrite lookup_delete_ne by done. rewrite lookup_insert_ne by done.
    by apply checked_other.
Qed.


(** What [execute] leaves in the cache for the id of one of its trades. *)
Lemma execute_cache_at cfg world trades :
  ∀ i (inFlight : InFlight.t) j trade,
    NoDup (Trade.requestId <$> trades) →
    (size inFlight + length trades <= InFlight.maxKeys)%nat →
    trades !! j = Some trade →
    TradeExecutor.cache (TradeExecutor.execute cfg world i trades inFlight)
      !! Trade.requestId trade
    = if InFlight.has inFlight (TradeExecutor.now (world (i + j)%nat))
           (Trade.requestId trade)
      then inFlight !! Trade.requestId trade
      else match (TradeExecutor.executeTrade cfg (world (i + j)%nat) trade).2 with
           | Ok _ => Some (TradeExecutor.now (world (i + j)%nat) + 30 * 1000)
           | Err _ => None
           end.
Proof.
  induction trades as [|trade0 rest IH]; intros i inFlight j trade Hnd Hroom Hj; [done|].
  rewrite fmap_cons in Hnd. apply NoDup_cons in Hnd as [Hfresh Hnd].
  simpl in Hroom.
  assert (∀ c' : InFlight.t,
            (∀ key, key ≠ Trade.requestId trade0 → c' !! key = inFlight !! key) →
            (size c' + length rest <= InFlight.maxKeys)%nat →
            ∀ j', rest !! j' = Some trade →
              TradeExecutor.cache (TradeExecutor.execute cfg world (S i) rest c')
                !! Trade.requestId trade
              = if InFlight.has inFlight (TradeExecutor.now (world (i + S j')%nat))
                     (Trade.requestId trade)
                then inFlight !! Trade.requestId trade
                else match (TradeExecutor.executeTrade cfg (world (i + S j')%nat) trade).2 with
                     | Ok _ => Some (TradeExecutor.now (world (i + S j')%nat) + 30 * 1000)
                     | Err _ => None
                     end) as Hrest.
  { intros c' Hc' Hsize j' Hj'.
    assert (Trade.requestId trade ≠ Trade.requestId trade0) as Hne.
    { intros Heq. apply Hfresh. rewrite <- Heq.
      apply list_elem_of_fmap. exists trade. split; [done|].
      by eapply list_elem_of_lookup_2. }
    rewrite (IH (S i) c' j' trade Hnd Hsize Hj').
    replace (S i + j')%nat with (i + S j')%nat by lia.
    rewrite (has_other_key inFlight c') by (by apply Hc').
    by rewrite (Hc' _ Hne). }
  rewrite execute_cons. cbv zeta.
  destruct (InFlight.has inFlight (TradeExecutor.now (world i)) (Trade.requestId trade0))
    eqn:Hhas.
  - destruct j as [|j].
    + injection Hj as <-. rewrite Nat.add_0_r, Hhas. by apply execute_other_keys.
    + simpl in Hj. apply Hrest; [done|lia|done].
  - pose proof (size_checked inFlight (TradeExecutor.now (world i))
                  (Trade.requestId trade0)) as Hchecked.
    rewrite set_room by lia.
    set (inFlight1 := <[Trade.requestId trade0 := _]> _).
    assert (∀ key, key ≠ Trade.requestId trade0 → inFlight1 !! key = inFlight !! key)
      as Hother.
    { intros key Hkey. unfold inFlight1. rewrite lookup_insert_ne by done.
      by apply checked_other. }
    assert (size inFlight1 <= S (size inFlight))%nat as Hsize1.
    { unfold inFlight1.
      match goal with |- (size (<[?k := ?e]> ?c) <= _)%nat =>
        pose proof (size_set_le c k e) end. lia. }
    destruct j as [|j].
    + injection Hj as <-. rewrite Nat.add_0_r, Hhas.
      destruct (TradeExecutor.executeTrade cfg (world i) trade0) as [calls [[]|msg]];
        simpl.
      * rewrite execute_other_keys by done. apply lookup_insert_eq.
      * rewrite execute_other_keys by done. apply lookup_delete_eq.
    + simpl in Hj.
      destruct (TradeExecutor.executeTrade cfg (world i) trade0) as [calls [[]|msg]];
        simpl.
      * apply Hrest; [done|lia|done].
      * apply Hrest; [|pose proof (size_del_le inFlight1 (Trade.requestId trade0)); lia
                      |done].
        intros key Hkey. unfold InFlight.del. rewrite lookup_delete_ne by done.
        by apply Hother.
Qed.



(* ===================================================================== *)
(** ** A tick, end to end *)
(* ===================================================================== *)

Lemma callsInTime_calls env calls e :
  e ∈ TradeExecutor.callsInTime env calls → e ∈ calls.
Proof.
  unfold TradeExecutor.callsInTime. destruct (_ && _); [|done].
  rewrite !list_elem_of_In. by intros [? _]%filter_In.
Qed.

Lemma callsLate_calls env calls e :
  e ∈ TradeExecutor.callsLate env calls → e ∈ calls.
Proof.
  unfold TradeExecutor.callsLate. destruct (_ && _); [|by intros ?%elem_of_nil].
  rewrite !list_elem_of_In. by intros [? _]%filter_In.
Qed.

(** The relay call of [executeTrade] goes to the destination chain of the
    trade with the canonical form of its request id. *)
Lemma executeTrade_relay_of_trade cfg env trade chain args :
  TradeExecutor.CallRelayTokens chain args
    ∈ (TradeExecutor.executeTrade cfg env trade).1 →
  chain = normalizeChainId (Trade.destChainId trade)
  ∧ RelayTokens.requestId args = toRequestId (Trade.requestId trade).
Proof.
  intros Hc.
  pose proof (executeTrade_relay _ _ _ _ _ Hc) as Hargs. cbv zeta in Hargs.
  split; [|by rewrite Hargs].
  destruct (executeTrade_shape cfg env trade)
    as [[_ Hrun]|[(msg & Hrun & _)|(router & tcs & token & _ & _ & _ & _ & Hcases)]].
  - rewrite Hrun in Hc. by apply elem_of_nil in Hc.
  - rewrite Hrun in Hc. apply elem_of_cons in Hc as [[=]|Hc]. by apply elem_of_nil in Hc.
  - cbv zeta in Hcases.
    destruct Hcases as [[_ [msg Hrun]]|[(_ & _ & msg & Hrun)|(_ & _ & _ & Hrun)]];
      rewrite Hrun in Hc; simpl in Hc;
      repeat (apply elem_of_cons in Hc as [Hc|Hc]; try done);
      try (by apply elem_of_nil in Hc); by injection Hc as ->.
Qed.

(** Every relay call of the executor, made during its loop or later, is for
    one of its trades. *)
Lemma execute_relay_of_trade cfg world trades :
  ∀ i inFlight chain args,
    TradeExecutor.CallRelayTokens chain args
      ∈ TradeExecutor.trace (TradeExecutor.execute cfg world i trades inFlight)
        ++ TradeExecutor.late (TradeExecutor.execute cfg world i trades inFlight) →
    ∃ trade, trade ∈ trades
             ∧ chain = normalizeChainId (Trade.destChainId trade)
             ∧ RelayTokens.requestId args = toRequestId (Trade.requestId trade).
Proof.
  induction trades as [|trade rest IH]; intros i inFlight chain args Hin.
  - by apply elem_of_nil in Hin.
  - rewrite execute_cons in Hin. cbv zeta in Hin.
    assert (∀ c, TradeExecutor.CallRelayTokens chain args
                   ∈ TradeExecutor.trace (TradeExecutor.execute cfg world (S i) rest c)
                     ++ TradeExecutor.late (TradeExecutor.execute cfg world (S i) rest c) →
                 ∃ trade0, trade0 ∈ trade :: rest
                           ∧ chain = normalizeChainId (Trade.destChainId trade0)
                           ∧ RelayTokens.requestId args = toRequestId (Trade.requestId trade0))
      as Hlater.
    { intros c Hc. destruct (IH _ _ _ _ Hc) as (t & ? & ?).
      exists t. split; [by apply list_elem_of_further|done]. }
    assert (TradeExecutor.CallRelayTokens chain args
              ∈ (TradeExecutor.executeTrade cfg (world i) trade).1 →
            ∃ trade0, trade0 ∈ trade :: rest
                      ∧ chain = normalizeChainId (Trade.destChainId trade0)
                      ∧ RelayTokens.requestId args = toRequestId (Trade.requestId trade0))
      as Hnow.
    { intros Hc. exists trade. split; [apply list_elem_of_here|].
      by apply (executeTrade_relay_of_trade cfg (world i)). }
    destruct (InFlight.has _ _ _); [by apply Hlater in Hin|].
    destruct (InFlight.set _ _ _ _) as [inFlight1|msg]; simpl in Hin.
    2: { by apply elem_of_nil in Hin. }
    destruct (TradeExecutor.executeTrade cfg (world i) trade) as [calls [[]|msg]];
      simpl in Hin, Hnow.
    + apply elem_of_cons in Hin as [[=]|Hin].
      rewrite <- app_assoc in Hin.
      apply elem_of_app in Hin as [Hin|Hin]; [by apply Hnow|].
      by apply (Hlater inFlight1).
    + apply elem_of_cons in Hin as [[=]|Hin].
      apply elem_of_app in Hin as [Hin|Hin].
      * apply elem_of_app in Hin as [Hin|Hin];
          [by apply Hnow, (callsInTime_calls (world i))|].
        apply elem_of_cons in Hin as [[=]|Hin].
        eapply Hlater. apply elem_of_app. left. exact Hin.
      * apply elem_of_app in Hin as [Hin|Hin];
          [by apply Hnow, (callsLate_calls (world i))|].
        eapply Hlater. apply elem_of_app. right. exact Hin.
Qed.

(** X20. End to end, whatever the executor relays during the tick of a block
    is for a transfer that the chain client listed in that very tick and
    that the evaluator checked: not in flight, not executed, fee at least 1,
    destination state known, with a non-zero native balance and without the
    request among its fulfilled ids; the relay goes to the transfer's
    destination chain with the canonical form of its request id. This
    holds of the relay calls made while the executor's loop runs and of
    those that executions abandoned at their deadline make later. *)
Theorem relays_trace_back_to_fetched_transfers :
  ∀ chains cfg world this_states inFlight h chainId now snap chain args,
    chains !! chainId = Some (Some snap) →
    TradeExecutor.CallRelayTokens chain args
      ∈ (App.processBlock chains cfg world this_states inFlight h chainId now).2 →
    ∃ transfer,
      transfer ∈ snapTransfers snap
      ∧ chain = normalizeChainId (dstChainId (params transfer))
      ∧ RelayTokens.requestId args = toRequestId (requestId transfer)
      ∧ passesChecks (App.processBlock chains cfg world this_states inFlight h chainId now).1.1.1
                     inFlight now 1 transfer.
Proof.
  intros chains cfg world this_states inFlight h chainId now snap chain args Hchain.
  unfold App.processBlock.
  destruct (fetchState_refresh chains this_states chainId inFlight now h snap Hchain)
    as (trades & state & Hr & Hstates & _ & Htransfers & _).
  assert (Solver.calculateTrades (<[chainId := state]> this_states) chainId inFlight now
            (newChainState snap h).2
          = (Ok trades,
             (Solver.fetchState chains this_states chainId inFlight now h).2)) as Hcalc.
  { revert Hr Hstates. unfold Solver.fetchState. rewrite Hchain.
    destruct (newChainState snap h) as [updatedState h1]. simpl.
    destruct (Solver.calculateTrades (<[chainId := updatedState]> this_states) _ _ _ _)
      as [r h2] eqn:Hrun. simpl. intros -> Heq.
    assert (updatedState = state) as ->.
    { assert (<[chainId := updatedState]> this_states !! chainId
              = <[chainId := state]> this_states !! chainId) as Hl by (by rewrite Heq).
      rewrite !lookup_insert_eq in Hl. by injection Hl. }
    done. }
  destruct (Solver.fetchState chains this_states chainId inFlight now h)
    as [[r states'] h'] eqn:Hfetch.
  simpl in Hr, Hstates, Hcalc. subst r states'.
  destruct (0 <? length trades)%nat.
  - simpl. intros Hin.
    destruct (execute_relay_of_trade cfg world trades 0%nat _ chain args Hin)
      as (trade & Htrade & -> & Hrid).
    destruct (calculateTrades_sound _ _ _ _ _ state _ _ trade
                (lookup_insert_eq _ _ _) Hcalc Htrade) as (transfer & Htf & -> & Hpass).
    exists transfer. rewrite <- Htransfers. done.
  - simpl. by intros ?%elem_of_nil.
Qed.

Lemma relays_trace_back_to_fetched_transfers_witness :
  ∃ transfer,
    transfer ∈ Scenario.twoRequests
    ∧ 31338 = normalizeChainId (dstChainId (params transfer))
    ∧ RelayTokens.requestId Example.relayed = toRequestId (requestId transfer)
    ∧ passesChecks
        (App.processBlock Scenario.chains Scenario.executor Scenario.calmWorld
           Scenario.states ∅ Scenario.heap 31337 0).1.1.1
        ∅ 0 1 transfer.
Proof.
  apply (relays_trace_back_to_fetched_transfers Scenario.chains Scenario.executor
           Scenario.calmWorld Scenario.states ∅ Scenario.heap 31337 0 Example.answer
           31338 Example.relayed).
  - vm_compute. reflexivity.
  - vm_compute. do 3 apply list_elem_of_further. apply list_elem_of_here.
Defined.

(* ===================================================================== *)
(** ** The block subscription *)
(* ===================================================================== *)

Lemma deliver_from_last l0 deliveries :
  ∀ last,
    l0 <= last →
    Network.inOrder last deliveries →
    ∀ pushed final,
      Network.deliver (Some last) deliveries = (pushed, final) →
      ∃ latest, final = Some latest ∧ last <= latest
                ∧ seqZ (l0 + 1) (last - l0) ++ pushed = seqZ (l0 + 1) (latest - l0).
Proof.
  induction deliveries as [|b deliveries IH]; intros last Hl0 Hsorted pushed final; simpl.
  - intros [= <- <-]. exists last. by rewrite app_nil_r.
  - destruct Hsorted as [Hhd Hsorted].
    destruct (Network.deliver (Some b) deliveries) as [later final'] eqn:Hrun.
    intros [= <- <-].
    destruct (IH b ltac:(lia) Hsorted _ _ Hrun) as (latest & -> & Hle & Heq).
    exists latest. split; [done|]. split; [lia|].
    rewrite app_assoc, <- Heq. f_equal.
    replace (b - l0) with ((last - l0) + (b - last)) by lia.
    rewrite seqZ_app by lia. f_equal. f_equal. lia.
Qed.

(** X21. When block numbers are delivered in non-decreasing order (by the
    push subscription, the poll, or both), the handler queues every block
    after the last one known, up to the latest delivered, exactly once and
    in increasing order: a block delivered twice is queued once, and blocks
    skipped by the deliveries are filled in. *)
Theorem blocks_queued_once_in_order :
  ∀ last deliveries pushed final,
    Network.inOrder last deliveries →
    Network.deliver (Some last) deliveries = (pushed, final) →
    ∃ latest, final = Some latest ∧ last <= latest
              ∧ pushed = seqZ (last + 1) (latest - last).
Proof.
  intros last deliveries pushed final Hsorted Hrun.
  destruct (deliver_from_last last deliveries last ltac:(lia) Hsorted _ _ Hrun)
    as (latest & -> & Hle & Heq).
  exists latest. split; [done|]. split; [done|].
  rewrite Z.sub_diag in Heq. by rewrite seqZ_nil in Heq by lia.
Qed.

Lemma blocks_queued_once_in_order_witness :
  ∃ latest, Some 14 = Some latest ∧ 10 <= latest
            ∧ [11; 12; 13; 14] = seqZ (10 + 1) (latest - 10).
Proof.
  apply (blocks_queued_once_in_order 10 Example.deliveries [11; 12; 13; 14] (Some 14)).
  - simpl. lia.
  - vm_compute. reflexivity.
Defined.

(* ===================================================================== *)
(** ** In-flight ids across ticks *)
(* ===================================================================== *)

Lemma has_live (c : InFlight.t) now key expiry :
  c !! key = Some expiry → now < expiry → InFlight.has c now key = true.
Proof. intros H Hlt. unfold InFlight.has. rewrite H. lia. Qed.

(** X22. Take a list of trades with pairwise distinct request ids for which
    the cache has room, and one of them that was not in flight at its turn
    and that the executor carried out with success. Given the cache as
    [execute] left it, an evaluator tick whose clock is less than 30
    seconds after that turn does not emit the request again, whatever the
    chains then report: this holds for the simple and for the scored
    evaluator. *)
Theorem succeeded_trade_not_emitted_again :
  ∀ cfg world trades i (inFlight : InFlight.t) j trade now',
    NoDup (Trade.requestId <$> trades) →
    (size inFlight + length trades <= InFlight.maxKeys)%nat →
    trades !! j = Some trade →
    InFlight.has inFlight (TradeExecutor.now (world (i + j)%nat)) (Trade.requestId trade)
    = false →
    (TradeExecutor.executeTrade cfg (world (i + j)%nat) trade).2 = Ok tt →
    now' < TradeExecutor.now (world (i + j)%nat) + 30 * 1000 →
    (∀ this_states chainId h trades' h',
       Solver.calculateTrades this_states chainId
         (TradeExecutor.cache (TradeExecutor.execute cfg world i trades inFlight)) now' h
       = (Ok trades', h') →
       Trade.requestId trade ∉ Trade.requestId <$> trades')
    ∧ (∀ evaluateConditions this_states chainId h gas trades' h' gas',
         SolverV2.calculateTrades evaluateConditions this_states chainId
           (TradeExecutor.cache (TradeExecutor.execute cfg world i trades inFlight))
           now' h gas
         = (Ok trades', h', gas') →
         Trade.requestId trade ∉ Trade.requestId <$> trades').
Proof.
  intros cfg world trades i inFlight j trade now' Hnd Hroom Hj Hfree Hok Hsoon.
  pose proof (execute_cache_at cfg world trades i inFlight j trade Hnd Hroom Hj) as Hkey.
  rewrite Hfree, Hok in Hkey.
  pose proof (has_live _ now' _ _ Hkey Hsoon) as Hlive.
  split.
  - intros this_states chainId h trades' h' Hrun Hin.
    apply list_elem_of_fmap in Hin as (trade' & Heq & Hin).
    destruct (this_states !! chainId) as [chainState|] eqn:Hc.
    2: { unfold Solver.calculateTrades in Hrun. by rewrite Hc in Hrun. }
    destruct (calculateTrades_sound _ _ _ _ _ _ _ _ _ Hc Hrun Hin)
      as (transfer & _ & -> & Hfl & _).
    simpl in Heq. rewrite <- Heq in Hfl. congruence.
  - intros ev this_states chainId h gas trades' h' gas' Hrun Hin.
    apply list_elem_of_fmap in Hin as (trade' & Heq & Hin).
    destruct (this_states !! chainId) as [chainState|] eqn:Hc.
    2: { unfold SolverV2.calculateTrades in Hrun. by rewrite Hc in Hrun. }
    destruct (calculateTradesV2_sound _ _ _ _ _ _ _ _ _ _ _ _ Hc Hrun Hin)
      as (transfer & _ & Hfl & _ & Hs & _).
    apply solveV2_Some in Hs as ->.
    simpl in Heq. rewrite <- Heq in Hfl. congruence.
Qed.

Lemma succeeded_trade_not_emitted_again_witness :
  Trade.requestId Scenario.tradeA ∉ Trade.requestId <$> [Example.tradeB].
Proof.
  assert (Hdistinct : NoDup (Trade.requestId <$> [Scenario.tradeA])).
  { apply (bool_decide_unpack _). vm_compute. exact I. }
  assert (Hroom : (size (∅ : InFlight.t) + length [Scenario.tradeA]
                   <= InFlight.maxKeys)%nat).
  { rewrite map_size_empty. unfold InFlight.maxKeys. simpl. lia. }
  assert (Hfree : InFlight.has ∅ (TradeExecutor.now (Scenario.calmWorld (0 + 0)%nat))
                    (Trade.requestId Scenario.tradeA) = false).
  { vm_compute. reflexivity. }
  assert (Hdone : (TradeExecutor.executeTrade Scenario.executor
                     (Scenario.calmWorld (0 + 0)%nat) Scenario.tradeA).2 = Ok tt).
  { vm_compute. reflexivity. }
  assert (Hsoon : 2000 < TradeExecutor.now (Scenario.calmWorld (0 + 0)%nat) + 30 * 1000).
  { vm_compute. reflexivity. }
  apply (proj1 (succeeded_trade_not_emitted_again Scenario.executor Scenario.calmWorld
                  [Scenario.tradeA] 0 ∅ 0 Scenario.tradeA 2000
                  Hdistinct Hroom eq_refl Hfree Hdone Hsoon)
           Scenario.states 31337 Scenario.heap [Example.tradeB]
           (Solver.calculateTrades Scenario.states 31337
              (TradeExecutor.cache
                 (TradeExecutor.execute Scenario.executor Scenario.calmWorld 0
                    [Scenario.tradeA] ∅)) 2000 Scenario.heap).2).
  apply (pair_eta _ (Ok [Example.tradeB])). vm_compute. reflexivity.
Defined.
